(** * Triangular-arbitrage detection engine of [main.py]

    A shallow embedding of [simulate_swap] and
    [find_arbitrage_opportunities], together with the part of Python's
    [decimal] arithmetic they run on: finite decimals under the context
    the program installs ([getcontext().prec = 28], the default rounding
    ROUND_HALF_EVEN, the default exponent range and the default traps
    InvalidOperation, DivisionByZero and Overflow). *)

From Stdlib Require Import ZArith QArith Qpower Lia Lqa Bool List Permutation.
From stdpp Require Import gmap strings list fin_maps.

Local Open Scope Z_scope.

(** ** Exceptions *)

(** The decimal signals that the default context traps.  Under these traps
    an operation on finite operands yields a finite decimal or raises. *)
Inductive exn : Type :=
| DivisionByZero
| InvalidOperation
| Overflow.

Inductive result (A : Type) : Type :=
| Ok (a : A)
| Err (e : exn).
Arguments Ok {A} a.
Arguments Err {A} e.

Definition bind {A B : Type} (m : result A) (k : A -> result B) : result B :=
  match m with
  | Ok a => k a
  | Err e => Err e
  end.

Notation "'let*' x ':=' m 'in' k" := (bind m (fun x => k))
  (at level 10, x name, m at level 100, k at level 200).

(** ** Decimal arithmetic *)

Module Dec.

(** A finite decimal as CPython stores it: sign, coefficient, exponent;
    its value is [(-1)^sign * coefficient * 10^exponent].

    Scope: [Decimal] also has the special values Infinity and NaN, which
    [Decimal(...)] accepts from a string.  They are outside this model:
    every operation below is the finite branch of the library method, and
    every statement of this file is about finite operands (amounts,
    reserves, fee rates and thresholds).  No operation of the program
    produces a special value from finite operands under the default
    traps: an overflow, a division by zero and an invalid operation
    raise. *)
Record Decimal : Type := mkDecimal { d_sign : bool; d_int : N; d_exp : Z }.

Definition prec : Z := 28.
Definition Emax : Z := 999999.
Definition Emin : Z := -999999.
Definition Etiny : Z := Emin - prec + 1.
Definition Etop : Z := Emax - prec + 1.

Definition coeff (d : Decimal) : Z := Z.of_N (d_int d).

Definition dec_from_triple (s : bool) (c : Z) (e : Z) : Decimal :=
  mkDecimal s (Z.to_N c) e.

(** [Decimal(n)] for a Python int. *)
Definition of_int (n : Z) : Decimal :=
  dec_from_triple (n <? 0) (Z.abs n) 0.

(** [not d]: a finite decimal is falsy exactly when its coefficient is 0. *)
Definition is_zero (d : Decimal) : bool := coeff d =? 0.

Definition copy_negate (d : Decimal) : Decimal :=
  mkDecimal (negb (d_sign d)) (d_int d) (d_exp d).

Fixpoint len_fuel (fuel : nat) (n : Z) : Z :=
  match fuel with
  | O => 1
  | S f => if n <? 10 then 1 else 1 + len_fuel f (n / 10)
  end.

(** [len(str(n))], the number of decimal digits of [n >= 0]. *)
Definition len (n : Z) : Z := len_fuel (Z.to_nat (Z.log2 n)) n.

(** [d.adjusted()]: the exponent of the most significant digit. *)
Definition adjusted (d : Decimal) : Z := d_exp d + len (coeff d) - 1.

(** Digit strings are read through the integer they spell: for a
    coefficient [c] of [len c] digits, [c[i]] is [digit_at c i] and the
    digits from position [p] on are [c mod 10^(len c - p)]. *)
Definition digit_at (c i : Z) : Z := (c / 10 ^ (len c - 1 - i)) mod 10.

Definition all_zeros (c p : Z) : bool := c mod 10 ^ (len c - p) =? 0.

Definition exact_half (c p : Z) : bool :=
  c mod 10 ^ (len c - p) =? 5 * 10 ^ (len c - p - 1).

Definition round_half_up (c p : Z) : Z :=
  if 5 <=? digit_at c p then 1
  else if all_zeros c p then 0
  else -1.

Definition round_half_even (c p : Z) : Z :=
  if exact_half c p && ((p =? 0) || Z.even (digit_at c (p - 1)))
  then -1
  else round_half_up c p.

(** [Decimal._fix]: round to the context precision and check the
    exponent range. *)
Definition fix_ (d : Decimal) : result Decimal :=
  let s := d_sign d in
  if is_zero d then
    Ok (dec_from_triple s 0 (Z.min (Z.max (d_exp d) Etiny) Emax))
  else
    let exp_min := len (coeff d) + d_exp d - prec in
    if Etop <? exp_min then Err Overflow
    else
      let exp_min := if exp_min <? Etiny then Etiny else exp_min in
      if d_exp d <? exp_min then
        let digits := len (coeff d) + d_exp d - exp_min in
        let c := if digits <? 0 then 1 else coeff d in
        let digits := if digits <? 0 then 0 else digits in
        let changed := round_half_even c digits in
        let kept := c / 10 ^ (len c - digits) in
        let bump := (0 <? changed) && (prec <? len (kept + 1)) in
        let coeff' :=
          if 0 <? changed then (if bump then (kept + 1) / 10 else kept + 1)
          else kept in
        let exp_min := if bump then exp_min + 1 else exp_min in
        if Etop <? exp_min then Err Overflow
        else Ok (dec_from_triple s coeff' exp_min)
      else Ok d.

(** [Decimal._rescale] to an exponent not above the operand's own: the
    only use [__add__] makes of it, so the coefficient is padded. *)
Definition rescale_pad (d : Decimal) (e : Z) : Decimal :=
  if is_zero d then dec_from_triple (d_sign d) 0 e
  else dec_from_triple (d_sign d) (coeff d * 10 ^ (d_exp d - e)) e.

(** [_normalize]: bring two non-zero operands to a common exponent; an
    operand too small to influence the rounded sum is replaced by one
    unit of a digit beyond the precision.  Returns the two coefficients
    (in the order given) and the common exponent. *)
Definition normalize (c1 e1 c2 e2 : Z) : Z * Z * Z :=
  let swap := e1 <? e2 in
  let tmp_c := if swap then c2 else c1 in
  let tmp_e := if swap then e2 else e1 in
  let oth_c := if swap then c1 else c2 in
  let oth_e := if swap then e1 else e2 in
  let e := tmp_e + Z.min (-1) (len tmp_c - prec - 2) in
  let tiny := len oth_c + oth_e - 1 <? e in
  let oth_c := if tiny then 1 else oth_c in
  let oth_e := if tiny then e else oth_e in
  let tmp_c := tmp_c * 10 ^ (tmp_e - oth_e) in
  if swap then (oth_c, tmp_c, oth_e) else (tmp_c, oth_c, oth_e).

(** [Decimal.__add__] *)
Definition add (a b : Decimal) : result Decimal :=
  let e := Z.min (d_exp a) (d_exp b) in
  if is_zero a && is_zero b then
    fix_ (dec_from_triple (d_sign a && d_sign b) 0 e)
  else if is_zero a then
    fix_ (rescale_pad b (Z.max e (d_exp b - prec - 1)))
  else if is_zero b then
    fix_ (rescale_pad a (Z.max e (d_exp a - prec - 1)))
  else
    let '(c1, c2, ne) := normalize (coeff a) (d_exp a) (coeff b) (d_exp b) in
    if Bool.eqb (d_sign a) (d_sign b) then
      fix_ (dec_from_triple (d_sign a) (c1 + c2) ne)
    else if c1 =? c2 then
      fix_ (dec_from_triple false 0 e)
    else if c1 <? c2 then
      fix_ (dec_from_triple (d_sign b) (c2 - c1) ne)
    else
      fix_ (dec_from_triple (d_sign a) (c1 - c2) ne).

(** [Decimal.__sub__] *)
Definition sub (a b : Decimal) : result Decimal := add a (copy_negate b).

(** [Decimal.__mul__] *)
Definition mul (a b : Decimal) : result Decimal :=
  let s := xorb (d_sign a) (d_sign b) in
  let e := d_exp a + d_exp b in
  if is_zero a || is_zero b then fix_ (dec_from_triple s 0 e)
  else if coeff a =? 1 then fix_ (dec_from_triple s (coeff b) e)
  else if coeff b =? 1 then fix_ (dec_from_triple s (coeff a) e)
  else fix_ (dec_from_triple s (coeff a * coeff b) e).

(** The loop of [__truediv__] that strips trailing zeros of an exact
    quotient while the exponent is below the ideal one. *)
Fixpoint strip_to_ideal (fuel : nat) (c e ideal : Z) : Z * Z :=
  match fuel with
  | O => (c, e)
  | S f =>
      if (e <? ideal) && (c mod 10 =? 0)
      then strip_to_ideal f (c / 10) (e + 1) ideal
      else (c, e)
  end.

(** [Decimal.__truediv__] *)
Definition div (a b : Decimal) : result Decimal :=
  let s := xorb (d_sign a) (d_sign b) in
  if is_zero b then
    if is_zero a then Err InvalidOperation else Err DivisionByZero
  else if is_zero a then
    fix_ (dec_from_triple s 0 (d_exp a - d_exp b))
  else
    let shift := len (coeff b) - len (coeff a) + prec + 1 in
    let e := d_exp a - d_exp b - shift in
    let n := if 0 <=? shift then coeff a * 10 ^ shift else coeff a in
    let m := if 0 <=? shift then coeff b else coeff b * 10 ^ (- shift) in
    let q := n / m in
    let r := n mod m in
    if r =? 0 then
      let '(q', e') :=
        strip_to_ideal (Z.to_nat (d_exp a - d_exp b - e)) q e
                       (d_exp a - d_exp b) in
      fix_ (dec_from_triple s q' e')
    else
      fix_ (dec_from_triple s (if q mod 5 =? 0 then q + 1 else q) e).

(** [Decimal._cmp]: -1, 0 or 1 as [a] is below, equal to or above [b]. *)
Definition signed (s : bool) (x : Z) : Z := if s then - x else x.

Definition cmp (a b : Decimal) : Z :=
  if is_zero a then
    if is_zero b then 0 else - signed (d_sign b) 1
  else if is_zero b then signed (d_sign a) 1
  else if negb (d_sign b) && d_sign a then -1
  else if negb (d_sign a) && d_sign b then 1
  else if adjusted a =? adjusted b then
    let pa := coeff a * 10 ^ (Z.max 0 (d_exp a - d_exp b)) in
    let pb := coeff b * 10 ^ (Z.max 0 (d_exp b - d_exp a)) in
    if pa =? pb then 0
    else if pa <? pb then - signed (d_sign a) 1
    else signed (d_sign a) 1
  else if adjusted b <? adjusted a then signed (d_sign a) 1
  else - signed (d_sign a) 1.

(** [a <= b], [a >= b], [a < b] on finite decimals, where they cannot
    raise (the library methods raise InvalidOperation on a NaN operand
    only). *)
Definition le (a b : Decimal) : bool := cmp a b <=? 0.
Definition ge (a b : Decimal) : bool := 0 <=? cmp a b.

(** The rational a decimal denotes. *)
Definition value (d : Decimal) : Q :=
  (inject_Z (signed (d_sign d) (coeff d)) * Qpower 10 (d_exp d))%Q.

End Dec.

Abbreviation Decimal := Dec.Decimal.

(** ** Pools and the swap simulator *)

(** A pool record as [fetch_all_pools] and [parse_lifinity_pool_data]
    build it.  The key ['fee'] is read with [pool.get('fee', Decimal('0'))]
    and so may be absent; the other keys are read with [pool[...]]. *)
Record Pool : Type := mkPool {
  token_a : string;
  token_b : string;
  reserve_a : Decimal;
  reserve_b : Decimal;
  fee : option Decimal;
  dex : string
}.

(** The reserves on the input and on the output side, or [None] when
    [input_token] is on neither side of the pool. *)
Definition reserves (pool : Pool) (input_token : string)
  : option (Decimal * Decimal) :=
  if decide (input_token = token_a pool) then
    Some (reserve_a pool, reserve_b pool)
  else if decide (input_token = token_b pool) then
    Some (reserve_b pool, reserve_a pool)
  else None.

Definition simulate_swap (amount_in : Decimal) (pool : Pool)
    (input_token : string) : result Decimal :=
  let fee := default (Dec.of_int 0) (fee pool) in
  match reserves pool input_token with
  | None => Ok (Dec.of_int 0)
  | Some (reserve_in, reserve_out) =>
      let* one_minus_fee := Dec.sub (Dec.of_int 1) fee in
      let* amount_after_fee := Dec.mul amount_in one_minus_fee in
      let* numerator := Dec.mul amount_after_fee reserve_out in
      let* divisor := Dec.add reserve_in amount_after_fee in
      Dec.div numerator divisor
  end.

(** ** The cycle search *)

(** Values stored in an opportunity dict. *)
Inductive pyvalue : Type :=
| VList (l : list string)
| VDecimal (d : Decimal).

Abbreviation Opportunity := (gmap string pyvalue).

(** [pools_by_token.setdefault(k, []).append(p)] *)
Definition setdefault_append (k : string) (p : Pool)
    (m : gmap string (list Pool)) : gmap string (list Pool) :=
  <[k := default [] (m !! k) ++ [p]]> m.

Definition index_pools (pools : list Pool) : gmap string (list Pool) :=
  foldl (fun m p =>
           setdefault_append (token_b p) p (setdefault_append (token_a p) p m))
        ∅ pools.

(** [pools_by_token.get(tok, [])] *)
Definition get_pools (m : gmap string (list Pool)) (tok : string) : list Pool :=
  default [] (m !! tok).

(** A [for] loop whose body updates the accumulator or raises. *)
Fixpoint for_each {A S : Type} (body : S -> A -> result S) (l : list A)
    (s : S) : result S :=
  match l with
  | [] => Ok s
  | x :: l' => let* s' := body s x in for_each body l' s'
  end.

(** [p['token_b'] if p['token_a'] == tok else p['token_a']] *)
Definition other_token (p : Pool) (tok : string) : string :=
  if decide (token_a p = tok) then token_b p else token_a p.

Definition make_opportunity (base_token tok1 tok2 : string)
    (amt3 profit : Decimal) : Opportunity :=
  <["profit" := VDecimal profit]>
    (<["amount_out" := VDecimal amt3]>
       (<["path" := VList [base_token; tok1; tok2; base_token]]> ∅)).

Section Search.
Variable pools_by_token : gmap string (list Pool).
Variable base_token : string.
Variables amount_in min_profit : Decimal.

Definition third_hop (tok1 tok2 : string) (amt2 : Decimal)
    (opportunities : list Opportunity) (p3 : Pool)
  : result (list Opportunity) :=
  if negb (bool_decide (base_token = token_a p3)
           || bool_decide (base_token = token_b p3))
  then Ok opportunities
  else
    let* amt3 := simulate_swap amt2 p3 tok2 in
    let* profit := Dec.sub amt3 amount_in in
    if Dec.ge profit min_profit then
      Ok (opportunities ++ [make_opportunity base_token tok1 tok2 amt3 profit])
    else Ok opportunities.

Definition second_hop (tok1 : string) (amt1 : Decimal)
    (opportunities : list Opportunity) (p2 : Pool)
  : result (list Opportunity) :=
  let tok2 := other_token p2 tok1 in
  if bool_decide (tok2 = base_token) then Ok opportunities
  else
    let* amt2 := simulate_swap amt1 p2 tok1 in
    if Dec.le amt2 (Dec.of_int 0) then Ok opportunities
    else
      for_each (third_hop tok1 tok2 amt2) (get_pools pools_by_token tok2)
               opportunities.

Definition first_hop (opportunities : list Opportunity) (p1 : Pool)
  : result (list Opportunity) :=
  let tok1 := other_token p1 base_token in
  let* amt1 := simulate_swap amount_in p1 base_token in
  if Dec.le amt1 (Dec.of_int 0) then Ok opportunities
  else
    for_each (second_hop tok1 amt1) (get_pools pools_by_token tok1)
             opportunities.
End Search.

Definition find_arbitrage_opportunities (pools : list Pool)
    (base_token : string) (amount_in min_profit : Decimal)
  : result (list Opportunity) :=
  let pools_by_token := index_pools pools in
  for_each (first_hop pools_by_token base_token amount_in min_profit)
           (get_pools pools_by_token base_token) [].

(** * Properties *)

(** ** Loops *)

Lemma bind_Ok {A B : Type} (m : result A) (k : A -> result B) (b : B) :
  bind m k = Ok b -> exists a, m = Ok a /\ k a = Ok b.
Proof. destruct m as [a|e]; simpl; [eauto | discriminate]. Qed.

(** An invariant of the accumulator that every iteration preserves holds
    when the loop ends. *)
Lemma for_each_invariant {A S : Type} (I : S -> Prop)
    (body : S -> A -> result S) (l : list A) :
  (forall s x s', x ∈ l -> I s -> body s x = Ok s' -> I s') ->
  forall s s', I s -> for_each body l s = Ok s' -> I s'.
Proof.
  induction l as [|x l IH]; intros Hbody s s' Hs Hrun; simpl in Hrun.
  - congruence.
  - apply bind_Ok in Hrun as (s1 & Hx & Hrest).
    eapply IH; [| | exact Hrest].
    + intros s0 y s0' Hy. apply Hbody. now apply list_elem_of_further.
    + eapply Hbody; [apply list_elem_of_here | exact Hs | exact Hx].
Qed.

(** The results of the iterations, concatenated in order. *)
Fixpoint collect {A B : Type} (f : A -> result (list B)) (l : list A)
  : result (list B) :=
  match l with
  | [] => Ok []
  | x :: l' => let* r := f x in let* rs := collect f l' in Ok (r ++ rs)
  end.

(** A loop body that only appends to the accumulator. *)
Definition appends {A B : Type} (body : list B -> A -> result (list B)) : Prop :=
  forall s x, body s x = let* r := body [] x in Ok (s ++ r).

Lemma for_each_collect {A B : Type} (body : list B -> A -> result (list B))
    (l : list A) (s : list B) :
  appends body ->
  for_each body l s = let* rs := collect (body []) l in Ok (s ++ rs).
Proof.
  intros Happ. revert s.
  induction l as [|x l IH]; intros s; simpl.
  - now rewrite app_nil_r.
  - rewrite (Happ s x). destruct (body [] x) as [r|e]; simpl; [|reflexivity].
    rewrite IH. destruct (collect (body []) l) as [rs|e]; simpl; [|reflexivity].
    now rewrite app_assoc.
Qed.

Lemma collect_app {A B : Type} (f : A -> result (list B)) (l1 l2 : list A) :
  collect f (l1 ++ l2) =
  let* r1 := collect f l1 in let* r2 := collect f l2 in Ok (r1 ++ r2).
Proof.
  induction l1 as [|x l1 IH]; simpl.
  - now destruct (collect f l2).
  - destruct (f x) as [r|e]; simpl; [|reflexivity].
    rewrite IH. destruct (collect f l1) as [r1|e]; simpl; [|reflexivity].
    destruct (collect f l2) as [r2|e]; simpl; [|reflexivity].
    now rewrite app_assoc.
Qed.

Lemma collect_ext {A B : Type} (f g : A -> result (list B)) (l : list A) :
  (forall x, x ∈ l -> f x = g x) -> collect f l = collect g l.
Proof.
  induction l as [|x l IH]; intros Hfg; simpl; [reflexivity|].
  rewrite (Hfg x) by apply list_elem_of_here.
  rewrite IH; [reflexivity|].
  intros y Hy. apply Hfg. now apply list_elem_of_further.
Qed.

Lemma collect_silent {A B : Type} (f : A -> result (list B)) (l : list A) :
  (forall x, x ∈ l -> f x = Ok []) -> collect f l = Ok [].
Proof.
  induction l as [|x l IH]; intros Hf; simpl; [reflexivity|].
  rewrite (Hf x) by apply list_elem_of_here. simpl.
  rewrite IH; [reflexivity|].
  intros y Hy. apply Hf. now apply list_elem_of_further.
Qed.

(** ** The index *)

(** What the pool [p] adds to the list indexed under [k]: one entry per
    side of [p] that is [k]. *)
Definition entries (k : string) (p : Pool) : list Pool :=
  (if decide (token_a p = k) then [p] else []) ++
  (if decide (token_b p = k) then [p] else []).

Lemma get_pools_setdefault_append (k k' : string) (p : Pool)
    (m : gmap string (list Pool)) :
  get_pools (setdefault_append k' p m) k =
  get_pools m k ++ (if decide (k' = k) then [p] else []).
Proof.
  unfold get_pools, setdefault_append.
  destruct (decide (k' = k)) as [->|Hne].
  - now rewrite lookup_insert_eq.
  - rewrite lookup_insert_ne by exact Hne. now rewrite app_nil_r.
Qed.

Lemma get_pools_foldl (pools : list Pool) (m : gmap string (list Pool))
    (k : string) :
  get_pools
    (foldl (fun m p =>
              setdefault_append (token_b p) p
                (setdefault_append (token_a p) p m)) m pools) k =
  get_pools m k ++ flat_map (entries k) pools.
Proof.
  revert m. induction pools as [|p pools IH]; intros m; simpl.
  - now rewrite app_nil_r.
  - rewrite IH, !get_pools_setdefault_append. unfold entries.
    now rewrite <- !app_assoc.
Qed.

(** The list indexed under [k] holds, in input order, the pools with [k]
    on a side. *)
Lemma get_pools_index (pools : list Pool) (k : string) :
  get_pools (index_pools pools) k = flat_map (entries k) pools.
Proof. unfold index_pools. now rewrite get_pools_foldl. Qed.

Lemma elem_of_entries (k : string) (p q : Pool) :
  q ∈ entries k p <-> q = p /\ (token_a p = k \/ token_b p = k).
Proof.
  unfold entries. rewrite elem_of_app.
  destruct (decide (token_a p = k)), (decide (token_b p = k));
    rewrite ?list_elem_of_singleton, ?elem_of_nil; intuition.
Qed.

Lemma elem_of_get_pools_index (pools : list Pool) (k : string) (p : Pool) :
  p ∈ get_pools (index_pools pools) k <->
  p ∈ pools /\ (token_a p = k \/ token_b p = k).
Proof.
  rewrite get_pools_index, list_elem_of_In, in_flat_map.
  split.
  - intros (x & Hx & Hp). apply list_elem_of_In, elem_of_entries in Hp as [-> H].
    split; [now apply list_elem_of_In | exact H].
  - intros [Hp H]. exists p. split; [now apply list_elem_of_In|].
    apply list_elem_of_In, elem_of_entries. auto.
Qed.

(** ** What a reported opportunity is *)

(** [is_cycle pools base a m o]: the dict [o] is the one the innermost
    loop builds for three pools of the input that the three loops select
    one after the other. *)
Inductive is_cycle (pools : list Pool) (base_token : string)
    (amount_in min_profit : Decimal) (o : Opportunity) : Prop :=
| IsCycle (p1 p2 p3 : Pool) (amt1 amt2 amt3 profit : Decimal)
    (tok1 := other_token p1 base_token)
    (tok2 := other_token p2 tok1)
    (Hp1 : p1 ∈ pools) (Hp2 : p2 ∈ pools) (Hp3 : p3 ∈ pools)
    (Hside1 : token_a p1 = base_token \/ token_b p1 = base_token)
    (Hside2 : token_a p2 = tok1 \/ token_b p2 = tok1)
    (Hside3 : token_a p3 = tok2 \/ token_b p3 = tok2)
    (Hopen : tok2 <> base_token)
    (Hclose : base_token = token_a p3 \/ base_token = token_b p3)
    (Hamt1 : simulate_swap amount_in p1 base_token = Ok amt1)
    (Hpos1 : Dec.le amt1 (Dec.of_int 0) = false)
    (Hamt2 : simulate_swap amt1 p2 tok1 = Ok amt2)
    (Hpos2 : Dec.le amt2 (Dec.of_int 0) = false)
    (Hamt3 : simulate_swap amt2 p3 tok2 = Ok amt3)
    (Hprofit : Dec.sub amt3 amount_in = Ok profit)
    (Hmin : Dec.ge profit min_profit = true)
    (Hdict : o = make_opportunity base_token tok1 tok2 amt3 profit).

Section Soundness.
Variable pools : list Pool.
Variable base_token : string.
Variables amount_in min_profit : Decimal.

Let idx := index_pools pools.
Let good := Forall (is_cycle pools base_token amount_in min_profit).

Lemma third_hop_sound (p1 p2 p3 : Pool) (amt1 amt2 : Decimal)
    (acc acc' : list Opportunity) :
  let tok1 := other_token p1 base_token in
  let tok2 := other_token p2 tok1 in
  p1 ∈ get_pools idx base_token ->
  simulate_swap amount_in p1 base_token = Ok amt1 ->
  Dec.le amt1 (Dec.of_int 0) = false ->
  p2 ∈ get_pools idx tok1 ->
  tok2 <> base_token ->
  simulate_swap amt1 p2 tok1 = Ok amt2 ->
  Dec.le amt2 (Dec.of_int 0) = false ->
  p3 ∈ get_pools idx tok2 ->
  good acc ->
  third_hop base_token amount_in min_profit tok1 tok2 amt2 acc p3 = Ok acc' ->
  good acc'.
Proof.
  intros tok1 tok2 Hp1 Ha1 Hpos1 Hp2 Hopen Ha2 Hpos2 Hp3 Hacc Hrun.
  apply elem_of_get_pools_index in Hp1 as [Hp1 Hs1].
  apply elem_of_get_pools_index in Hp2 as [Hp2 Hs2].
  apply elem_of_get_pools_index in Hp3 as [Hp3 Hs3].
  unfold third_hop in Hrun.
  destruct (bool_decide (base_token = token_a p3)
            || bool_decide (base_token = token_b p3)) eqn:Hclose;
    simpl in Hrun; [|congruence].
  apply bind_Ok in Hrun as (amt3 & Ha3 & Hrun).
  apply bind_Ok in Hrun as (profit & Hpr & Hrun).
  destruct (Dec.ge profit min_profit) eqn:Hmin; [|congruence].
  injection Hrun as <-. apply Forall_app. split; [exact Hacc|].
  apply Forall_cons; split; [|apply Forall_nil_2].
  apply orb_true_iff in Hclose.
  rewrite !bool_decide_eq_true in Hclose.
  now apply (IsCycle _ _ _ _ _ p1 p2 p3 amt1 amt2 amt3 profit).
Qed.

Lemma second_hop_sound (p1 p2 : Pool) (amt1 : Decimal)
    (acc acc' : list Opportunity) :
  let tok1 := other_token p1 base_token in
  p1 ∈ get_pools idx base_token ->
  simulate_swap amount_in p1 base_token = Ok amt1 ->
  Dec.le amt1 (Dec.of_int 0) = false ->
  p2 ∈ get_pools idx tok1 ->
  good acc ->
  second_hop idx base_token amount_in min_profit tok1 amt1 acc p2 = Ok acc' ->
  good acc'.
Proof.
  intros tok1 Hp1 Ha1 Hpos1 Hp2 Hacc Hrun.
  unfold second_hop in Hrun.
  destruct (bool_decide (other_token p2 tok1 = base_token)) eqn:Hopen;
    [congruence|].
  apply bool_decide_eq_false in Hopen.
  apply bind_Ok in Hrun as (amt2 & Ha2 & Hrun).
  destruct (Dec.le amt2 (Dec.of_int 0)) eqn:Hpos2; [congruence|].
  revert Hacc Hrun. apply for_each_invariant.
  intros s p3 s' Hp3 Hs Hstep.
  now apply (third_hop_sound p1 p2 p3 amt1 amt2 s s').
Qed.

Lemma first_hop_sound (p1 : Pool) (acc acc' : list Opportunity) :
  p1 ∈ get_pools idx base_token ->
  good acc ->
  first_hop idx base_token amount_in min_profit acc p1 = Ok acc' ->
  good acc'.
Proof.
  intros Hp1 Hacc Hrun. unfold first_hop in Hrun.
  apply bind_Ok in Hrun as (amt1 & Ha1 & Hrun).
  destruct (Dec.le amt1 (Dec.of_int 0)) eqn:Hpos1; [congruence|].
  revert Hacc Hrun. apply for_each_invariant.
  intros s p2 s' Hp2 Hs Hstep.
  now apply (second_hop_sound p1 p2 amt1 s s').
Qed.

(** Every dict of the returned list comes from a cycle of the input. *)
Lemma find_arbitrage_opportunities_sound (opps : list Opportunity) :
  find_arbitrage_opportunities pools base_token amount_in min_profit = Ok opps ->
  Forall (is_cycle pools base_token amount_in min_profit) opps.
Proof.
  unfold find_arbitrage_opportunities.
  apply for_each_invariant; [|apply Forall_nil_2].
  intros s p1 s' Hp1 Hs Hstep.
  now apply (first_hop_sound p1 s s').
Qed.
End Soundness.

(** ** The swap simulator *)

Local Open Scope string_scope.
Local Open Scope list_scope.

(** The fee rate a pool is priced with: its ['fee'], or 0 when absent. *)
Definition fee_rate (pool : Pool) : Decimal :=
  default (Dec.of_int 0) (fee pool).

Lemma reserves_token_a (pool : Pool) :
  reserves pool (token_a pool) = Some (reserve_a pool, reserve_b pool).
Proof. unfold reserves. now rewrite decide_True. Qed.

Lemma reserves_token_b (pool : Pool) :
  token_a pool <> token_b pool ->
  reserves pool (token_b pool) = Some (reserve_b pool, reserve_a pool).
Proof.
  intros Hne. unfold reserves.
  rewrite decide_False by congruence. now rewrite decide_True.
Qed.

Lemma reserves_unmatched (pool : Pool) (input_token : string) :
  input_token <> token_a pool -> input_token <> token_b pool ->
  reserves pool input_token = None.
Proof. intros Ha Hb. unfold reserves. now rewrite !decide_False. Qed.

(** A binary operation applied to two operands that may themselves have
    raised, the left one evaluated first. *)
Definition lift2 (op : Decimal -> Decimal -> result Decimal)
    (x y : result Decimal) : result Decimal :=
  let* a := x in let* b := y in op a b.

(** The pricing formula in the words of the specification:
    [(amount_in * (1 - fee_rate) * reserve_out) /
     (reserve_in + amount_in * (1 - fee_rate))]. *)
Definition constant_product (amount_in fee_rate reserve_in reserve_out : Decimal)
  : result Decimal :=
  let one_minus_fee := lift2 Dec.sub (Ok (Dec.of_int 1)) (Ok fee_rate) in
  lift2 Dec.div
    (lift2 Dec.mul (lift2 Dec.mul (Ok amount_in) one_minus_fee) (Ok reserve_out))
    (lift2 Dec.add (Ok reserve_in) (lift2 Dec.mul (Ok amount_in) one_minus_fee)).

Lemma simulate_swap_matched (amount_in : Decimal) (pool : Pool)
    (input_token : string) (reserve_in reserve_out : Decimal) :
  reserves pool input_token = Some (reserve_in, reserve_out) ->
  simulate_swap amount_in pool input_token =
  constant_product amount_in (fee_rate pool) reserve_in reserve_out.
Proof.
  intros Hres. unfold simulate_swap, constant_product, lift2, fee_rate.
  rewrite Hres. simpl.
  destruct (Dec.sub (Dec.of_int 1) (default (Dec.of_int 0) (fee pool)))
    as [g|e]; simpl; [|reflexivity].
  destruct (Dec.mul amount_in g) as [aaf|e]; simpl; [|reflexivity].
  destruct (Dec.mul aaf reserve_out) as [n|e]; simpl; reflexivity.
Qed.

(** C3. On a well-formed pool, for the input asset on side a
    (respectively b) [simulate_swap] is the constant-product formula
    [(amount_in * (1 - fee) * reserve_out) / (reserve_in + amount_in * (1 - fee))]
    evaluated in the program's decimal arithmetic with the reserves
    [reserve_a]/[reserve_b] (respectively [reserve_b]/[reserve_a]): the
    same value when the formula has one, the same exception otherwise. *)
Theorem simulate_swap_formula (amount_in : Decimal) (pool : Pool)
    (input_token : string) :
  token_a pool <> token_b pool ->
  (input_token = token_a pool ->
   simulate_swap amount_in pool input_token =
   constant_product amount_in (fee_rate pool) (reserve_a pool) (reserve_b pool))
  /\
  (input_token = token_b pool ->
   simulate_swap amount_in pool input_token =
   constant_product amount_in (fee_rate pool) (reserve_b pool) (reserve_a pool)).
Proof.
  intros Hne. split; intros ->; apply simulate_swap_matched.
  - apply reserves_token_a.
  - now apply reserves_token_b.
Qed.

(** C9. When the input asset is on neither side of the pool,
    [simulate_swap] returns [Decimal('0')], whatever the amount. *)
Theorem simulate_swap_unmatched (amount_in : Decimal) (pool : Pool)
    (input_token : string) :
  input_token <> token_a pool ->
  input_token <> token_b pool ->
  simulate_swap amount_in pool input_token = Ok (Dec.of_int 0).
Proof.
  intros Ha Hb. unfold simulate_swap.
  now rewrite reserves_unmatched.
Qed.

(** The numerator and the divisor of the final division, as
    [simulate_swap] evaluates them. *)
Definition swap_numerator (amount_in fee_rate reserve_out : Decimal)
  : result Decimal :=
  let* one_minus_fee := Dec.sub (Dec.of_int 1) fee_rate in
  let* amount_after_fee := Dec.mul amount_in one_minus_fee in
  Dec.mul amount_after_fee reserve_out.

Definition swap_divisor (amount_in fee_rate reserve_in : Decimal)
  : result Decimal :=
  let* one_minus_fee := Dec.sub (Dec.of_int 1) fee_rate in
  let* amount_after_fee := Dec.mul amount_in one_minus_fee in
  Dec.add reserve_in amount_after_fee.

Lemma simulate_swap_division (amount_in : Decimal) (pool : Pool)
    (input_token : string) (reserve_in reserve_out n d : Decimal) :
  reserves pool input_token = Some (reserve_in, reserve_out) ->
  swap_numerator amount_in (fee_rate pool) reserve_out = Ok n ->
  swap_divisor amount_in (fee_rate pool) reserve_in = Ok d ->
  simulate_swap amount_in pool input_token = Dec.div n d.
Proof.
  intros Hres Hn Hd.
  unfold simulate_swap, swap_numerator, swap_divisor, fee_rate in *.
  rewrite Hres.
  destruct (Dec.sub (Dec.of_int 1) (default (Dec.of_int 0) (fee pool)))
    as [g|e]; simpl in *; [|discriminate].
  destruct (Dec.mul amount_in g) as [aaf|e]; simpl in *; [|discriminate].
  now rewrite Hn, Hd.
Qed.

Lemma fix_Err (d : Decimal) (e : exn) : Dec.fix_ d = Err e -> e = Overflow.
Proof.
  unfold Dec.fix_. intros H.
  repeat match type of H with
         | (if ?b then _ else _) = _ => destruct b
         | (let _ := _ in _) = _ => cbv zeta in H
         end; congruence.
Qed.

Lemma add_Err (a b : Decimal) (e : exn) : Dec.add a b = Err e -> e = Overflow.
Proof.
  unfold Dec.add. intros H.
  destruct (Dec.normalize _ _ _ _) as [[c1 c2] ne].
  repeat match type of H with
         | (if ?b then _ else _) = _ => destruct b
         end; now apply fix_Err in H.
Qed.

Lemma sub_Err (a b : Decimal) (e : exn) : Dec.sub a b = Err e -> e = Overflow.
Proof. apply add_Err. Qed.

Lemma mul_Err (a b : Decimal) (e : exn) : Dec.mul a b = Err e -> e = Overflow.
Proof.
  unfold Dec.mul. intros H.
  repeat match type of H with
         | (if ?b then _ else _) = _ => destruct b
         end; now apply fix_Err in H.
Qed.

Lemma div_Err (a b : Decimal) (e : exn) :
  Dec.div a b = Err e ->
  match e with
  | Overflow => Dec.is_zero b = false
  | InvalidOperation => Dec.is_zero b = true /\ Dec.is_zero a = true
  | DivisionByZero => Dec.is_zero b = true /\ Dec.is_zero a = false
  end.
Proof.
  unfold Dec.div. intros H.
  destruct (Dec.is_zero b) eqn:Hb.
  - destruct (Dec.is_zero a) eqn:Ha; injection H as <-; auto.
  - destruct (Dec.is_zero a).
    + apply fix_Err in H as ->. reflexivity.
    + cbv zeta in H.
      match type of H with (if ?c then _ else _) = _ => destruct c end.
      * destruct (Dec.strip_to_ideal _ _ _ _) as [q' e'].
        apply fix_Err in H as ->. reflexivity.
      * apply fix_Err in H as ->. reflexivity.
Qed.

Lemma div_zero_divisor (a b : Decimal) :
  Dec.is_zero b = true ->
  Dec.div a b = Err (if Dec.is_zero a then InvalidOperation else DivisionByZero).
Proof. intros Hb. unfold Dec.div. rewrite Hb. now destruct (Dec.is_zero a). Qed.

(** The division of [simulate_swap] meets a zero divisor. *)
Definition zero_divisor (amount_in : Decimal) (pool : Pool)
    (input_token : string) : Prop :=
  exists reserve_in reserve_out n d,
    reserves pool input_token = Some (reserve_in, reserve_out) /\
    swap_numerator amount_in (fee_rate pool) reserve_out = Ok n /\
    swap_divisor amount_in (fee_rate pool) reserve_in = Ok d /\
    Dec.is_zero d = true.

(** The same, with the numerator zero ([zero_numerator = true]) or not. *)
Definition zero_divisor_with (zero_numerator : bool) (amount_in : Decimal)
    (pool : Pool) (input_token : string) : Prop :=
  exists reserve_in reserve_out n d,
    reserves pool input_token = Some (reserve_in, reserve_out) /\
    swap_numerator amount_in (fee_rate pool) reserve_out = Ok n /\
    swap_divisor amount_in (fee_rate pool) reserve_in = Ok d /\
    Dec.is_zero d = true /\
    Dec.is_zero n = zero_numerator.

Lemma zero_divisor_cases (amount_in : Decimal) (pool : Pool)
    (input_token : string) :
  zero_divisor amount_in pool input_token <->
  zero_divisor_with true amount_in pool input_token \/
  zero_divisor_with false amount_in pool input_token.
Proof.
  unfold zero_divisor, zero_divisor_with. split.
  - intros (rin & rout & n & d & H1 & H2 & H3 & H4).
    destruct (Dec.is_zero n) eqn:Hn; [left|right];
      exists rin, rout, n, d; auto.
  - intros [H|H]; destruct H as (rin & rout & n & d & H1 & H2 & H3 & H4 & _);
      exists rin, rout, n, d; auto.
Qed.

Lemma simulate_swap_division_error (z : bool) (amount_in : Decimal)
    (pool : Pool) (input_token : string) :
  simulate_swap amount_in pool input_token =
    Err (if z then InvalidOperation else DivisionByZero)
  <-> zero_divisor_with z amount_in pool input_token.
Proof.
  split.
  - intros H. unfold zero_divisor_with, swap_numerator, swap_divisor, fee_rate.
    unfold simulate_swap in H.
    destruct (reserves pool input_token) as [[rin rout]|];
      [|destruct z; discriminate].
    destruct (Dec.sub (Dec.of_int 1) (default (Dec.of_int 0) (fee pool)))
      as [g|e] eqn:Hg; simpl in *;
      [|apply sub_Err in Hg; destruct z; congruence].
    destruct (Dec.mul amount_in g) as [aaf|e] eqn:Haaf; simpl in *;
      [|apply mul_Err in Haaf; destruct z; congruence].
    destruct (Dec.mul aaf rout) as [n|e] eqn:Hn; simpl in *;
      [|apply mul_Err in Hn; destruct z; congruence].
    destruct (Dec.add rin aaf) as [d|e] eqn:Hd; simpl in *;
      [|apply add_Err in Hd; destruct z; congruence].
    exists rin, rout, n, d. apply div_Err in H.
    destruct z; repeat split; try assumption; tauto.
  - intros (rin & rout & n & d & Hres & Hn & Hd & Hz & Hzn).
    rewrite (simulate_swap_division _ _ _ _ _ _ _ Hres Hn Hd).
    rewrite (div_zero_divisor _ _ Hz), Hzn. reflexivity.
Qed.

(** C1, as the code has it, for finite decimals.  [simulate_swap] has no
    guard on the divisor.  It raises InvalidOperation exactly when
    [reserve_in + amount_after_fee] evaluates to zero and the numerator
    [amount_after_fee * reserve_out] is zero too (0/0); it raises
    DivisionByZero exactly when the divisor evaluates to zero and the
    numerator does not; so it raises one of the two exactly when the
    divisor evaluates to zero, and it returns no value then, in
    particular not 0. *)
Theorem simulate_swap_division_error_iff (amount_in : Decimal) (pool : Pool)
    (input_token : string) :
  (simulate_swap amount_in pool input_token = Err InvalidOperation
   <-> zero_divisor_with true amount_in pool input_token) /\
  (simulate_swap amount_in pool input_token = Err DivisionByZero
   <-> zero_divisor_with false amount_in pool input_token) /\
  ((simulate_swap amount_in pool input_token = Err InvalidOperation \/
    simulate_swap amount_in pool input_token = Err DivisionByZero)
   <-> zero_divisor amount_in pool input_token) /\
  (zero_divisor amount_in pool input_token ->
   forall u, simulate_swap amount_in pool input_token <> Ok u).
Proof.
  pose proof (simulate_swap_division_error true amount_in pool input_token)
    as Hinv.
  pose proof (simulate_swap_division_error false amount_in pool input_token)
    as Hdiv.
  cbn [negb] in Hinv, Hdiv.
  split; [exact Hinv|]. split; [exact Hdiv|].
  rewrite zero_divisor_cases, <- Hinv, <- Hdiv.
  split; [reflexivity|].
  intros [H|H] u; rewrite H; discriminate.
Qed.

(** ** The reported opportunities *)

Lemma make_opportunity_path (b t1 t2 : string) (amt3 profit : Decimal) :
  make_opportunity b t1 t2 amt3 profit !! "path" = Some (VList [b; t1; t2; b]).
Proof. reflexivity. Qed.

Lemma make_opportunity_amount_out (b t1 t2 : string) (amt3 profit : Decimal) :
  make_opportunity b t1 t2 amt3 profit !! "amount_out" = Some (VDecimal amt3).
Proof. reflexivity. Qed.

Lemma make_opportunity_profit (b t1 t2 : string) (amt3 profit : Decimal) :
  make_opportunity b t1 t2 amt3 profit !! "profit" = Some (VDecimal profit).
Proof. reflexivity. Qed.

Lemma make_opportunity_dom (b t1 t2 : string) (amt3 profit : Decimal) :
  dom (make_opportunity b t1 t2 amt3 profit) =
  ({["path"; "amount_out"; "profit"]} : gset string).
Proof.
  unfold make_opportunity. rewrite !dom_insert_L, dom_empty_L. set_solver.
Qed.

Lemma other_token_ne (p : Pool) (tok : string) :
  token_a p <> token_b p ->
  token_a p = tok \/ token_b p = tok ->
  other_token p tok <> tok.
Proof.
  intros Hne Hside. unfold other_token.
  destruct (decide (token_a p = tok)) as [Ha|Ha]; [congruence|exact Ha].
Qed.

(** C2, as the code has it.  Every dict of the returned list has exactly
    the keys ['path'], ['amount_out'] and ['profit']; none has a key
    ['amount_in']. *)
Theorem opportunity_keys (pools : list Pool) (base_token : string)
    (amount_in min_profit : Decimal) (opps : list Opportunity)
    (o : Opportunity) :
  find_arbitrage_opportunities pools base_token amount_in min_profit = Ok opps ->
  o ∈ opps ->
  dom o = ({["path"; "amount_out"; "profit"]} : gset string) /\
  o !! "amount_in" = None.
Proof.
  intros Hrun Ho.
  apply find_arbitrage_opportunities_sound in Hrun.
  rewrite Forall_forall in Hrun. destruct (Hrun o Ho). subst o.
  split; [apply make_opportunity_dom | reflexivity].
Qed.

(** C5. Every dict of the returned list holds a ['profit'] that is
    ['amount_out'] minus the [amount_in] argument (the program's decimal
    subtraction) and that is [>= min_profit]. *)
Theorem opportunity_profit (pools : list Pool) (base_token : string)
    (amount_in min_profit : Decimal) (opps : list Opportunity)
    (o : Opportunity) :
  find_arbitrage_opportunities pools base_token amount_in min_profit = Ok opps ->
  o ∈ opps ->
  exists amount_out profit,
    o !! "amount_out" = Some (VDecimal amount_out) /\
    o !! "profit" = Some (VDecimal profit) /\
    Dec.sub amount_out amount_in = Ok profit /\
    Dec.ge profit min_profit = true.
Proof.
  intros Hrun Ho.
  apply find_arbitrage_opportunities_sound in Hrun.
  rewrite Forall_forall in Hrun. destruct (Hrun o Ho). subst o.
  exists amt3, profit. auto.
Qed.

(** C10. When every pool of the input has two distinct assets, every
    dict of the returned list has a ['path'] of four assets that starts
    and ends at the base asset and whose two middle assets differ from
    the base asset and from each other. *)
Theorem opportunity_path (pools : list Pool) (base_token : string)
    (amount_in min_profit : Decimal) (opps : list Opportunity)
    (o : Opportunity) :
  (forall p, p ∈ pools -> token_a p <> token_b p) ->
  find_arbitrage_opportunities pools base_token amount_in min_profit = Ok opps ->
  o ∈ opps ->
  exists tok1 tok2,
    o !! "path" = Some (VList [base_token; tok1; tok2; base_token]) /\
    tok1 <> base_token /\ tok2 <> base_token /\ tok1 <> tok2.
Proof.
  intros Hwf Hrun Ho.
  apply find_arbitrage_opportunities_sound in Hrun.
  rewrite Forall_forall in Hrun. destruct (Hrun o Ho). subst o.
  exists tok1, tok2. repeat split.
  - apply other_token_ne; auto.
  - exact Hopen.
  - intros Heq. apply (other_token_ne p2 tok1); auto.
Qed.

(** ** The three-pool example *)

Definition dec (c : Z) (e : Z) : Decimal := Dec.dec_from_triple false c e.

(** base/A and A/B with reserves 1000/1000, B/base with 1000 of B and
    2000 of base, all with fee 0. *)
Definition triangle (base A B : string) : list Pool :=
  [ mkPool base A (dec 1000 0) (dec 1000 0) (Some (dec 0 0)) "raydium";
    mkPool A B (dec 1000 0) (dec 1000 0) (Some (dec 0 0)) "raydium";
    mkPool B base (dec 1000 0) (dec 2000 0) (Some (dec 0 0)) "raydium" ].

Definition triangle_amt1 : Decimal := dec 9900990099009900990099009901 (-27).
Definition triangle_amt2 : Decimal := dec 9803921568627450980392156862 (-27).
Definition triangle_amt3 : Decimal := dec 1941747572815533980582524271 (-26).
Definition triangle_profit : Decimal := dec 941747572815533980582524271 (-26).

Lemma simulate_swap_eval (amount_in : Decimal) (pool : Pool)
    (input_token : string) (reserve_in reserve_out : Decimal)
    (r : result Decimal) :
  reserves pool input_token = Some (reserve_in, reserve_out) ->
  constant_product amount_in (fee_rate pool) reserve_in reserve_out = r ->
  simulate_swap amount_in pool input_token = r.
Proof. intros Hres <-. now apply simulate_swap_matched. Qed.

Ltac side_a := apply reserves_token_a.
Ltac side_b := apply reserves_token_b; simpl; congruence.
Ltac swap_eval :=
  eapply simulate_swap_eval; [first [side_a | side_b] | vm_compute; reflexivity].

(** The amounts along the reverse cycle base -> B -> A -> base, which
    loses money. *)
Definition back_amt1 : Decimal := dec 4975124378109452736318407960 (-27).
Definition back_amt2 : Decimal := dec 4950495049504950495049504950 (-27).
Definition back_amt3 : Decimal := dec 4926108374384236453201970443 (-27).
Definition back_loss : Decimal :=
  Dec.dec_from_triple true 5073891625615763546798029557 (-27).

Ltac eval_bool b v := replace b with v by (vm_compute; reflexivity).

(** Chaining the pricing formula over the three pools of the example. *)
Lemma triangle_chain :
  constant_product (dec 10 0) (dec 0 0) (dec 1000 0) (dec 1000 0)
    = Ok triangle_amt1 /\
  constant_product triangle_amt1 (dec 0 0) (dec 1000 0) (dec 1000 0)
    = Ok triangle_amt2 /\
  constant_product triangle_amt2 (dec 0 0) (dec 1000 0) (dec 2000 0)
    = Ok triangle_amt3.
Proof. repeat split; vm_compute; reflexivity. Qed.

(** The run of the search on the three pools of the example. *)
Lemma triangle_search (base A B : string) :
  base <> A -> A <> B -> B <> base ->
  find_arbitrage_opportunities (triangle base A B) base (dec 10 0) (dec 0 0)
    = Ok [make_opportunity base A B triangle_amt3 triangle_profit].
Proof.
  intros HbA HAB HBb.
  set (p1 := mkPool base A (dec 1000 0) (dec 1000 0) (Some (dec 0 0)) "raydium").
  set (p2 := mkPool A B (dec 1000 0) (dec 1000 0) (Some (dec 0 0)) "raydium").
  set (p3 := mkPool B base (dec 1000 0) (dec 2000 0) (Some (dec 0 0)) "raydium").
  assert (Hb : get_pools (index_pools (triangle base A B)) base = [p1; p3]).
  { rewrite get_pools_index. unfold triangle, entries. simpl.
    repeat case_decide; first [congruence | reflexivity]. }
  assert (HA : get_pools (index_pools (triangle base A B)) A = [p1; p2]).
  { rewrite get_pools_index. unfold triangle, entries. simpl.
    repeat case_decide; first [congruence | reflexivity]. }
  assert (HB : get_pools (index_pools (triangle base A B)) B = [p2; p3]).
  { rewrite get_pools_index. unfold triangle, entries. simpl.
    repeat case_decide; first [congruence | reflexivity]. }
  assert (H11 : simulate_swap (dec 10 0) p1 base = Ok triangle_amt1) by swap_eval.
  assert (H12 : simulate_swap triangle_amt1 p2 A = Ok triangle_amt2) by swap_eval.
  assert (H13 : simulate_swap triangle_amt2 p3 B = Ok triangle_amt3) by swap_eval.
  assert (H21 : simulate_swap (dec 10 0) p3 base = Ok back_amt1) by swap_eval.
  assert (H22 : simulate_swap back_amt1 p2 B = Ok back_amt2) by swap_eval.
  assert (H23 : simulate_swap back_amt2 p1 A = Ok back_amt3) by swap_eval.
  assert (O1 : other_token p1 base = A) by (unfold other_token; simpl; now rewrite decide_True).
  assert (O3 : other_token p3 base = B) by (unfold other_token; simpl; now rewrite decide_False).
  assert (O1A : other_token p1 A = base) by (unfold other_token; simpl; now rewrite decide_False).
  assert (O2A : other_token p2 A = B) by (unfold other_token; simpl; now rewrite decide_True).
  assert (O2B : other_token p2 B = A) by (unfold other_token; simpl; now rewrite decide_False by congruence).
  assert (O3B : other_token p3 B = base) by (unfold other_token; simpl; now rewrite decide_True).
  unfold find_arbitrage_opportunities. rewrite Hb.
  cbn [for_each]. unfold first_hop at 1. rewrite O1, H11, HA. cbn [bind].
  eval_bool (Dec.le triangle_amt1 (Dec.of_int 0)) false.
  cbn [for_each]. unfold second_hop at 1. rewrite O1A.
  rewrite bool_decide_eq_true_2 by reflexivity. cbn [bind].
  unfold second_hop at 1. rewrite O2A, H12, HB.
  rewrite bool_decide_eq_false_2 by exact HBb. cbn [bind].
  eval_bool (Dec.le triangle_amt2 (Dec.of_int 0)) false.
  cbn [for_each]. unfold third_hop at 1. cbn [token_a token_b p2].
  rewrite !bool_decide_eq_false_2 by congruence. cbn [negb orb bind].
  unfold third_hop at 1. cbn [token_a token_b p3].
  rewrite (bool_decide_eq_true_2 (base = base)) by reflexivity.
  rewrite orb_true_r. cbn [negb]. rewrite H13. cbn [bind].
  replace (Dec.sub triangle_amt3 (dec 10 0)) with (Ok triangle_profit)
    by (vm_compute; reflexivity).
  cbn [bind]. eval_bool (Dec.ge triangle_profit (dec 0 0)) true.
  cbn [app].
  unfold first_hop at 1. rewrite O3, H21, HB. cbn [bind].
  eval_bool (Dec.le back_amt1 (Dec.of_int 0)) false.
  cbn [for_each]. unfold second_hop at 1. rewrite O2B, H22, HA.
  rewrite bool_decide_eq_false_2 by congruence. cbn [bind].
  eval_bool (Dec.le back_amt2 (Dec.of_int 0)) false.
  cbn [for_each]. unfold third_hop at 1. cbn [token_a token_b p1].
  rewrite (bool_decide_eq_true_2 (base = base)) by reflexivity.
  cbn [orb negb]. rewrite H23. cbn [bind].
  replace (Dec.sub back_amt3 (dec 10 0)) with (Ok back_loss)
    by (vm_compute; reflexivity).
  cbn [bind]. eval_bool (Dec.ge back_loss (dec 0 0)) false.
  unfold third_hop at 1. cbn [token_a token_b p2].
  rewrite !bool_decide_eq_false_2 by congruence. cbn [negb orb bind].
  unfold second_hop at 1. rewrite O3B.
  rewrite bool_decide_eq_true_2 by reflexivity. reflexivity.
Qed.

(** C4. On the three pools base/A (1000/1000), A/B (1000/1000) and B/base
    (1000 of B, 2000 of base), all with fee 0, with [amount_in = 10] and
    [min_profit = 0], the search returns a list of exactly one dict [o];
    [o['path']] is [[base; A; B; base]], [o['amount_out']] is
    19.41747572815533980582524271, the pricing formula chained over the
    three pools in the program's decimal arithmetic, and [o['profit']] is
    9.41747572815533980582524271; [o] has no other key. *)
Theorem triangle_one_opportunity (base A B : string) :
  base <> A -> A <> B -> B <> base ->
  exists o amt1 amt2 amt3,
    find_arbitrage_opportunities (triangle base A B) base (dec 10 0) (dec 0 0)
      = Ok [o] /\
    o !! "path" = Some (VList [base; A; B; base]) /\
    o !! "amount_out" = Some (VDecimal amt3) /\
    o !! "profit" = Some (VDecimal (dec 941747572815533980582524271 (-26))) /\
    dom o = ({["path"; "amount_out"; "profit"]} : gset string) /\
    constant_product (dec 10 0) (dec 0 0) (dec 1000 0) (dec 1000 0) = Ok amt1 /\
    constant_product amt1 (dec 0 0) (dec 1000 0) (dec 1000 0) = Ok amt2 /\
    constant_product amt2 (dec 0 0) (dec 1000 0) (dec 2000 0) = Ok amt3 /\
    amt3 = dec 1941747572815533980582524271 (-26).
Proof.
  intros HbA HAB HBb.
  exists (make_opportunity base A B triangle_amt3 triangle_profit),
         triangle_amt1, triangle_amt2, triangle_amt3.
  split; [now apply triangle_search|].
  split; [reflexivity|]. split; [reflexivity|]. split; [reflexivity|].
  split; [apply make_opportunity_dom|].
  pose proof triangle_chain. intuition.
Qed.

(** ** The search as nested concatenations *)

Lemma bind_ret {A : Type} (m : result A) : (let* x := m in Ok x) = m.
Proof. now destruct m. Qed.

Section Emitters.
Variable pools_by_token : gmap string (list Pool).
Variable base_token : string.
Variables amount_in min_profit : Decimal.

Lemma third_hop_appends (tok1 tok2 : string) (amt2 : Decimal) :
  appends (third_hop base_token amount_in min_profit tok1 tok2 amt2).
Proof.
  intros s p3. unfold third_hop.
  destruct (negb _); simpl; [now rewrite app_nil_r|].
  destruct (simulate_swap amt2 p3 tok2) as [amt3|e]; simpl; [|reflexivity].
  destruct (Dec.sub amt3 amount_in) as [profit|e]; simpl; [|reflexivity].
  destruct (Dec.ge profit min_profit); simpl; [reflexivity|].
  now rewrite app_nil_r.
Qed.

Lemma second_hop_nil (tok1 : string) (amt1 : Decimal) (p2 : Pool) :
  second_hop pools_by_token base_token amount_in min_profit tok1 amt1 [] p2 =
  let tok2 := other_token p2 tok1 in
  if bool_decide (tok2 = base_token) then Ok []
  else
    let* amt2 := simulate_swap amt1 p2 tok1 in
    if Dec.le amt2 (Dec.of_int 0) then Ok []
    else
      collect (fun p3 => third_hop base_token amount_in min_profit
                           tok1 tok2 amt2 [] p3)
              (get_pools pools_by_token tok2).
Proof.
  unfold second_hop. cbv zeta.
  destruct (bool_decide _); [reflexivity|].
  destruct (simulate_swap amt1 p2 tok1) as [amt2|e]; simpl; [|reflexivity].
  destruct (Dec.le amt2 (Dec.of_int 0)); [reflexivity|].
  rewrite for_each_collect by apply third_hop_appends.
  simpl. apply bind_ret.
Qed.

Lemma second_hop_appends (tok1 : string) (amt1 : Decimal) :
  appends (second_hop pools_by_token base_token amount_in min_profit tok1 amt1).
Proof.
  intros s p2. unfold second_hop.
  destruct (bool_decide _); simpl; [now rewrite app_nil_r|].
  destruct (simulate_swap amt1 p2 tok1) as [amt2|e]; simpl; [|reflexivity].
  destruct (Dec.le amt2 (Dec.of_int 0)); simpl; [now rewrite app_nil_r|].
  rewrite !for_each_collect by apply third_hop_appends.
  now destruct (collect _ _).
Qed.

Lemma first_hop_nil (p1 : Pool) :
  first_hop pools_by_token base_token amount_in min_profit [] p1 =
  let tok1 := other_token p1 base_token in
  let* amt1 := simulate_swap amount_in p1 base_token in
  if Dec.le amt1 (Dec.of_int 0) then Ok []
  else
    collect (fun p2 => second_hop pools_by_token base_token amount_in
                         min_profit tok1 amt1 [] p2)
            (get_pools pools_by_token tok1).
Proof.
  unfold first_hop. cbv zeta.
  destruct (simulate_swap amount_in p1 base_token) as [amt1|e]; simpl;
    [|reflexivity].
  destruct (Dec.le amt1 (Dec.of_int 0)); [reflexivity|].
  rewrite for_each_collect by apply second_hop_appends.
  simpl. apply bind_ret.
Qed.

Lemma first_hop_appends :
  appends (first_hop pools_by_token base_token amount_in min_profit).
Proof.
  intros s p1. unfold first_hop.
  destruct (simulate_swap amount_in p1 base_token) as [amt1|e]; simpl;
    [|reflexivity].
  destruct (Dec.le amt1 (Dec.of_int 0)); simpl; [now rewrite app_nil_r|].
  rewrite !for_each_collect by apply second_hop_appends.
  now destruct (collect _ _).
Qed.
End Emitters.

Lemma find_arbitrage_opportunities_collect (pools : list Pool)
    (base_token : string) (amount_in min_profit : Decimal) :
  find_arbitrage_opportunities pools base_token amount_in min_profit =
  collect (fun p1 => first_hop (index_pools pools) base_token amount_in
                       min_profit [] p1)
          (get_pools (index_pools pools) base_token).
Proof.
  unfold find_arbitrage_opportunities.
  rewrite for_each_collect by apply first_hop_appends.
  simpl. apply bind_ret.
Qed.

(** ** Reordering the pools *)

(** Two runs agree up to the order of what they return: both raise, or
    both return and the lists are permutations of each other. *)
Definition same_up_to_order {B : Type} (r r' : result (list B)) : Prop :=
  match r, r' with
  | Ok a, Ok b => a ≡ₚ b
  | Err _, Err _ => True
  | _, _ => False
  end.

Lemma same_up_to_order_refl {B : Type} (r : result (list B)) :
  same_up_to_order r r.
Proof. destruct r; simpl; auto. Qed.

Lemma same_up_to_order_trans {B : Type} (r1 r2 r3 : result (list B)) :
  same_up_to_order r1 r2 -> same_up_to_order r2 r3 -> same_up_to_order r1 r3.
Proof.
  destruct r1, r2, r3; simpl; try tauto. intros H1 H2. now rewrite H1.
Qed.

Lemma collect_Permutation {A B : Type} (f : A -> result (list B))
    (l l' : list A) :
  l ≡ₚ l' -> same_up_to_order (collect f l) (collect f l').
Proof.
  induction 1 as [|x l l' Hperm IH|x y l|l l' l'' _ IH1 _ IH2]; simpl.
  - reflexivity.
  - destruct (f x) as [r|e]; simpl; [|exact I].
    destruct (collect f l), (collect f l'); simpl in *; try tauto.
    now rewrite IH.
  - destruct (f x) as [rx|ex], (f y) as [ry|ey]; simpl; try exact I.
    destruct (collect f l) as [rs|e]; simpl; [|exact I].
    rewrite !app_assoc. apply Permutation_app_tail, Permutation_app_comm.
  - eapply same_up_to_order_trans; eassumption.
Qed.

Lemma collect_same_up_to_order {A B : Type} (f g : A -> result (list B))
    (l : list A) :
  (forall x, x ∈ l -> same_up_to_order (f x) (g x)) ->
  same_up_to_order (collect f l) (collect g l).
Proof.
  induction l as [|x l IH]; intros Hfg; simpl; [reflexivity|].
  assert (Hx := Hfg x (list_elem_of_here _ _)).
  assert (Hl : same_up_to_order (collect f l) (collect g l)).
  { apply IH. intros y Hy. apply Hfg. now apply list_elem_of_further. }
  destruct (f x), (g x); simpl in *; try tauto.
  destruct (collect f l), (collect g l); simpl in *; try tauto.
  now apply Permutation_app.
Qed.

Lemma same_up_to_order_map {B C : Type} (h : B -> C) (r r' : result (list B)) :
  same_up_to_order r r' ->
  match r, r' with
  | Ok a, Ok b => map h a ≡ₚ map h b
  | Err _, Err _ => True
  | _, _ => False
  end.
Proof. destruct r, r'; simpl; auto. apply Permutation_map. Qed.

Section Reorder.
Variables pools pools' : list Pool.
Variable base_token : string.
Variables amount_in min_profit : Decimal.
Hypothesis Hperm : pools ≡ₚ pools'.

Lemma get_pools_Permutation (k : string) :
  get_pools (index_pools pools) k ≡ₚ get_pools (index_pools pools') k.
Proof. rewrite !get_pools_index. now apply Permutation_flat_map. Qed.

Lemma second_hop_reorder (tok1 : string) (amt1 : Decimal) (p2 : Pool) :
  same_up_to_order
    (second_hop (index_pools pools) base_token amount_in min_profit
                tok1 amt1 [] p2)
    (second_hop (index_pools pools') base_token amount_in min_profit
                tok1 amt1 [] p2).
Proof.
  rewrite !second_hop_nil. cbv zeta.
  destruct (bool_decide _); [apply same_up_to_order_refl|].
  destruct (simulate_swap amt1 p2 tok1) as [amt2|e]; simpl; [|exact I].
  destruct (Dec.le amt2 (Dec.of_int 0)); [apply same_up_to_order_refl|].
  apply collect_Permutation, get_pools_Permutation.
Qed.

Lemma first_hop_reorder (p1 : Pool) :
  same_up_to_order
    (first_hop (index_pools pools) base_token amount_in min_profit [] p1)
    (first_hop (index_pools pools') base_token amount_in min_profit [] p1).
Proof.
  rewrite !first_hop_nil. cbv zeta.
  destruct (simulate_swap amount_in p1 base_token) as [amt1|e]; simpl;
    [|exact I].
  destruct (Dec.le amt1 (Dec.of_int 0)); [apply same_up_to_order_refl|].
  eapply same_up_to_order_trans.
  - apply collect_same_up_to_order. intros p2 _. apply second_hop_reorder.
  - apply collect_Permutation, get_pools_Permutation.
Qed.

Lemma find_arbitrage_opportunities_reorder :
  same_up_to_order
    (find_arbitrage_opportunities pools base_token amount_in min_profit)
    (find_arbitrage_opportunities pools' base_token amount_in min_profit).
Proof.
  rewrite !find_arbitrage_opportunities_collect.
  eapply same_up_to_order_trans.
  - apply collect_same_up_to_order. intros p1 _. apply first_hop_reorder.
  - apply collect_Permutation, get_pools_Permutation.
Qed.
End Reorder.

(** The pair of a dict's ['path'] and ['amount_out']. *)
Definition path_and_amount_out (o : Opportunity)
  : option pyvalue * option pyvalue :=
  (o !! "path", o !! "amount_out").

(** C7. Permuting the input pools permutes what the search returns: the
    two runs both return or both raise, and when they return, the lists
    of (path, amount_out) pairs are permutations of each other, that is
    equal as multisets. *)
Theorem find_arbitrage_opportunities_permutation (pools pools' : list Pool)
    (base_token : string) (amount_in min_profit : Decimal) :
  pools ≡ₚ pools' ->
  match find_arbitrage_opportunities pools base_token amount_in min_profit,
        find_arbitrage_opportunities pools' base_token amount_in min_profit
  with
  | Ok opps, Ok opps' =>
      map path_and_amount_out opps ≡ₚ map path_and_amount_out opps'
  | Err _, Err _ => True
  | _, _ => False
  end.
Proof.
  intros Hperm. apply same_up_to_order_map.
  now apply find_arbitrage_opportunities_reorder.
Qed.

(** ** A pool away from the base asset *)

Lemma collect_app_silent {A B : Type} (f : A -> result (list B))
    (l1 l2 l3 : list A) :
  (forall x, x ∈ l2 -> f x = Ok []) ->
  collect f (l1 ++ l2 ++ l3) = collect f (l1 ++ l3).
Proof.
  intros Hsilent. rewrite !collect_app, (collect_silent f l2 Hsilent).
  simpl. now rewrite bind_ret.
Qed.

Lemma other_token_side (p : Pool) (tok : string) :
  other_token p tok = token_a p \/ other_token p tok = token_b p.
Proof. unfold other_token. destruct (decide _); auto. Qed.

Section Unrelated.
Variables l1 l2 : list Pool.
Variable q : Pool.
Variable base_token : string.
Variables amount_in min_profit : Decimal.

Hypothesis Hqa : token_a q <> base_token.
Hypothesis Hqb : token_b q <> base_token.
Hypothesis Hfar : forall p, p ∈ l1 ++ q :: l2 ->
  token_a p = base_token \/ token_b p = base_token ->
  token_a q <> token_a p /\ token_a q <> token_b p /\
  token_b q <> token_a p /\ token_b q <> token_b p.

Let idx := index_pools (l1 ++ q :: l2).
Let idx' := index_pools (l1 ++ l2).

Lemma get_pools_without (k : string) :
  get_pools idx k =
  flat_map (entries k) l1 ++ entries k q ++ flat_map (entries k) l2 /\
  get_pools idx' k = flat_map (entries k) l1 ++ flat_map (entries k) l2.
Proof.
  unfold idx, idx'. rewrite !get_pools_index, !flat_map_app. simpl.
  split; reflexivity.
Qed.

Lemma get_pools_away (k : string) :
  token_a q <> k -> token_b q <> k -> get_pools idx k = get_pools idx' k.
Proof.
  intros Ha Hb. destruct (get_pools_without k) as [-> ->].
  unfold entries at 2. now rewrite !decide_False.
Qed.

Lemma third_hop_silent (tok1 tok2 : string) (amt2 : Decimal) (p3 : Pool) :
  p3 ∈ entries tok2 q ->
  third_hop base_token amount_in min_profit tok1 tok2 amt2 [] p3 = Ok [].
Proof.
  intros Hp3. apply elem_of_entries in Hp3 as [-> _]. unfold third_hop.
  now rewrite !bool_decide_eq_false_2 by congruence.
Qed.

Lemma second_hop_without (tok1 : string) (amt1 : Decimal) (p2 : Pool) :
  second_hop idx base_token amount_in min_profit tok1 amt1 [] p2 =
  second_hop idx' base_token amount_in min_profit tok1 amt1 [] p2.
Proof.
  rewrite !second_hop_nil. cbv zeta.
  destruct (bool_decide _); [reflexivity|].
  destruct (simulate_swap amt1 p2 tok1) as [amt2|e]; simpl; [|reflexivity].
  destruct (Dec.le amt2 (Dec.of_int 0)); [reflexivity|].
  destruct (get_pools_without (other_token p2 tok1)) as [-> ->].
  apply collect_app_silent. intros p3. apply third_hop_silent.
Qed.

Lemma first_hop_without (p1 : Pool) :
  p1 ∈ get_pools idx' base_token ->
  first_hop idx base_token amount_in min_profit [] p1 =
  first_hop idx' base_token amount_in min_profit [] p1.
Proof.
  intros Hp1. apply elem_of_get_pools_index in Hp1 as [Hin Hside].
  assert (Hin' : p1 ∈ l1 ++ q :: l2).
  { apply elem_of_app in Hin as [H|H]; apply elem_of_app;
      [left | right; apply list_elem_of_further]; exact H. }
  destruct (Hfar p1 Hin' Hside) as (Haa & Hab & Hba & Hbb).
  rewrite !first_hop_nil. cbv zeta.
  destruct (simulate_swap amount_in p1 base_token) as [amt1|e]; simpl;
    [|reflexivity].
  destruct (Dec.le amt1 (Dec.of_int 0)); [reflexivity|].
  rewrite get_pools_away.
  - apply collect_ext. intros p2 _. apply second_hop_without.
  - destruct (other_token_side p1 base_token) as [-> | ->]; assumption.
  - destruct (other_token_side p1 base_token) as [-> | ->]; assumption.
Qed.

Lemma find_arbitrage_opportunities_without :
  find_arbitrage_opportunities (l1 ++ q :: l2) base_token amount_in min_profit =
  find_arbitrage_opportunities (l1 ++ l2) base_token amount_in min_profit.
Proof.
  rewrite !find_arbitrage_opportunities_collect.
  fold idx idx'. rewrite get_pools_away by assumption.
  apply collect_ext. intros p1 Hp1. now apply first_hop_without.
Qed.
End Unrelated.

(** C8. A pool [q] with neither asset equal to the base asset and neither
    asset on a pool of the list that has the base asset on a side can be
    removed from the list without changing what the search returns (or
    raises): [q] contributes to no opportunity. *)
Theorem unrelated_pool_contributes_nothing (l1 l2 : list Pool) (q : Pool)
    (base_token : string) (amount_in min_profit : Decimal) :
  token_a q <> base_token ->
  token_b q <> base_token ->
  (forall p, p ∈ l1 ++ q :: l2 ->
     token_a p = base_token \/ token_b p = base_token ->
     token_a q <> token_a p /\ token_a q <> token_b p /\
     token_b q <> token_a p /\ token_b q <> token_b p) ->
  find_arbitrage_opportunities (l1 ++ q :: l2) base_token amount_in min_profit =
  find_arbitrage_opportunities (l1 ++ l2) base_token amount_in min_profit.
Proof. apply find_arbitrage_opportunities_without. Qed.

(** ** Decimal arithmetic: digits and values *)

Local Open Scope Z_scope.

Lemma len_fuel_spec (fuel : nat) (n : Z) :
  0 < n -> n < 10 ^ (Z.of_nat fuel + 1) ->
  1 <= Dec.len_fuel fuel n /\
  10 ^ (Dec.len_fuel fuel n - 1) <= n < 10 ^ Dec.len_fuel fuel n.
Proof.
  revert n. induction fuel as [|fuel IH]; intros n Hpos Hlt.
  - simpl in *. lia.
  - cbn [Dec.len_fuel]. destruct (Z.ltb_spec n 10) as [Hsmall|Hbig].
    + simpl. lia.
    + assert (Hdiv : 0 < n / 10) by (apply Z.div_str_pos; lia).
      assert (Hlt' : n / 10 < 10 ^ (Z.of_nat fuel + 1)).
      { apply Z.div_lt_upper_bound; [lia|].
        rewrite <- Z.pow_succ_r by lia.
        replace (Z.succ (Z.of_nat fuel + 1)) with (Z.of_nat (S fuel) + 1) by lia.
        exact Hlt. }
      destruct (IH (n / 10) Hdiv Hlt') as (Hone & Hlo & Hhi).
      set (l := Dec.len_fuel fuel (n / 10)) in *.
      replace (1 + l - 1) with (Z.succ (l - 1)) by lia.
      replace (1 + l) with (Z.succ l) by lia.
      rewrite !Z.pow_succ_r by lia.
      pose proof (Z.div_mod n 10 ltac:(lia)) as Hdm.
      pose proof (Z.mod_pos_bound n 10 ltac:(lia)) as Hmod.
      lia.
Qed.

(** A positive [n] has [len n] decimal digits. *)
Lemma len_spec (n : Z) :
  0 < n -> 1 <= Dec.len n /\ 10 ^ (Dec.len n - 1) <= n < 10 ^ Dec.len n.
Proof.
  intros Hpos. unfold Dec.len. apply len_fuel_spec; [exact Hpos|].
  rewrite Z2Nat.id by apply Z.log2_nonneg.
  destruct (Z.log2_spec n Hpos) as [_ Hlt].
  eapply Z.lt_le_trans; [exact Hlt|].
  replace (Z.succ (Z.log2 n)) with (Z.log2 n + 1) by lia.
  apply Z.pow_le_mono_l. lia.
Qed.

Lemma len_lower (n k : Z) : 0 <= k -> 10 ^ k <= n -> k < Dec.len n.
Proof.
  intros Hk Hle.
  assert (Hpos : 0 < n) by (pose proof (Z.pow_pos_nonneg 10 k); lia).
  destruct (len_spec n Hpos) as (H1 & _ & Hhi).
  destruct (Z.lt_ge_cases k (Dec.len n)) as [H|H]; [exact H|].
  pose proof (Z.pow_le_mono_r 10 (Dec.len n) k ltac:(lia) H). lia.
Qed.

Lemma len_upper (n k : Z) : 0 < n -> n < 10 ^ k -> Dec.len n <= k.
Proof.
  intros Hpos Hlt.
  destruct (len_spec n Hpos) as (H1 & Hlo & _).
  destruct (Z.le_gt_cases (Dec.len n) k) as [H|H]; [exact H|].
  pose proof (Z.pow_le_mono_r 10 k (Dec.len n - 1) ltac:(lia) ltac:(lia)). lia.
Qed.

Lemma coeff_from_triple (s : bool) (c e : Z) :
  0 <= c -> Dec.coeff (Dec.dec_from_triple s c e) = c.
Proof. intros Hc. unfold Dec.coeff, Dec.dec_from_triple. simpl. lia. Qed.

Lemma coeff_nonneg (d : Decimal) : 0 <= Dec.coeff d.
Proof. unfold Dec.coeff. lia. Qed.

(** Powers of ten as rationals, for exponents of either sign. *)
Definition pow10 (k : Z) : Q := Qpower 10 k.

Lemma pow10_pos (k : Z) : (0 < pow10 k)%Q.
Proof. apply Qpower_0_lt. reflexivity. Qed.

Lemma pow10_add (a b : Z) : (pow10 (a + b) == pow10 a * pow10 b)%Q.
Proof. apply Qpower_plus. discriminate. Qed.

Lemma pow10_0 : (pow10 0 == 1)%Q.
Proof. reflexivity. Qed.

Lemma pow10_le (a b : Z) : a <= b -> (pow10 a <= pow10 b)%Q.
Proof. intros H. apply Qpower_le_compat_l; [exact H | discriminate]. Qed.

Lemma pow10_lt (a b : Z) : a < b -> (pow10 a < pow10 b)%Q.
Proof. intros H. apply Qpower_lt_compat_l; [exact H | reflexivity]. Qed.

Lemma pow10_lt_inv (a b : Z) : (pow10 a < pow10 b)%Q -> a < b.
Proof. intros H. eapply Qpower_lt_compat_l_inv; [exact H | reflexivity]. Qed.

Lemma pow10_Z (n : Z) : 0 <= n -> (pow10 n == inject_Z (10 ^ n))%Q.
Proof. intros H. unfold pow10. now rewrite Zpower_Qpower. Qed.

Lemma pow10_cancel (k : Z) : (pow10 k * pow10 (- k) == 1)%Q.
Proof. rewrite <- pow10_add. replace (k + - k) with 0 by lia. reflexivity. Qed.

(** The magnitude [c * 10^e]. *)
Definition mag (c e : Z) : Q := (inject_Z c * pow10 e)%Q.

Lemma mag_shift (c e k : Z) : 0 <= k -> (mag (c * 10 ^ k) e == mag c (e + k))%Q.
Proof.
  intros Hk. unfold mag.
  rewrite inject_Z_mult, pow10_add, <- (pow10_Z k Hk). ring.
Qed.

Lemma value_unfold (d : Decimal) :
  Dec.value d =
  (inject_Z (Dec.signed (Dec.d_sign d) (Dec.coeff d)) * pow10 (Dec.d_exp d))%Q.
Proof. reflexivity. Qed.

Lemma value_mag (d : Decimal) :
  Dec.d_sign d = false ->
  (Dec.value d == mag (Dec.coeff d) (Dec.d_exp d))%Q.
Proof. intros Hs. rewrite value_unfold, Hs. reflexivity. Qed.

Lemma value_zero (d : Decimal) :
  Dec.is_zero d = true -> (Dec.value d == 0)%Q.
Proof.
  unfold Dec.is_zero. intros H%Z.eqb_eq. rewrite value_unfold, H.
  destruct (Dec.d_sign d); unfold Dec.signed;
    change (inject_Z (- 0)) with 0%Q; change (inject_Z 0) with 0%Q; ring.
Qed.

Lemma mag_pos (c e : Z) : 0 < c -> (0 < mag c e)%Q.
Proof.
  intros Hc. unfold mag. apply Qmult_lt_0_compat; [|apply pow10_pos].
  replace 0%Q with (inject_Z 0) by reflexivity. now rewrite <- Zlt_Qlt.
Qed.

Lemma value_neg (d : Decimal) :
  Dec.d_sign d = true -> (Dec.value d == - mag (Dec.coeff d) (Dec.d_exp d))%Q.
Proof.
  intros Hs. rewrite value_unfold, Hs. unfold mag, Dec.signed.
  rewrite inject_Z_opp. ring.
Qed.

(** A decimal of positive value has a clear sign bit and a positive
    coefficient. *)
Lemma value_pos_inv (d : Decimal) :
  (0 < Dec.value d)%Q -> Dec.d_sign d = false /\ 0 < Dec.coeff d.
Proof.
  intros Hpos. pose proof (coeff_nonneg d) as Hc.
  destruct (Z.eq_dec (Dec.coeff d) 0) as [Hz|Hnz].
  - exfalso. rewrite value_zero in Hpos; [now apply Qlt_irrefl in Hpos|].
    unfold Dec.is_zero. now apply Z.eqb_eq.
  - split; [|lia]. destruct (Dec.d_sign d) eqn:Hs; [|reflexivity].
    exfalso. rewrite (value_neg d Hs) in Hpos.
    pose proof (mag_pos (Dec.coeff d) (Dec.d_exp d) ltac:(lia)). lra.
Qed.

Lemma value_zero_inv (d : Decimal) :
  (Dec.value d == 0)%Q -> Dec.is_zero d = true.
Proof.
  intros H. unfold Dec.is_zero. apply Z.eqb_eq.
  pose proof (coeff_nonneg d) as Hc.
  destruct (Z.eq_dec (Dec.coeff d) 0) as [Hz|Hnz]; [exact Hz|exfalso].
  pose proof (mag_pos (Dec.coeff d) (Dec.d_exp d) ltac:(lia)) as Hm.
  destruct (Dec.d_sign d) eqn:Hs.
  - rewrite (value_neg d Hs) in H. lra.
  - rewrite (value_mag d Hs) in H. lra.
Qed.

(** ** Rounding to the context precision, as a relation on values *)

Lemma inject_Z_succ_le (a b : Z) : a + 1 <= b -> (inject_Z a + 1 <= inject_Z b)%Q.
Proof.
  intros H. rewrite Zle_Qle, inject_Z_plus in H. exact H.
Qed.

Lemma mag_le (c1 c2 k : Z) : c1 <= c2 -> (mag c1 k <= mag c2 k)%Q.
Proof.
  intros H. unfold mag. apply Qmult_le_compat_r.
  - now rewrite Zle_Qle in H.
  - apply Qlt_le_weak, pow10_pos.
Qed.

Lemma mag_pow10 (n k : Z) : 0 <= n -> (mag (10 ^ n) k == pow10 (n + k))%Q.
Proof. intros Hn. unfold mag. rewrite <- pow10_Z by exact Hn. now rewrite pow10_add. Qed.

Lemma scale_lt (t : Q) (a k : Z) :
  (t < pow10 (a + k))%Q -> (t * pow10 (- k) < pow10 a)%Q.
Proof.
  intros H. apply (Qmult_lt_r _ _ (pow10 k)); [apply pow10_pos|].
  rewrite <- Qmult_assoc, (Qmult_comm (pow10 (- k))), pow10_cancel, Qmult_1_r.
  now rewrite <- pow10_add.
Qed.

Lemma scale_le (t : Q) (a k : Z) :
  (pow10 (a + k) <= t)%Q -> (pow10 a <= t * pow10 (- k))%Q.
Proof.
  intros H. apply (Qmult_le_r _ _ (pow10 k)); [apply pow10_pos|].
  rewrite <- Qmult_assoc, (Qmult_comm (pow10 (- k))), pow10_cancel, Qmult_1_r.
  now rewrite <- pow10_add.
Qed.

Lemma scale_le_mag (t : Q) (c k : Z) :
  (t <= mag c k)%Q -> (t * pow10 (- k) <= inject_Z c)%Q.
Proof.
  intros H. apply (Qmult_le_r _ _ (pow10 k)); [apply pow10_pos|].
  rewrite <- Qmult_assoc, (Qmult_comm (pow10 (- k))), pow10_cancel, Qmult_1_r.
  exact H.
Qed.

Lemma scale_pos (t : Q) (k : Z) : (0 < t)%Q -> (0 < t * pow10 (- k))%Q.
Proof. intros H. apply Qmult_lt_0_compat; [exact H | apply pow10_pos]. Qed.

(** [c] is [y] rounded to an integer, ties going to the even neighbour. *)
Definition rounds_half_even (y : Q) (c : Z) : Prop :=
  (2 * inject_Z c - 1 <= 2 * y)%Q /\
  (2 * y <= 2 * inject_Z c + 1)%Q /\
  ((2 * y == 2 * inject_Z c - 1 \/ 2 * y == 2 * inject_Z c + 1)%Q ->
   Z.even c = true).

Lemma rounds_half_even_exact (y : Q) (c : Z) :
  (y == inject_Z c)%Q -> rounds_half_even y c.
Proof. intros H. repeat split; lra. Qed.

Lemma rounds_half_even_ge (y : Q) (c z : Z) :
  rounds_half_even y c -> (inject_Z z <= y)%Q -> z <= c.
Proof.
  intros (Hlo & Hhi & _) Hz.
  destruct (Z.le_gt_cases z c) as [H|H]; [exact H|exfalso].
  pose proof (inject_Z_succ_le c z ltac:(lia)). lra.
Qed.

Lemma rounds_half_even_le (y : Q) (c z : Z) :
  rounds_half_even y c -> (y <= inject_Z z)%Q -> c <= z.
Proof.
  intros (Hlo & Hhi & _) Hz.
  destruct (Z.le_gt_cases c z) as [H|H]; [exact H|exfalso].
  pose proof (inject_Z_succ_le z c ltac:(lia)). lra.
Qed.


(** [c * 10^k] is the positive rational [t] rounded to [prec] significant
    digits, or to the exponent [Etiny] when [t] is subnormal. *)
Definition is_rounding (t : Q) (c k : Z) : Prop :=
  Dec.Etiny <= k /\
  rounds_half_even (t * pow10 (- k)) c /\
  (t < pow10 (Dec.prec + k))%Q /\
  (k = Dec.Etiny \/ (pow10 (Dec.prec - 1 + k) <= t)%Q).

Lemma is_rounding_nonneg (t : Q) (c k : Z) :
  (0 < t)%Q -> is_rounding t c k -> 0 <= c.
Proof.
  intros Ht (_ & Hr & _). apply (rounds_half_even_ge _ _ 0 Hr).
  change (inject_Z 0) with 0%Q. apply Qlt_le_weak, scale_pos, Ht.
Qed.


Lemma is_rounding_lower (t : Q) (c k : Z) :
  is_rounding t c k -> k <> Dec.Etiny -> 10 ^ (Dec.prec - 1) <= c.
Proof.
  intros (_ & Hr & _ & [Hk|Hge]) Hne; [contradiction|].
  apply (rounds_half_even_ge _ _ _ Hr).
  rewrite <- pow10_Z by discriminate. apply scale_le, Hge.
Qed.


(** Rounding does not step over a value that the context can represent. *)
Lemma is_rounding_below (t : Q) (c k cf kf : Z) :
  is_rounding t c k ->
  0 <= cf < 10 ^ Dec.prec -> Dec.Etiny <= kf ->
  (t <= mag cf kf)%Q -> (mag c k <= mag cf kf)%Q.
Proof.
  intros Hr [Hcf0 Hcf] Hkf Hle.
  destruct (Z.le_gt_cases k kf) as [Hk|Hk].
  - replace kf with (k + (kf - k)) in * by lia.
    rewrite <- mag_shift in * by lia.
    apply mag_le. destruct Hr as (_ & Hr & _).
    apply (rounds_half_even_le _ _ _ Hr). now apply scale_le_mag.
  - exfalso. destruct Hr as (Hk0 & _ & _ & [Hk1|Hge]); [lia|].
    assert (Hup : (mag cf kf < pow10 (Dec.prec + kf))%Q).
    { rewrite <- mag_pow10 by discriminate. unfold mag.
      apply Qmult_lt_compat_r; [apply pow10_pos|]. now rewrite Zlt_Qlt in Hcf. }
    assert (Hpow : (pow10 (Dec.prec - 1 + k) < pow10 (Dec.prec + kf))%Q) by lra.
    apply pow10_lt_inv in Hpow. lia.
Qed.

(** ** What [fix_] computes *)

(** [c / M] rounded to an integer, ties to even, on integers. *)
Definition round_int (c M : Z) : Z :=
  let hi := c / M in
  let lo := c mod M in
  if 2 * lo <? M then hi
  else if M <? 2 * lo then hi + 1
  else if Z.even hi then hi else hi + 1.

Lemma round_int_spec (c M' : Z) :
  0 <= c -> 0 < M' ->
  let r := round_int c (10 * M') in
  (2 * r - 1) * (5 * M') <= c <= (2 * r + 1) * (5 * M') /\
  (c = (2 * r - 1) * (5 * M') \/ c = (2 * r + 1) * (5 * M') -> Z.even r = true).
Proof.
  intros Hc HM r. subst r. unfold round_int.
  pose proof (Z.div_mod c (10 * M') ltac:(lia)) as Hdm.
  pose proof (Z.mod_pos_bound c (10 * M') ltac:(lia)) as Hmod.
  set (hi := c / (10 * M')) in *. set (lo := c mod (10 * M')) in *.
  assert (Hc' : c = 10 * (hi * M') + lo) by lia.
  clearbody hi lo. clear Hdm.
  destruct (Z.ltb_spec (2 * lo) (10 * M')) as [H1|H1].
  - split; [nia|]. intros [E|E]; exfalso; nia.
  - destruct (Z.ltb_spec (10 * M') (2 * lo)) as [H2|H2].
    + split; [nia|]. intros [E|E]; exfalso; nia.
    + destruct (Z.even hi) eqn:Heven.
      * split; [nia|]. intros _. exact Heven.
      * split; [nia|]. intros _. rewrite Z.even_add, Heven. reflexivity.
Qed.

Lemma round_int_upper (c M n : Z) :
  0 <= c -> 0 < M -> c < n * M -> round_int c M <= n.
Proof.
  intros Hc HM Hlt. unfold round_int.
  pose proof (Z.div_mod c M ltac:(lia)) as Hdm.
  pose proof (Z.mod_pos_bound c M ltac:(lia)) as Hmod.
  assert (c / M < n) by (apply Z.div_lt_upper_bound; lia).
  repeat match goal with |- context [if ?b then _ else _] => destruct b end; lia.
Qed.

(** The digit of [c] at weight [M'] is the leading digit of [c mod (10 * M')]. *)
Lemma digit_split (c M' : Z) :
  0 <= c -> 0 < M' ->
  c mod (10 * M') = M' * ((c / M') mod 10) + c mod M'.
Proof.
  intros Hc HM. rewrite (Z.mul_comm 10 M').
  rewrite Z.rem_mul_r by lia. lia.
Qed.

Lemma even_mod_10 (n : Z) : Z.even (n mod 10) = Z.even n.
Proof.
  rewrite (Z.div_mod n 10) at 2 by lia.
  rewrite Z.even_add, Z.even_mul. change (Z.even 10) with true.
  now destruct (Z.even (n mod 10)).
Qed.

(** The rounding decision of [fix_], read arithmetically. *)
Lemma round_half_even_arith (c digits : Z) :
  0 < c -> 0 <= digits < Dec.len c ->
  (if 0 <? Dec.round_half_even c digits
   then c / 10 ^ (Dec.len c - digits) + 1
   else c / 10 ^ (Dec.len c - digits)) =
  round_int c (10 ^ (Dec.len c - digits)).
Proof.
  intros Hc Hd.
  destruct (len_spec c Hc) as (HL1 & HLlo & HLhi).
  set (L := Dec.len c) in *.
  unfold Dec.round_half_even, Dec.round_half_up, Dec.exact_half,
    Dec.all_zeros, Dec.digit_at, round_int. fold L.
  replace (L - 1 - digits) with (L - digits - 1) by lia.
  replace (L - 1 - (digits - 1)) with (L - digits) by lia.
  set (m := L - digits) in *.
  assert (Hm : 1 <= m) by lia.
  assert (HM : 10 ^ m = 10 * 10 ^ (m - 1)).
  { rewrite <- Z.pow_succ_r by lia. f_equal. lia. }
  assert (HM' : 0 < 10 ^ (m - 1)) by (apply Z.pow_pos_nonneg; lia).
  set (M' := 10 ^ (m - 1)) in *. rewrite HM.
  pose proof (digit_split c M' ltac:(lia) HM') as Hsplit.
  pose proof (Z.mod_pos_bound c M' HM') as Hlo'.
  pose proof (Z.mod_pos_bound (c / M') 10 ltac:(lia)) as HD.
  pose proof (Z.mod_pos_bound c (10 * M') ltac:(lia)) as Hlo.
  set (D := (c / M') mod 10) in *.
  set (lo := c mod (10 * M')) in *.
  set (lo' := c mod M') in *.
  set (hi := c / (10 * M')).
  assert (Hhi0 : digits = 0 -> hi = 0).
  { intros ->. unfold hi. rewrite <- HM. apply Z.div_small.
    unfold m. replace (L - 0) with L by lia. lia. }
  rewrite even_mod_10. fold hi.
  clearbody D lo lo' hi M'.
  destruct (Z.eqb_spec lo (5 * M')) as [Hhalf|Hhalf]; simpl.
  - assert (HD5 : 5 <= D) by nia.
    destruct (Z.ltb_spec (2 * lo) (10 * M')) as [H1|H1]; [lia|].
    destruct (Z.ltb_spec (10 * M') (2 * lo)) as [H2|H2]; [lia|].
    destruct (Z.eqb_spec digits 0) as [H0|H0]; simpl.
    + rewrite (Hhi0 H0). reflexivity.
    + destruct (Z.even hi); simpl; [reflexivity|].
      destruct (Z.leb_spec 5 D); [reflexivity|lia].
  - destruct (Z.leb_spec 5 D) as [H5|H5]; simpl.
    + destruct (Z.ltb_spec (2 * lo) (10 * M')) as [H1|H1]; [nia|].
      destruct (Z.ltb_spec (10 * M') (2 * lo)) as [H2|H2]; [reflexivity|lia].
    + destruct (Z.ltb_spec (2 * lo) (10 * M')) as [H1|H1]; [|nia].
      destruct (lo =? 0); reflexivity.
Qed.

(** [c] stands for the rational [y] in every comparison with a multiple
    of 5; this holds when [y] is [c], and also when [c] is the truncation
    of [y] with the sticky adjustment of [__truediv__]. *)
Definition sticky (y : Q) (c : Z) : Prop :=
  forall h : Z, h mod 5 = 0 ->
    ((inject_Z h < y)%Q <-> h < c) /\ ((y < inject_Z h)%Q <-> c < h).

Lemma sticky_exact (y : Q) (c : Z) : (y == inject_Z c)%Q -> sticky y c.
Proof.
  intros Hy h _. rewrite Hy, <- !Zlt_Qlt. tauto.
Qed.

Lemma sticky_le_iff (y : Q) (c h : Z) :
  sticky y c -> h mod 5 = 0 ->
  ((inject_Z h <= y)%Q <-> h <= c) /\ ((y <= inject_Z h)%Q <-> c <= h).
Proof.
  intros Hs Hh. destruct (Hs h Hh) as [H1 H2]. split; split; intros H.
  - destruct (Z.le_gt_cases h c) as [|Hgt]; [assumption|].
    apply H2 in Hgt. lra.
  - destruct (Qlt_le_dec y (inject_Z h)) as [Hlt|]; [|assumption].
    apply H2 in Hlt. lia.
  - destruct (Z.le_gt_cases c h) as [|Hgt]; [assumption|].
    apply H1 in Hgt. lra.
  - destruct (Qlt_le_dec (inject_Z h) y) as [Hlt|]; [|assumption].
    apply H1 in Hlt. lia.
Qed.

Lemma sticky_round (y : Q) (c m : Z) :
  sticky y c -> 0 <= c -> 1 <= m ->
  rounds_half_even (y * pow10 (- m)) (round_int c (10 ^ m)).
Proof.
  intros Hs Hc Hm.
  assert (HM : 10 ^ m = 10 * 10 ^ (m - 1)).
  { rewrite <- Z.pow_succ_r by lia. f_equal. lia. }
  assert (HM' : 0 < 10 ^ (m - 1)) by (apply Z.pow_pos_nonneg; lia).
  set (M' := 10 ^ (m - 1)) in *.
  pose proof (round_int_spec c M' Hc HM') as Hspec. cbv zeta in Hspec.
  rewrite HM. set (r := round_int c (10 * M')) in *.
  destruct Hspec as ((Hlo & Hhi) & Heven).
  set (h1 := (2 * r - 1) * (5 * M')) in *.
  set (h2 := (2 * r + 1) * (5 * M')) in *.
  assert (Hh1 : h1 mod 5 = 0).
  { unfold h1. replace ((2 * r - 1) * (5 * M')) with ((2 * r - 1) * M' * 5) by ring.
    apply Z.mod_mul. lia. }
  assert (Hh2 : h2 mod 5 = 0).
  { unfold h2. replace ((2 * r + 1) * (5 * M')) with ((2 * r + 1) * M' * 5) by ring.
    apply Z.mod_mul. lia. }
  destruct (sticky_le_iff y c h1 Hs Hh1) as [Hge1 _].
  destruct (sticky_le_iff y c h2 Hs Hh2) as [Hge2 Hle2].
  set (Y := (y * pow10 (- m))%Q).
  set (P := inject_Z (5 * M')).
  assert (HP : (0 < P)%Q).
  { unfold P. change 0%Q with (inject_Z 0). rewrite <- Zlt_Qlt. lia. }
  assert (Hy : (y == 2 * Y * P)%Q).
  { unfold Y, P. rewrite inject_Z_mult.
    assert (E : (pow10 m == 10 * inject_Z M')%Q).
    { rewrite pow10_Z by lia. rewrite HM, inject_Z_mult. reflexivity. }
    change (inject_Z 5) with 5%Q.
    transitivity (y * (pow10 m * pow10 (- m)))%Q;
      [rewrite pow10_cancel; ring | rewrite E; ring]. }
  assert (E1 : (inject_Z h1 == (2 * inject_Z r - 1) * P)%Q).
  { unfold h1, P. replace (2 * r - 1) with (2 * r + -1) by lia.
    rewrite !inject_Z_mult, inject_Z_plus, inject_Z_mult.
    change (inject_Z 2) with 2%Q. change (inject_Z (-1)) with (-1)%Q. ring. }
  assert (E2 : (inject_Z h2 == (2 * inject_Z r + 1) * P)%Q).
  { unfold h2, P.
    rewrite !inject_Z_mult, inject_Z_plus, inject_Z_mult.
    change (inject_Z 2) with 2%Q. change (inject_Z 1) with 1%Q. ring. }
  assert (Hq1 : (inject_Z h1 <= y)%Q) by (apply Hge1; exact Hlo).
  assert (Hq2 : (y <= inject_Z h2)%Q) by (apply Hle2; exact Hhi).
  rewrite E1, Hy in Hq1. rewrite E2, Hy in Hq2.
  apply Qmult_le_r in Hq1; [|exact HP]. apply Qmult_le_r in Hq2; [|exact HP].
  split; [exact Hq1|]. split; [exact Hq2|].
  intros Htie. apply Heven.
  destruct Htie as [Htie|Htie]; [left|right].
  - assert (Hyh : (y == inject_Z h1)%Q) by (rewrite E1, Hy, Htie; reflexivity).
    destruct (sticky_le_iff y c h1 Hs Hh1) as [Ha Hb].
    assert (h1 <= c) by (apply Ha; rewrite Hyh; apply Qle_refl).
    assert (c <= h1) by (apply Hb; rewrite Hyh; apply Qle_refl).
    lia.
  - assert (Hyh : (y == inject_Z h2)%Q) by (rewrite E2, Hy, Htie; reflexivity).
    assert (h2 <= c) by (apply Hge2; rewrite Hyh; apply Qle_refl).
    assert (c <= h2) by (apply Hle2; rewrite Hyh; apply Qle_refl).
    lia.
Qed.

Lemma is_zero_from_triple (s : bool) (c e : Z) :
  0 < c -> Dec.is_zero (Dec.dec_from_triple s c e) = false.
Proof.
  intros Hc. unfold Dec.is_zero. rewrite coeff_from_triple by lia.
  apply Z.eqb_neq. lia.
Qed.

(** The three ways [fix_] treats a non-zero coefficient [c0] at exponent
    [e0]: it underflows to zero, it rounds at the exponent
    [k = max (len c0 + e0 - prec) Etiny], or it leaves the operand as it
    is because it already fits. *)
Lemma fix_nonzero_cases (s : bool) (c0 e0 : Z) (u : Decimal) :
  0 < c0 ->
  Dec.fix_ (Dec.dec_from_triple s c0 e0) = Ok u ->
  let L := Dec.len c0 in
  let k := Z.max (L + e0 - Dec.prec) Dec.Etiny in
  (e0 < k /\ L + e0 - k < 0 /\ u = Dec.dec_from_triple s 0 k) \/
  (e0 < k /\ 0 <= L + e0 - k /\
   let r := round_int c0 (10 ^ (k - e0)) in
   (r = 10 ^ Dec.prec /\ u = Dec.dec_from_triple s (10 ^ (Dec.prec - 1)) (k + 1)) \/
   (r < 10 ^ Dec.prec /\ u = Dec.dec_from_triple s r k)) \/
  (k <= e0 /\ u = Dec.dec_from_triple s c0 e0).
Proof.
  intros Hc Hfix L k.
  destruct (len_spec c0 Hc) as (HL1 & HLlo & HLhi). fold L in HL1, HLlo, HLhi.
  unfold Dec.fix_ in Hfix.
  rewrite is_zero_from_triple in Hfix by exact Hc.
  rewrite coeff_from_triple in Hfix by lia.
  cbn [Dec.d_exp Dec.d_sign Dec.dec_from_triple] in Hfix. fold L in Hfix.
  destruct (Z.ltb_spec Dec.Etop (L + e0 - Dec.prec)) as [|Hov]; [discriminate|].
  assert (Hk : (if L + e0 - Dec.prec <? Dec.Etiny then Dec.Etiny
                else L + e0 - Dec.prec) = k).
  { unfold k. destruct (Z.ltb_spec (L + e0 - Dec.prec) Dec.Etiny); lia. }
  rewrite Hk in Hfix.
  assert (Hkge : L + e0 - Dec.prec <= k) by (unfold k; lia).
  destruct (Z.ltb_spec e0 k) as [Hlt|Hge].
  - destruct (Z.ltb_spec (L + e0 - k) 0) as [Hneg|Hnn].
    + left. split; [exact Hlt|]. split; [exact Hneg|].
      change (Dec.len 1) with 1 in Hfix.
      change (Dec.round_half_even 1 0) with (-1) in Hfix.
      change (1 / 10 ^ (1 - 0)) with 0 in Hfix.
      cbn [Z.ltb Z.compare andb] in Hfix.
      destruct (Dec.Etop <? k); [discriminate|]. now injection Hfix as <-.
    + right. left. split; [exact Hlt|]. split; [exact Hnn|].
      set (digits := L + e0 - k) in *.
      assert (Hm : L - digits = k - e0) by (unfold digits; lia).
      pose proof (round_half_even_arith c0 digits Hc ltac:(fold L; lia)) as Hr.
      fold L in Hr, Hfix. rewrite Hm in Hr, Hfix.
      set (r := round_int c0 (10 ^ (k - e0))) in *.
      assert (Hrup : r <= 10 ^ digits).
      { apply round_int_upper; [lia | apply Z.pow_pos_nonneg; lia |].
        rewrite <- Z.pow_add_r by lia.
        replace (digits + (k - e0)) with L by lia. lia. }
      assert (Hdp : 10 ^ digits <= 10 ^ Dec.prec)
        by (apply Z.pow_le_mono_r; unfold digits; lia).
      assert (Hkept : 0 <= c0 / 10 ^ (k - e0)).
      { apply Z.div_pos; [lia | apply Z.pow_pos_nonneg; lia]. }
      assert (Hkept' : c0 / 10 ^ (k - e0) < 10 ^ digits).
      { apply Z.div_lt_upper_bound; [apply Z.pow_pos_nonneg; lia|].
        rewrite <- Z.pow_add_r by lia.
        replace (k - e0 + digits) with L by lia. lia. }
      cbv zeta. fold r.
      destruct (0 <? Dec.round_half_even c0 digits); cbn [andb] in Hfix.
      * destruct (Z.ltb_spec Dec.prec (Dec.len (c0 / 10 ^ (k - e0) + 1)))
          as [Hbump|Hfit].
        -- left. rewrite Hr in *.
           assert (Hr10 : 10 ^ Dec.prec <= r).
           { destruct (len_spec r ltac:(lia)) as (_ & Hlo & _).
             eapply Z.le_trans; [|exact Hlo]. apply Z.pow_le_mono_r; lia. }
           assert (Hreq : r = 10 ^ Dec.prec) by lia.
           split; [exact Hreq|].
           destruct (Dec.Etop <? k + 1); [discriminate|].
           injection Hfix as <-. rewrite Hreq. reflexivity.
        -- right. rewrite Hr in *.
           assert (Hrlt : r < 10 ^ Dec.prec).
           { destruct (len_spec r ltac:(lia)) as (_ & _ & Hhi).
             eapply Z.lt_le_trans; [exact Hhi|]. apply Z.pow_le_mono_r; lia. }
           split; [exact Hrlt|].
           destruct (Dec.Etop <? k); [discriminate|]. now injection Hfix as <-.
      * right. rewrite Hr in *. split; [lia|].
        destruct (Dec.Etop <? k); [discriminate|]. now injection Hfix as <-.
  - right. right. split; [exact Hge|]. now injection Hfix as <-.
Qed.

Lemma unscale (t : Q) (k : Z) : (t * pow10 (- k) * pow10 k == t)%Q.
Proof.
  rewrite <- Qmult_assoc, (Qmult_comm (pow10 (- k))), pow10_cancel. ring.
Qed.

Lemma scale_up_le (x t : Q) (k : Z) :
  (x <= t * pow10 (- k) <-> x * pow10 k <= t)%Q.
Proof.
  rewrite <- (Qmult_le_r x (t * pow10 (- k)) (pow10 k)) by apply pow10_pos.
  now rewrite unscale.
Qed.

Lemma scale_up_lt (x t : Q) (k : Z) :
  (t * pow10 (- k) < x <-> t < x * pow10 k)%Q.
Proof.
  rewrite <- (Qmult_lt_r (t * pow10 (- k)) x (pow10 k)) by apply pow10_pos.
  now rewrite unscale.
Qed.

Lemma rounds_half_even_ext (y y' : Q) (c : Z) :
  (y == y')%Q -> rounds_half_even y c -> rounds_half_even y' c.
Proof.
  intros E (Hlo & Hhi & Heven). repeat split; try lra.
  intros [H|H]; apply Heven; [left|right]; lra.
Qed.

Lemma pow10_mod5 (n : Z) : 1 <= n -> 10 ^ n mod 5 = 0.
Proof.
  intros Hn. replace n with (Z.succ (n - 1)) by lia.
  rewrite Z.pow_succ_r by lia.
  replace (10 * 10 ^ (n - 1)) with (2 * 10 ^ (n - 1) * 5) by ring.
  apply Z.mod_mul. lia.
Qed.

Lemma pow10_shift (t : Q) (a b : Z) :
  (t * pow10 (- a) * pow10 (- b) == t * pow10 (- (a + b)))%Q.
Proof.
  replace (- (a + b)) with (- a + - b) by lia. rewrite pow10_add. ring.
Qed.

(** [fix_] rounds correctly: applied to a coefficient that stands for the
    positive rational [t] at its exponent, it returns [t] rounded to the
    context. *)
Lemma fix_spec (s : bool) (c0 e0 : Z) (t : Q) (u : Decimal) :
  0 < c0 ->
  sticky (t * pow10 (- e0)) c0 ->
  (t == mag c0 e0)%Q \/ Dec.prec < Dec.len c0 ->
  Dec.fix_ (Dec.dec_from_triple s c0 e0) = Ok u ->
  exists c k,
    is_rounding t c k /\ Dec.d_sign u = s /\
    (mag (Dec.coeff u) (Dec.d_exp u) == mag c k)%Q.
Proof.
  intros Hc Hst Hex Hfix.
  destruct (len_spec c0 Hc) as (HL1 & HLlo & HLhi).
  pose proof (fix_nonzero_cases s c0 e0 u Hc Hfix) as Hcases.
  cbv zeta in Hcases.
  set (L := Dec.len c0) in *.
  set (k := Z.max (L + e0 - Dec.prec) Dec.Etiny) in *.
  assert (Hk0 : Dec.Etiny <= k) by (unfold k; lia).
  assert (Hk1 : L + e0 - Dec.prec <= k) by (unfold k; lia).
  assert (F1 : (t < pow10 (L + e0))%Q).
  { rewrite <- mag_pow10 by lia. unfold mag. apply scale_up_lt.
    apply (Hst (10 ^ L)); [apply pow10_mod5; lia | exact HLhi]. }
  assert (F2 : (pow10 (L - 1 + e0) <= t)%Q).
  { rewrite <- mag_pow10 by lia. destruct Hex as [Hex|Hex].
    - rewrite Hex. now apply mag_le.
    - unfold mag. apply scale_up_le.
      apply (sticky_le_iff _ c0 (10 ^ (L - 1)) Hst);
        [apply pow10_mod5; unfold Dec.prec in Hex; lia | exact HLlo]. }
  assert (Hup : (t < pow10 (Dec.prec + k))%Q).
  { eapply Qlt_le_trans; [exact F1|]. apply pow10_le. lia. }
  assert (Hlow : k = Dec.Etiny \/ (pow10 (Dec.prec - 1 + k) <= t)%Q).
  { destruct (Z.eq_dec k Dec.Etiny) as [E|E]; [now left|right].
    replace (Dec.prec - 1 + k) with (L - 1 + e0) by (unfold k in *; lia).
    exact F2. }
  assert (Hpos : (0 < t)%Q).
  { eapply Qlt_le_trans; [apply (pow10_pos (L - 1 + e0)) | exact F2]. }
  destruct Hcases as [(Hlt & Hneg & ->) | [(Hlt & Hnn & Hr) | (Hge & ->)]].
  - exists 0, k. split; [|split; [reflexivity|]].
    + split; [exact Hk0|]. split; [|split; [exact Hup | exact Hlow]].
      assert (Hsmall : (t * pow10 (- k) < pow10 (-1))%Q).
      { apply scale_lt. eapply Qlt_le_trans; [exact F1|]. apply pow10_le. lia. }
      assert (Htenth : (pow10 (-1) == 1 # 10)%Q) by reflexivity.
      pose proof (scale_pos t k Hpos) as Hy.
      unfold rounds_half_even. change (inject_Z 0) with 0%Q.
      repeat split; lra.
    + rewrite coeff_from_triple by lia. reflexivity.
  - set (r := round_int c0 (10 ^ (k - e0))) in *.
    assert (Hround : is_rounding t r k).
    { split; [exact Hk0|]. split; [|split; [exact Hup | exact Hlow]].
      apply (rounds_half_even_ext (t * pow10 (- e0) * pow10 (- (k - e0)))).
      - rewrite pow10_shift. replace (e0 + (k - e0)) with k by lia. reflexivity.
      - apply sticky_round; [exact Hst | lia | lia]. }
    pose proof (is_rounding_nonneg t r k Hpos Hround) as Hr0.
    destruct Hr as [(Hr10 & ->) | (Hrlt & ->)].
    + exists r, k. split; [exact Hround|]. split; [reflexivity|].
      rewrite coeff_from_triple by (apply Z.pow_nonneg; lia).
      cbn [Dec.d_exp Dec.dec_from_triple]. rewrite Hr10.
      change (10 ^ Dec.prec) with (10 ^ (Dec.prec - 1) * 10 ^ 1).
      now rewrite mag_shift by lia.
    + exists r, k. split; [exact Hround|]. split; [reflexivity|].
      rewrite coeff_from_triple by lia. reflexivity.
  - assert (Hexact : (t == mag c0 e0)%Q).
    { destruct Hex as [Hex|Hex]; [exact Hex|]. fold L in Hex. lia. }
    exists (c0 * 10 ^ (e0 - k)), k.
    assert (Hmag : (mag (c0 * 10 ^ (e0 - k)) k == mag c0 e0)%Q).
    { rewrite mag_shift by lia. replace (k + (e0 - k)) with e0 by lia. reflexivity. }
    split; [|split; [reflexivity|]].
    + split; [exact Hk0|]. split; [|split; [exact Hup | exact Hlow]].
      apply rounds_half_even_exact.
      rewrite Hexact, <- Hmag. unfold mag.
      rewrite <- Qmult_assoc, pow10_cancel. ring.
    + rewrite coeff_from_triple by lia. cbn [Dec.d_exp Dec.dec_from_triple].
      now rewrite Hmag.
Qed.

(** What [fix_] returns fits the context: at most [prec] digits, exponent
    at least [Etiny]. *)
Definition representable (u : Decimal) : Prop :=
  0 <= Dec.coeff u < 10 ^ Dec.prec /\ Dec.Etiny <= Dec.d_exp u.

Lemma triple_coeff (d : Decimal) :
  Dec.dec_from_triple (Dec.d_sign d) (Dec.coeff d) (Dec.d_exp d) = d.
Proof.
  destruct d as [s n e]. unfold Dec.dec_from_triple, Dec.coeff. simpl.
  now rewrite N2Z.id.
Qed.

Lemma round_int_nonneg (c M : Z) : 0 <= c -> 0 < M -> 0 <= round_int c M.
Proof.
  intros Hc HM. unfold round_int.
  assert (0 <= c / M) by (apply Z.div_pos; lia).
  repeat match goal with |- context [if ?b then _ else _] => destruct b end; lia.
Qed.

Lemma fix_representable (d u : Decimal) :
  Dec.fix_ d = Ok u -> representable u.
Proof.
  intros Hfix. pose proof (coeff_nonneg d) as Hnn.
  destruct (Z.eq_dec (Dec.coeff d) 0) as [Hz|Hnz].
  - unfold Dec.fix_, Dec.is_zero in Hfix. rewrite Hz in Hfix. simpl in Hfix.
    injection Hfix as <-. unfold representable.
    rewrite coeff_from_triple by lia. cbn [Dec.d_exp Dec.dec_from_triple].
    split; [split; [lia | reflexivity] |].
    unfold Dec.Etiny, Dec.Emin, Dec.Emax, Dec.prec. lia.
  - rewrite <- (triple_coeff d) in Hfix.
    assert (Hpos : 0 < Dec.coeff d) by lia.
    pose proof (fix_nonzero_cases _ _ _ _ Hpos Hfix) as Hcases.
    cbv zeta in Hcases.
    destruct (len_spec (Dec.coeff d) ltac:(lia)) as (HL1 & HLlo & HLhi).
    set (L := Dec.len (Dec.coeff d)) in *.
    set (k := Z.max (L + Dec.d_exp d - Dec.prec) Dec.Etiny) in *.
    assert (Hk0 : Dec.Etiny <= k) by (unfold k; lia).
    unfold representable.
    destruct Hcases as [(_ & _ & ->) | [(Hlt & _ & Hr) | (Hge & ->)]].
    + rewrite coeff_from_triple by lia. cbn [Dec.d_exp Dec.dec_from_triple].
      split; [split; [lia | reflexivity] | lia].
    + destruct Hr as [(_ & ->) | (Hrlt & ->)].
      * rewrite coeff_from_triple by (apply Z.pow_nonneg; lia).
        cbn [Dec.d_exp Dec.dec_from_triple].
        split; [split; [apply Z.pow_nonneg; lia | reflexivity] | lia].
      * assert (Hr0 : 0 <= round_int (Dec.coeff d) (10 ^ (k - Dec.d_exp d))).
        { apply round_int_nonneg; [lia | apply Z.pow_pos_nonneg; lia]. }
        rewrite coeff_from_triple by exact Hr0.
        cbn [Dec.d_exp Dec.dec_from_triple]. split; [split|]; lia.
    + rewrite coeff_from_triple by lia. cbn [Dec.d_exp Dec.dec_from_triple].
      split; [split; [lia|] | lia].
      eapply Z.lt_le_trans; [exact HLhi|].
      apply Z.pow_le_mono_r; [lia | unfold k in Hge; lia].
Qed.

Lemma mul_representable (a b u : Decimal) :
  Dec.mul a b = Ok u -> representable u.
Proof.
  unfold Dec.mul. intros H.
  repeat match type of H with
         | (if ?c then _ else _) = _ => destruct c
         end; now apply fix_representable in H.
Qed.

Lemma strip_to_ideal_value (fuel : nat) (c e ideal c' e' : Z) :
  0 < c ->
  Dec.strip_to_ideal fuel c e ideal = (c', e') ->
  0 < c' /\ (mag c' e' == mag c e)%Q.
Proof.
  revert c e. induction fuel as [|fuel IH]; intros c e Hc Hs; simpl in Hs.
  - injection Hs as <- <-. split; [exact Hc | reflexivity].
  - destruct (Z.ltb_spec e ideal) as [Hlt|Hge]; simpl in Hs.
    + destruct (Z.eqb_spec (c mod 10) 0) as [Hmod|Hmod].
      * assert (Hc10 : c = c / 10 * 10 ^ 1).
        { pose proof (Z.div_mod c 10 ltac:(lia)). change (10 ^ 1) with 10. lia. }
        assert (Hpos : 0 < c / 10) by (change (10 ^ 1) with 10 in Hc10; lia).
        destruct (IH (c / 10) (e + 1) Hpos Hs) as [Hc' Hmag].
        split; [exact Hc'|]. rewrite Hmag.
        rewrite <- (mag_shift (c / 10) e 1) by lia. now rewrite <- Hc10.
      * injection Hs as <- <-. split; [exact Hc | reflexivity].
    + injection Hs as <- <-. split; [exact Hc | reflexivity].
Qed.

(** The scaled operands of [__truediv__]: their integer quotient has more
    than [prec] digits. *)
Lemma div_scaled_bound (ca cb : Z) :
  0 < ca -> 0 < cb ->
  let shift := Dec.len cb - Dec.len ca + Dec.prec + 1 in
  let n := if 0 <=? shift then ca * 10 ^ shift else ca in
  let m := if 0 <=? shift then cb else cb * 10 ^ (- shift) in
  0 < m /\ 10 ^ Dec.prec * m <= n.
Proof.
  intros Ha Hb shift n m.
  destruct (len_spec ca Ha) as (HLa & Halo & Hahi).
  destruct (len_spec cb Hb) as (HLb & Hblo & Hbhi).
  set (La := Dec.len ca) in *. set (Lb := Dec.len cb) in *.
  subst n m. destruct (Z.leb_spec 0 shift) as [Hs|Hs].
  - split; [lia|].
    assert (E : 10 ^ (La - 1) * 10 ^ shift = 10 ^ Dec.prec * 10 ^ Lb).
    { rewrite <- !Z.pow_add_r by (unfold Dec.prec; lia). f_equal.
      unfold shift. lia. }
    pose proof (Z.pow_pos_nonneg 10 shift ltac:(lia) Hs).
    pose proof (Z.pow_pos_nonneg 10 Dec.prec ltac:(lia) ltac:(discriminate)).
    nia.
  - pose proof (Z.pow_pos_nonneg 10 (- shift) ltac:(lia) ltac:(lia)) as Hp.
    split; [nia|].
    assert (E : 10 ^ (La - 1) = 10 ^ Dec.prec * (10 ^ Lb * 10 ^ (- shift))).
    { rewrite <- !Z.pow_add_r by (unfold Dec.prec; lia). f_equal.
      unfold shift. lia. }
    pose proof (Z.pow_pos_nonneg 10 Dec.prec ltac:(lia) ltac:(discriminate)).
    nia.
Qed.

(** The quotient of the scaled operands is the true quotient at the
    working exponent. *)
Lemma div_scaled_value (ca ea cb eb : Z) (t : Q) :
  0 < ca -> 0 < cb ->
  (t * mag cb eb == mag ca ea)%Q ->
  let shift := Dec.len cb - Dec.len ca + Dec.prec + 1 in
  let n := if 0 <=? shift then ca * 10 ^ shift else ca in
  let m := if 0 <=? shift then cb else cb * 10 ^ (- shift) in
  (inject_Z m * (t * pow10 (- (ea - eb - shift))) == inject_Z n)%Q.
Proof.
  intros Ha Hb Ht shift n m. subst n m. unfold mag in Ht.
  replace (- (ea - eb - shift)) with (shift + - ea + eb) by lia.
  rewrite !pow10_add.
  assert (Hca : (inject_Z ca == t * inject_Z cb * pow10 eb * pow10 (- ea))%Q).
  { transitivity (inject_Z ca * (pow10 ea * pow10 (- ea)))%Q;
      [rewrite pow10_cancel; ring | rewrite Qmult_assoc, <- Ht; ring]. }
  destruct (Z.leb_spec 0 shift) as [Hs|Hs].
  - rewrite inject_Z_mult, <- pow10_Z by lia. rewrite Hca. ring.
  - rewrite inject_Z_mult, <- pow10_Z by lia. rewrite Hca.
    transitivity (t * inject_Z cb * pow10 eb * pow10 (- ea) *
                  (pow10 shift * pow10 (- shift)))%Q;
      [ring | rewrite pow10_cancel; ring].
Qed.

Lemma sticky_truncation (y : Q) (n m : Z) :
  0 < m -> n mod m <> 0 ->
  (inject_Z m * y == inject_Z n)%Q ->
  sticky y (if (n / m) mod 5 =? 0 then n / m + 1 else n / m).
Proof.
  intros Hm Hr Hy h Hh.
  pose proof (Z.div_mod n m ltac:(lia)) as Hdm.
  pose proof (Z.mod_pos_bound n m Hm) as Hmod.
  set (q := n / m) in *. set (r := n mod m) in *.
  assert (Hmq : (0 < inject_Z m)%Q).
  { change 0%Q with (inject_Z 0). rewrite <- Zlt_Qlt. exact Hm. }
  assert (Hlt : (inject_Z h < y)%Q <-> m * h < n).
  { rewrite <- (Qmult_lt_l _ _ (inject_Z m)) by exact Hmq.
    now rewrite Hy, <- inject_Z_mult, <- Zlt_Qlt. }
  assert (Hgt : (y < inject_Z h)%Q <-> n < m * h).
  { rewrite <- (Qmult_lt_l _ _ (inject_Z m)) by exact Hmq.
    now rewrite Hy, <- inject_Z_mult, <- Zlt_Qlt. }
  rewrite Hlt, Hgt. clear Hlt Hgt Hy Hmq.
  assert (Hcases : h < q \/ h = q \/ q < h) by lia.
  clearbody q r.
  destruct (Z.eqb_spec (q mod 5) 0) as [H5|H5].
  - destruct Hcases as [Hc|[Hc|Hc]].
    + split; split; intros; nia.
    + subst h. split; split; intros; nia.
    + assert (q + 1 <> h).
      { intros <-. rewrite Z.add_mod, H5 in Hh by lia. discriminate. }
      split; split; intros; nia.
  - destruct Hcases as [Hc|[Hc|Hc]].
    + split; split; intros; nia.
    + subst h. contradiction.
    + split; split; intros; nia.
Qed.

(** [__truediv__] of two positive decimals returns their quotient rounded
    to the context. *)
Lemma div_spec (a b u : Decimal) :
  Dec.d_sign a = false -> Dec.d_sign b = false ->
  0 < Dec.coeff a -> 0 < Dec.coeff b ->
  Dec.div a b = Ok u ->
  exists c k,
    is_rounding (Dec.value a / Dec.value b) c k /\
    (Dec.value u == mag c k)%Q.
Proof.
  intros Hsa Hsb Ha Hb Hdiv.
  set (t := (Dec.value a / Dec.value b)%Q).
  assert (Hbq : (0 < mag (Dec.coeff b) (Dec.d_exp b))%Q) by now apply mag_pos.
  assert (Ht : (t * mag (Dec.coeff b) (Dec.d_exp b)
                == mag (Dec.coeff a) (Dec.d_exp a))%Q).
  { unfold t. rewrite (value_mag a Hsa), (value_mag b Hsb). field. lra. }
  pose proof (div_scaled_bound _ _ Ha Hb) as Hbound.
  pose proof (div_scaled_value _ (Dec.d_exp a) _ (Dec.d_exp b) t Ha Hb Ht) as Hval.
  cbv zeta in Hbound, Hval.
  unfold Dec.div in Hdiv. rewrite Hsa, Hsb in Hdiv.
  unfold Dec.is_zero in Hdiv.
  rewrite (proj2 (Z.eqb_neq _ 0)) in Hdiv by lia.
  rewrite (proj2 (Z.eqb_neq _ 0)) in Hdiv by lia.
  cbv zeta in Hdiv. cbn [xorb] in Hdiv.
  set (shift := Dec.len (Dec.coeff b) - Dec.len (Dec.coeff a) + Dec.prec + 1) in *.
  set (e := Dec.d_exp a - Dec.d_exp b - shift) in *.
  set (n := if 0 <=? shift then Dec.coeff a * 10 ^ shift else Dec.coeff a) in *.
  set (m := if 0 <=? shift then Dec.coeff b
            else Dec.coeff b * 10 ^ (- shift)) in *.
  destruct Hbound as [Hm Hnm].
  assert (Hq : 10 ^ Dec.prec <= n / m).
  { apply Z.div_le_lower_bound; [exact Hm|]. lia. }
  assert (Hmq : (0 < inject_Z m)%Q).
  { change 0%Q with (inject_Z 0). rewrite <- Zlt_Qlt. exact Hm. }
  destruct (Z.eqb_spec (n mod m) 0) as [Hr|Hr].
  - destruct (Dec.strip_to_ideal _ _ _ _) as [q' e'] eqn:Hstrip.
    assert (Hq0 : 0 < n / m).
    { pose proof (Z.pow_pos_nonneg 10 Dec.prec ltac:(lia) ltac:(discriminate)). lia. }
    destruct (strip_to_ideal_value _ _ _ _ _ _ Hq0 Hstrip) as [Hq' Hmag].
    assert (Hn : n = m * (n / m)).
    { pose proof (Z.div_mod n m ltac:(lia)). lia. }
    assert (Hy : (t * pow10 (- e) == inject_Z (n / m))%Q).
    { apply (Qmult_inj_l _ _ (inject_Z m)); [lra|].
      rewrite Hval, Hn at 1. now rewrite inject_Z_mult. }
    assert (Hexact : (t == mag q' e')%Q).
    { rewrite Hmag. unfold mag. rewrite <- Hy. now rewrite unscale. }
    destruct (fix_spec false q' e' t u Hq') as (c & k & Hround & Hs & Hu).
    + apply sticky_exact. rewrite Hexact. unfold mag.
      rewrite <- Qmult_assoc, pow10_cancel. ring.
    + left. exact Hexact.
    + exact Hdiv.
    + exists c, k. split; [exact Hround|]. rewrite <- Hu. now apply value_mag.
  - set (c0 := if (n / m) mod 5 =? 0 then n / m + 1 else n / m) in *.
    assert (Hc0 : n / m <= c0) by (unfold c0; destruct (_ =? 0); lia).
    assert (Hc0pos : 0 < c0).
    { pose proof (Z.pow_pos_nonneg 10 Dec.prec ltac:(lia) ltac:(discriminate)). lia. }
    destruct (fix_spec false c0 e t u Hc0pos) as (c & k & Hround & Hs & Hu).
    + now apply sticky_truncation.
    + right. apply len_lower; [discriminate | lia].
    + exact Hdiv.
    + exists c, k. split; [exact Hround|]. rewrite <- Hu. now apply value_mag.
Qed.

(** ** Comparisons *)

Lemma mag_lt (c1 c2 k : Z) : c1 < c2 -> (mag c1 k < mag c2 k)%Q.
Proof.
  intros H. unfold mag. apply Qmult_lt_compat_r; [apply pow10_pos|].
  now rewrite <- Zlt_Qlt.
Qed.

Lemma mag_lt_adjusted (c1 e1 c2 e2 : Z) :
  0 < c1 -> 0 < c2 ->
  e1 + Dec.len c1 - 1 < e2 + Dec.len c2 - 1 ->
  (mag c1 e1 < mag c2 e2)%Q.
Proof.
  intros H1 H2 Hadj.
  destruct (len_spec c1 H1) as (HL1 & _ & Hhi).
  destruct (len_spec c2 H2) as (HL2 & Hlo & _).
  eapply Qlt_le_trans; [apply mag_lt, Hhi|].
  eapply Qle_trans; [|apply mag_le, Hlo].
  rewrite !mag_pow10 by lia. apply pow10_le. lia.
Qed.

Lemma value_sign_cases (d : Decimal) :
  0 < Dec.coeff d ->
  (Dec.d_sign d = false /\
   (Dec.value d == mag (Dec.coeff d) (Dec.d_exp d))%Q /\ (0 < Dec.value d)%Q) \/
  (Dec.d_sign d = true /\
   (Dec.value d == - mag (Dec.coeff d) (Dec.d_exp d))%Q /\ (Dec.value d < 0)%Q).
Proof.
  intros Hc. pose proof (mag_pos _ (Dec.d_exp d) Hc) as Hm.
  destruct (Dec.d_sign d) eqn:Hs; [right|left]; split; try reflexivity.
  - rewrite (value_neg d Hs). split; [reflexivity | lra].
  - rewrite (value_mag d Hs). split; [reflexivity | lra].
Qed.

(** [cmp] is the sign of the difference of the values. *)
Lemma cmp_spec (a b : Decimal) :
  (Dec.cmp a b = -1 /\ (Dec.value a < Dec.value b)%Q) \/
  (Dec.cmp a b = 0 /\ (Dec.value a == Dec.value b)%Q) \/
  (Dec.cmp a b = 1 /\ (Dec.value b < Dec.value a)%Q).
Proof.
  unfold Dec.cmp.
  pose proof (coeff_nonneg a) as Hna. pose proof (coeff_nonneg b) as Hnb.
  destruct (Dec.is_zero a) eqn:Hza; destruct (Dec.is_zero b) eqn:Hzb.
  - right; left. split; [reflexivity|]. now rewrite !value_zero.
  - rewrite (value_zero a Hza).
    unfold Dec.is_zero in Hzb. apply Z.eqb_neq in Hzb.
    destruct (value_sign_cases b ltac:(lia)) as [(-> & _ & H)|(-> & _ & H)];
      simpl; [left | right; right]; auto.
  - rewrite (value_zero b Hzb).
    unfold Dec.is_zero in Hza. apply Z.eqb_neq in Hza.
    destruct (value_sign_cases a ltac:(lia)) as [(-> & _ & H)|(-> & _ & H)];
      simpl; [right; right | left]; auto.
  - unfold Dec.is_zero in Hza, Hzb. apply Z.eqb_neq in Hza, Hzb.
    assert (Ha : 0 < Dec.coeff a) by lia. assert (Hb : 0 < Dec.coeff b) by lia.
    pose proof (mag_pos _ (Dec.d_exp a) Ha) as Hma.
    pose proof (mag_pos _ (Dec.d_exp b) Hb) as Hmb.
    assert (Hmag :
      let pa := Dec.coeff a * 10 ^ Z.max 0 (Dec.d_exp a - Dec.d_exp b) in
      let pb := Dec.coeff b * 10 ^ Z.max 0 (Dec.d_exp b - Dec.d_exp a) in
      let A := mag (Dec.coeff a) (Dec.d_exp a) in
      let B := mag (Dec.coeff b) (Dec.d_exp b) in
      ((if Dec.adjusted a =? Dec.adjusted b
        then if pa =? pb then 0 else if pa <? pb then -1 else 1
        else if Dec.adjusted b <? Dec.adjusted a then 1 else -1) = -1 /\ (A < B)%Q) \/
      ((if Dec.adjusted a =? Dec.adjusted b
        then if pa =? pb then 0 else if pa <? pb then -1 else 1
        else if Dec.adjusted b <? Dec.adjusted a then 1 else -1) = 0 /\ (A == B)%Q) \/
      ((if Dec.adjusted a =? Dec.adjusted b
        then if pa =? pb then 0 else if pa <? pb then -1 else 1
        else if Dec.adjusted b <? Dec.adjusted a then 1 else -1) = 1 /\ (B < A)%Q)).
    { intros pa pb A B. unfold Dec.adjusted.
      destruct (Z.eqb_spec (Dec.d_exp a + Dec.len (Dec.coeff a) - 1)
                           (Dec.d_exp b + Dec.len (Dec.coeff b) - 1)) as [Hadj|Hadj].
      - set (E := Z.min (Dec.d_exp a) (Dec.d_exp b)).
        assert (HA : (A == mag pa E)%Q).
        { unfold A, pa. rewrite mag_shift by lia. f_equiv. unfold E. lia. }
        assert (HB : (B == mag pb E)%Q).
        { unfold B, pb. rewrite mag_shift by lia. f_equiv. unfold E. lia. }
        rewrite HA, HB.
        destruct (Z.eqb_spec pa pb) as [Heq|Hne].
        + right; left. split; [reflexivity|]. now rewrite Heq.
        + destruct (Z.ltb_spec pa pb) as [Hlt|Hge].
          * left. split; [reflexivity|]. now apply mag_lt.
          * right; right. split; [reflexivity|]. apply mag_lt. lia.
      - destruct (Z.ltb_spec (Dec.d_exp b + Dec.len (Dec.coeff b) - 1)
                             (Dec.d_exp a + Dec.len (Dec.coeff a) - 1)) as [Hlt|Hge].
        + right; right. split; [reflexivity|]. now apply mag_lt_adjusted.
        + left. split; [reflexivity|]. apply mag_lt_adjusted; [assumption..|lia]. }
    cbv zeta in Hmag.
    destruct (value_sign_cases a Ha) as [(Hsa & Hva & Hpa)|(Hsa & Hva & Hpa)];
      destruct (value_sign_cases b Hb) as [(Hsb & Hvb & Hpb)|(Hsb & Hvb & Hpb)];
      rewrite Hsa, Hsb; cbn [negb andb Dec.signed].
    + rewrite Hva, Hvb.
      destruct (_ =? _); [destruct (_ =? _); [|destruct (_ <? _)] | destruct (_ <? _)];
        simpl in *; exact Hmag.
    + right; right. split; [reflexivity | lra].
    + left. split; [reflexivity | lra].
    + rewrite Hva, Hvb.
      destruct (_ =? _); [destruct (_ =? _); [|destruct (_ <? _)] | destruct (_ <? _)];
        simpl in *;
        destruct Hmag as [[H1 H2]|[[H1 H2]|[H1 H2]]]; try discriminate;
        first [ left; split; [reflexivity | lra]
              | right; left; split; [reflexivity | lra]
              | right; right; split; [reflexivity | lra] ].
Qed.

Lemma le_spec (a b : Decimal) :
  Dec.le a b = true <-> (Dec.value a <= Dec.value b)%Q.
Proof.
  unfold Dec.le.
  destruct (cmp_spec a b) as [[-> H]|[[-> H]|[-> H]]]; simpl;
    split; intros; try reflexivity; try discriminate; lra.
Qed.


(** ** Equal reserves: monotonicity and the effect of the fee *)

Lemma div_zero_numerator (a b u : Decimal) :
  Dec.is_zero a = true -> Dec.div a b = Ok u -> (Dec.value u == 0)%Q.
Proof.
  intros Ha Hdiv. unfold Dec.div in Hdiv. rewrite Ha in Hdiv.
  destruct (Dec.is_zero b); [discriminate|].
  unfold Dec.fix_ in Hdiv. unfold Dec.is_zero at 1 in Hdiv.
  rewrite coeff_from_triple in Hdiv by lia. simpl in Hdiv.
  injection Hdiv as <-. apply value_zero. unfold Dec.is_zero.
  now rewrite coeff_from_triple by lia.
Qed.

(** The quotient of a non-negative by a non-negative decimal, when
    [__truediv__] returns one. *)
Lemma div_nonneg (a b u : Decimal) :
  (0 <= Dec.value a)%Q -> (0 <= Dec.value b)%Q ->
  Dec.div a b = Ok u ->
  (0 < Dec.value b)%Q /\
  (((Dec.value a == 0)%Q /\ (Dec.value u == 0)%Q) \/
   ((0 < Dec.value a)%Q /\
    exists c k, is_rounding (Dec.value a / Dec.value b) c k /\
                (Dec.value u == mag c k)%Q)).
Proof.
  intros Ha Hb Hdiv.
  assert (Hbpos : (0 < Dec.value b)%Q).
  { destruct (Qlt_le_dec 0 (Dec.value b)) as [H|H]; [exact H|exfalso].
    assert (Hz : (Dec.value b == 0)%Q) by lra.
    apply value_zero_inv in Hz. unfold Dec.div in Hdiv. rewrite Hz in Hdiv.
    destruct (Dec.is_zero a); discriminate. }
  split; [exact Hbpos|].
  destruct (Qlt_le_dec 0 (Dec.value a)) as [Hapos|Hazero].
  - right. split; [exact Hapos|].
    destruct (value_pos_inv a Hapos) as [Hsa Hca].
    destruct (value_pos_inv b Hbpos) as [Hsb Hcb].
    now apply div_spec.
  - left. assert (Hz : (Dec.value a == 0)%Q) by lra.
    split; [exact Hz|]. apply value_zero_inv in Hz.
    now apply (div_zero_numerator a b).
Qed.

(** No step of [simulate_swap] before the final division is rounded. *)
Definition exact_steps (amount_in fee_rate reserve_in reserve_out : Decimal)
  : Prop :=
  exists one_minus_fee amount_after_fee numerator divisor,
    Dec.sub (Dec.of_int 1) fee_rate = Ok one_minus_fee /\
    (Dec.value one_minus_fee == 1 - Dec.value fee_rate)%Q /\
    Dec.mul amount_in one_minus_fee = Ok amount_after_fee /\
    (Dec.value amount_after_fee
     == Dec.value amount_in * Dec.value one_minus_fee)%Q /\
    Dec.mul amount_after_fee reserve_out = Ok numerator /\
    (Dec.value numerator
     == Dec.value amount_after_fee * Dec.value reserve_out)%Q /\
    Dec.add reserve_in amount_after_fee = Ok divisor /\
    (Dec.value divisor
     == Dec.value reserve_in + Dec.value amount_after_fee)%Q.

(** With exact steps, the result is the division of the exact numerator
    by the exact divisor, and the amount after the fee fits the context. *)
Lemma simulate_swap_exact (amount_in : Decimal) (pool : Pool)
    (input_token : string) (reserve_in reserve_out u : Decimal) :
  reserves pool input_token = Some (reserve_in, reserve_out) ->
  exact_steps amount_in (fee_rate pool) reserve_in reserve_out ->
  simulate_swap amount_in pool input_token = Ok u ->
  exists aaf n d,
    (Dec.value aaf
     == Dec.value amount_in * (1 - Dec.value (fee_rate pool)))%Q /\
    (Dec.value n == Dec.value aaf * Dec.value reserve_out)%Q /\
    (Dec.value d == Dec.value reserve_in + Dec.value aaf)%Q /\
    representable aaf /\
    Dec.div n d = Ok u.
Proof.
  intros Hres (g & aaf & n & d & Hg & Vg & Haaf & Vaaf & Hn & Vn & Hd & Vd) Hrun.
  exists aaf, n, d. split; [now rewrite Vaaf, Vg|].
  split; [exact Vn|]. split; [exact Vd|].
  split; [now apply (mul_representable amount_in g)|].
  unfold simulate_swap in Hrun. rewrite Hres in Hrun.
  unfold fee_rate in Hg. rewrite Hg in Hrun. simpl in Hrun.
  rewrite Haaf in Hrun. simpl in Hrun. rewrite Hn, Hd in Hrun. exact Hrun.
Qed.

Lemma value_representable (u : Decimal) :
  (0 < Dec.value u)%Q -> representable u ->
  exists cf kf, 0 <= cf < 10 ^ Dec.prec /\ Dec.Etiny <= kf /\
                (Dec.value u == mag cf kf)%Q.
Proof.
  intros Hpos [Hc Hk]. destruct (value_pos_inv u Hpos) as [Hs _].
  exists (Dec.coeff u), (Dec.d_exp u). split; [exact Hc|]. split; [exact Hk|].
  now apply value_mag.
Qed.

Section EqualReserves.
Variable pool : Pool.
Variable input_token : string.
Variables reserve_in reserve_out : Decimal.
Hypothesis Hres : reserves pool input_token = Some (reserve_in, reserve_out).
Hypothesis Hequal : (Dec.value reserve_in == Dec.value reserve_out)%Q.
Hypothesis Hnonneg : (0 <= Dec.value reserve_in)%Q.


End EqualReserves.


(** * Examples *)

(** A SOL/USDC pool with 1000 of each and no fee, the same pool with a
    fee of 0.3 %, a pool with nothing on the SOL side, and a pool with
    1.4 on each side. *)
Definition sol_usdc : Pool :=
  mkPool "SOL" "USDC" (dec 1000 0) (dec 1000 0) (Some (dec 0 0)) "raydium".
Definition sol_usdc_fee : Pool :=
  mkPool "SOL" "USDC" (dec 1000 0) (dec 1000 0) (Some (dec 3 (-3))) "raydium".
Definition sol_usdc_empty : Pool :=
  mkPool "SOL" "USDC" (dec 0 0) (dec 1000 0) None "raydium".
Definition sol_usdc_small : Pool :=
  mkPool "SOL" "USDC" (dec 14 (-1)) (dec 14 (-1)) (Some (dec 0 0)) "raydium".
Definition ray_bonk : Pool :=
  mkPool "RAY" "BONK" (dec 500 0) (dec 700 0) None "lifinity".

Ltac compute_eq := vm_compute; reflexivity.

(** A zero reserve and a zero amount: the divisor is zero and the call
    raises; it does not return 0. *)
Lemma simulate_swap_zero_divisor_raises :
  swap_divisor (dec 0 0) (fee_rate sol_usdc_empty) (reserve_a sol_usdc_empty)
    = Ok (dec 0 0) /\
  simulate_swap (dec 0 0) sol_usdc_empty "SOL" = Err InvalidOperation /\
  simulate_swap (dec 0 0) sol_usdc_empty "SOL" <> Ok (Dec.of_int 0).
Proof. split; [compute_eq|]. split; [compute_eq | discriminate]. Qed.

(** A fee rate of 2 turns an amount of 10 into an amount after the fee of
    -10, which cancels the input reserve of 10: the divisor is zero and
    the numerator, -10000, is not. *)
Definition sol_usdc_fee_2 : Pool :=
  mkPool "SOL" "USDC" (dec 10 0) (dec 1000 0) (Some (dec 2 0)) "raydium".

Lemma simulate_swap_division_error_witness :
  simulate_swap (dec 0 0) sol_usdc_empty "SOL" = Err InvalidOperation /\
  simulate_swap (dec 10 0) sol_usdc_fee_2 "SOL" = Err DivisionByZero /\
  (forall u, simulate_swap (dec 0 0) sol_usdc_empty "SOL" <> Ok u).
Proof.
  split; [|split].
  - apply (proj2 (proj1 (simulate_swap_division_error_iff (dec 0 0)
                           sol_usdc_empty "SOL"))).
    exists (dec 0 0), (dec 1000 0), (dec 0 0), (dec 0 0).
    repeat split; compute_eq.
  - apply (proj2 (proj1 (proj2 (simulate_swap_division_error_iff (dec 10 0)
                                  sol_usdc_fee_2 "SOL")))).
    exists (dec 10 0), (dec 1000 0),
           (Dec.dec_from_triple true 10000 0), (dec 0 0).
    repeat split; compute_eq.
  - apply (proj2 (proj2 (proj2 (simulate_swap_division_error_iff (dec 0 0)
                                  sol_usdc_empty "SOL")))).
    exists (dec 0 0), (dec 1000 0), (dec 0 0), (dec 0 0).
    repeat split; compute_eq.
Defined.

(** The dict returned for the three-pool example has no ['amount_in']. *)
Lemma opportunity_without_amount_in :
  exists o,
    find_arbitrage_opportunities (triangle "SOL" "USDC" "RAY") "SOL"
      (dec 10 0) (dec 0 0) = Ok [o] /\
    o !! "amount_in" = None.
Proof.
  exists (make_opportunity "SOL" "USDC" "RAY" triangle_amt3 triangle_profit).
  split; compute_eq.
Qed.

Lemma triangle_run :
  find_arbitrage_opportunities (triangle "SOL" "USDC" "RAY") "SOL"
    (dec 10 0) (dec 0 0)
  = Ok [make_opportunity "SOL" "USDC" "RAY" triangle_amt3 triangle_profit].
Proof. compute_eq. Defined.

Lemma opportunity_keys_witness :
  dom (make_opportunity "SOL" "USDC" "RAY" triangle_amt3 triangle_profit)
    = ({["path"; "amount_out"; "profit"]} : gset string) /\
  make_opportunity "SOL" "USDC" "RAY" triangle_amt3 triangle_profit
    !! "amount_in" = None.
Proof.
  apply (opportunity_keys (triangle "SOL" "USDC" "RAY") "SOL" (dec 10 0)
           (dec 0 0) _ _ triangle_run).
  apply list_elem_of_here.
Defined.

Lemma simulate_swap_formula_witness :
  simulate_swap (dec 10 0) sol_usdc_fee "USDC" =
  constant_product (dec 10 0) (dec 3 (-3)) (dec 1000 0) (dec 1000 0).
Proof.
  apply (simulate_swap_formula (dec 10 0) sol_usdc_fee "USDC").
  - discriminate.
  - reflexivity.
Defined.

Lemma triangle_one_opportunity_witness :
  exists o amt1 amt2 amt3,
    find_arbitrage_opportunities (triangle "SOL" "USDC" "RAY") "SOL"
      (dec 10 0) (dec 0 0) = Ok [o] /\
    o !! "path" = Some (VList ["SOL"; "USDC"; "RAY"; "SOL"]) /\
    o !! "amount_out" = Some (VDecimal amt3) /\
    o !! "profit" = Some (VDecimal (dec 941747572815533980582524271 (-26))) /\
    dom o = ({["path"; "amount_out"; "profit"]} : gset string) /\
    constant_product (dec 10 0) (dec 0 0) (dec 1000 0) (dec 1000 0) = Ok amt1 /\
    constant_product amt1 (dec 0 0) (dec 1000 0) (dec 1000 0) = Ok amt2 /\
    constant_product amt2 (dec 0 0) (dec 1000 0) (dec 2000 0) = Ok amt3 /\
    amt3 = dec 1941747572815533980582524271 (-26).
Proof.
  apply (triangle_one_opportunity "SOL" "USDC" "RAY"); discriminate.
Defined.

Lemma opportunity_profit_witness :
  exists amount_out profit,
    make_opportunity "SOL" "USDC" "RAY" triangle_amt3 triangle_profit
      !! "amount_out" = Some (VDecimal amount_out) /\
    make_opportunity "SOL" "USDC" "RAY" triangle_amt3 triangle_profit
      !! "profit" = Some (VDecimal profit) /\
    Dec.sub amount_out (dec 10 0) = Ok profit /\
    Dec.ge profit (dec 0 0) = true.
Proof.
  apply (opportunity_profit (triangle "SOL" "USDC" "RAY") "SOL" (dec 10 0)
           (dec 0 0) _ _ triangle_run).
  apply list_elem_of_here.
Defined.

Lemma simulate_swap_unmatched_witness :
  simulate_swap (dec 10 0) sol_usdc "RAY" = Ok (Dec.of_int 0).
Proof.
  apply (simulate_swap_unmatched (dec 10 0) sol_usdc "RAY"); discriminate.
Defined.

Lemma triangle_well_formed (p : Pool) :
  p ∈ triangle "SOL" "USDC" "RAY" -> token_a p <> token_b p.
Proof.
  unfold triangle. rewrite !elem_of_cons, elem_of_nil.
  intros [->|[->|[->|[]]]]; discriminate.
Defined.

Lemma opportunity_path_witness :
  exists tok1 tok2,
    make_opportunity "SOL" "USDC" "RAY" triangle_amt3 triangle_profit
      !! "path" = Some (VList ["SOL"; tok1; tok2; "SOL"]) /\
    tok1 <> "SOL" /\ tok2 <> "SOL" /\ tok1 <> tok2.
Proof.
  apply (opportunity_path (triangle "SOL" "USDC" "RAY") "SOL" (dec 10 0)
           (dec 0 0) _ _ triangle_well_formed triangle_run).
  apply list_elem_of_here.
Defined.

(** The three pools of the example in another order. *)
Definition triangle_reordered : list Pool :=
  match triangle "SOL" "USDC" "RAY" with
  | [p1; p2; p3] => [p3; p1; p2]
  | l => l
  end.

Lemma find_arbitrage_opportunities_permutation_witness :
  match find_arbitrage_opportunities (triangle "SOL" "USDC" "RAY") "SOL"
          (dec 10 0) (dec 0 0),
        find_arbitrage_opportunities triangle_reordered "SOL"
          (dec 10 0) (dec 0 0)
  with
  | Ok opps, Ok opps' =>
      map path_and_amount_out opps ≡ₚ map path_and_amount_out opps'
  | Err _, Err _ => True
  | _, _ => False
  end.
Proof.
  apply (find_arbitrage_opportunities_permutation
           (triangle "SOL" "USDC" "RAY") triangle_reordered).
  unfold triangle_reordered, triangle.
  eapply perm_trans; [apply perm_skip, perm_swap | apply perm_swap].
Defined.

Lemma ray_bonk_far (p : Pool) :
  p ∈ [sol_usdc; sol_usdc_fee] ++ ray_bonk :: [sol_usdc_small] ->
  token_a p = "SOL" \/ token_b p = "SOL" ->
  token_a ray_bonk <> token_a p /\ token_a ray_bonk <> token_b p /\
  token_b ray_bonk <> token_a p /\ token_b ray_bonk <> token_b p.
Proof.
  simpl. rewrite !elem_of_cons, elem_of_nil.
  intros [->|[->|[->|[->|[]]]]] Hside; simpl in *;
    repeat split; try discriminate; destruct Hside; discriminate.
Defined.

Lemma unrelated_pool_witness :
  find_arbitrage_opportunities
    ([sol_usdc; sol_usdc_fee] ++ ray_bonk :: [sol_usdc_small]) "SOL"
    (dec 10 0) (dec 0 0) =
  find_arbitrage_opportunities
    ([sol_usdc; sol_usdc_fee] ++ [sol_usdc_small]) "SOL" (dec 10 0) (dec 0 0).
Proof.
  apply (unrelated_pool_contributes_nothing [sol_usdc; sol_usdc_fee]
           [sol_usdc_small] ray_bonk "SOL").
  - discriminate.
  - discriminate.
  - exact ray_bonk_far.
Defined.




Lemma exact_steps_sol_usdc_fee_10 :
  exact_steps (dec 10 0) (dec 3 (-3)) (dec 1000 0) (dec 1000 0).
Proof.
  exists (dec 997 (-3)), (dec 9970 (-3)), (dec 9970000 (-3)), (dec 1009970 (-3)).
  repeat split; compute_eq.
Defined.


(** * Further properties of the search *)

(** What [collect] returns holds what every iteration returns. *)
Lemma collect_Ok_elem {A B : Type} (f : A -> result (list B)) (l : list A)
    (r : list B) (a : A) :
  collect f l = Ok r -> a ∈ l ->
  exists ra, f a = Ok ra /\ forall x, x ∈ ra -> x ∈ r.
Proof.
  revert r. induction l as [|y l IH]; intros r Hrun Ha.
  - now apply elem_of_nil in Ha.
  - simpl in Hrun. apply bind_Ok in Hrun as (ry & Hy & Hrun).
    apply bind_Ok in Hrun as (rs & Hrs & Hrun). injection Hrun as <-.
    apply elem_of_cons in Ha as [->|Ha].
    + exists ry. split; [exact Hy|]. intros x Hx. apply elem_of_app. now left.
    + destruct (IH rs Hrs Ha) as (ra & Hfa & Hsub).
      exists ra. split; [exact Hfa|]. intros x Hx. apply elem_of_app.
      right. now apply Hsub.
Qed.

Lemma find_arbitrage_opportunities_complete (pools : list Pool)
    (base_token : string) (amount_in min_profit : Decimal)
    (opps : list Opportunity) (o : Opportunity) :
  find_arbitrage_opportunities pools base_token amount_in min_profit = Ok opps ->
  is_cycle pools base_token amount_in min_profit o ->
  o ∈ opps.
Proof.
  intros Hrun [p1 p2 p3 amt1 amt2 amt3 profit tok1 tok2 Hp1 Hp2 Hp3
                 Hs1 Hs2 Hs3 Hopen Hclose Ha1 Hpos1 Ha2 Hpos2 Ha3 Hpr Hmin ->].
  rewrite find_arbitrage_opportunities_collect in Hrun.
  set (idx := index_pools pools) in *.
  assert (Hi1 : p1 ∈ get_pools idx base_token)
    by (apply elem_of_get_pools_index; auto).
  assert (Hi2 : p2 ∈ get_pools idx tok1)
    by (apply elem_of_get_pools_index; auto).
  assert (Hi3 : p3 ∈ get_pools idx tok2)
    by (apply elem_of_get_pools_index; auto).
  destruct (collect_Ok_elem _ _ _ _ Hrun Hi1) as (r1 & Hr1 & Hsub1).
  apply Hsub1. rewrite first_hop_nil in Hr1. cbv zeta in Hr1.
  rewrite Ha1 in Hr1. simpl in Hr1. rewrite Hpos1 in Hr1.
  destruct (collect_Ok_elem _ _ _ _ Hr1 Hi2) as (r2 & Hr2 & Hsub2).
  apply Hsub2. rewrite second_hop_nil in Hr2. cbv zeta in Hr2.
  fold tok1 tok2 in Hr2.
  rewrite bool_decide_eq_false_2 in Hr2 by exact Hopen.
  rewrite Ha2 in Hr2. simpl in Hr2. rewrite Hpos2 in Hr2.
  destruct (collect_Ok_elem _ _ _ _ Hr2 Hi3) as (r3 & Hr3 & Hsub3).
  apply Hsub3. unfold third_hop in Hr3.
  assert (Hc : bool_decide (base_token = token_a p3)
               || bool_decide (base_token = token_b p3) = true).
  { apply orb_true_iff. rewrite !bool_decide_eq_true. exact Hclose. }
  rewrite Hc in Hr3. simpl in Hr3. rewrite Ha3 in Hr3. simpl in Hr3.
  rewrite Hpr in Hr3. simpl in Hr3. rewrite Hmin in Hr3.
  injection Hr3 as <-. apply list_elem_of_here.
Qed.

(** X1. When the search returns, its result holds exactly the dicts of
    the profitable three-hop cycles of the input: a dict is returned if
    and only if three pools of the input, chosen as the three loops
    choose them, price to an amount whose profit reaches [min_profit]. *)
Theorem find_arbitrage_opportunities_exact (pools : list Pool)
    (base_token : string) (amount_in min_profit : Decimal)
    (opps : list Opportunity) (o : Opportunity) :
  find_arbitrage_opportunities pools base_token amount_in min_profit = Ok opps ->
  (o ∈ opps <-> is_cycle pools base_token amount_in min_profit o).
Proof.
  intros Hrun. split.
  - intros Ho. apply find_arbitrage_opportunities_sound in Hrun.
    rewrite Forall_forall in Hrun. now apply Hrun.
  - now apply find_arbitrage_opportunities_complete.
Qed.

(** X2. When no pool of the input has the base asset on a side, the
    search returns the empty list and prices nothing: it cannot raise,
    whatever the reserves are.  The empty input is a special case. *)
Theorem find_arbitrage_opportunities_no_base (pools : list Pool)
    (base_token : string) (amount_in min_profit : Decimal) :
  (forall p, p ∈ pools -> token_a p <> base_token /\ token_b p <> base_token) ->
  find_arbitrage_opportunities pools base_token amount_in min_profit = Ok [].
Proof.
  intros Hnone. unfold find_arbitrage_opportunities.
  assert (E : get_pools (index_pools pools) base_token = []).
  { destruct (get_pools (index_pools pools) base_token) as [|p l] eqn:Hl;
      [reflexivity|exfalso].
    assert (Hp : p ∈ get_pools (index_pools pools) base_token)
      by (rewrite Hl; apply list_elem_of_here).
    apply elem_of_get_pools_index in Hp as [Hp Hside].
    destruct (Hnone p Hp). tauto. }
  now rewrite E.
Qed.

(** ** Raising the threshold *)

Lemma ge_spec (a b : Decimal) :
  Dec.ge a b = true <-> (Dec.value b <= Dec.value a)%Q.
Proof.
  unfold Dec.ge.
  destruct (cmp_spec a b) as [[-> H]|[[-> H]|[-> H]]]; simpl;
    split; intros; try reflexivity; try discriminate; lra.
Qed.

(** The dict passes the threshold [m]: its ['profit'] is [>= m]. *)
Definition profit_reaches (m : Decimal) (o : Opportunity) : bool :=
  match o !! "profit" with
  | Some (VDecimal profit) => Dec.ge profit m
  | _ => false
  end.

(** The list a run returned, filtered; an exception is passed on. *)
Definition keep_reaching (m : Decimal) (r : result (list Opportunity))
  : result (list Opportunity) :=
  let* opps := r in Ok (List.filter (profit_reaches m) opps).

Lemma collect_keep_reaching {A : Type} (m : Decimal)
    (f g : A -> result (list Opportunity)) (l : list A) :
  (forall x, x ∈ l -> g x = keep_reaching m (f x)) ->
  collect g l = keep_reaching m (collect f l).
Proof.
  induction l as [|x l IH]; intros Hfg; simpl; [reflexivity|].
  rewrite (Hfg x) by apply list_elem_of_here.
  rewrite IH by (intros y Hy; apply Hfg; now apply list_elem_of_further).
  unfold keep_reaching.
  destruct (f x) as [r|e]; simpl; [|reflexivity].
  destruct (collect f l) as [rs|e]; simpl; [|reflexivity].
  now rewrite List.filter_app.
Qed.

Section Threshold.
Variable pools_by_token : gmap string (list Pool).
Variable base_token : string.
Variables amount_in m m' : Decimal.
Hypothesis Hle : Dec.le m m' = true.

Lemma third_hop_threshold (tok1 tok2 : string) (amt2 : Decimal) (p3 : Pool) :
  third_hop base_token amount_in m' tok1 tok2 amt2 [] p3 =
  keep_reaching m' (third_hop base_token amount_in m tok1 tok2 amt2 [] p3).
Proof.
  unfold third_hop, keep_reaching.
  destruct (negb _); simpl; [reflexivity|].
  destruct (simulate_swap amt2 p3 tok2) as [amt3|e]; simpl; [|reflexivity].
  destruct (Dec.sub amt3 amount_in) as [profit|e]; simpl; [|reflexivity].
  destruct (Dec.ge profit m') eqn:Hm'.
  - assert (Hm : Dec.ge profit m = true).
    { apply ge_spec. apply ge_spec in Hm'. apply le_spec in Hle. lra. }
    rewrite Hm. simpl. unfold profit_reaches.
    rewrite make_opportunity_profit, Hm'. reflexivity.
  - destruct (Dec.ge profit m); simpl; [|reflexivity].
    unfold profit_reaches. rewrite make_opportunity_profit, Hm'. reflexivity.
Qed.

Lemma second_hop_threshold (tok1 : string) (amt1 : Decimal) (p2 : Pool) :
  second_hop pools_by_token base_token amount_in m' tok1 amt1 [] p2 =
  keep_reaching m'
    (second_hop pools_by_token base_token amount_in m tok1 amt1 [] p2).
Proof.
  rewrite !second_hop_nil. cbv zeta.
  destruct (bool_decide _); [reflexivity|].
  destruct (simulate_swap amt1 p2 tok1) as [amt2|e]; simpl; [|reflexivity].
  destruct (Dec.le amt2 (Dec.of_int 0)); [reflexivity|].
  apply collect_keep_reaching. intros p3 _. apply third_hop_threshold.
Qed.

Lemma first_hop_threshold (p1 : Pool) :
  first_hop pools_by_token base_token amount_in m' [] p1 =
  keep_reaching m' (first_hop pools_by_token base_token amount_in m [] p1).
Proof.
  rewrite !first_hop_nil. cbv zeta.
  destruct (simulate_swap amount_in p1 base_token) as [amt1|e]; simpl;
    [|reflexivity].
  destruct (Dec.le amt1 (Dec.of_int 0)); [reflexivity|].
  apply collect_keep_reaching. intros p2 _. apply second_hop_threshold.
Qed.
End Threshold.

(** X3. Raising the threshold only filters: for [m <= m'], the run with
    threshold [m'] raises exactly when the run with [m] does, and
    otherwise returns the dicts of that run whose profit is [>= m'], in
    the same order. *)
Theorem find_arbitrage_opportunities_threshold (pools : list Pool)
    (base_token : string) (amount_in m m' : Decimal) :
  Dec.le m m' = true ->
  find_arbitrage_opportunities pools base_token amount_in m' =
  match find_arbitrage_opportunities pools base_token amount_in m with
  | Ok opps => Ok (List.filter (profit_reaches m') opps)
  | Err e => Err e
  end.
Proof.
  intros Hle. rewrite !find_arbitrage_opportunities_collect.
  rewrite (collect_keep_reaching m' (fun p1 =>
             first_hop (index_pools pools) base_token amount_in m [] p1)).
  - reflexivity.
  - intros p1 _. now apply first_hop_threshold.
Qed.

(** ** The index under the pool invariant *)

(** The pool has [k] on a side. *)
Definition has_token (k : string) (p : Pool) : bool :=
  bool_decide (token_a p = k) || bool_decide (token_b p = k).

Lemma get_pools_filter (pools : list Pool) (k : string) :
  (forall p, p ∈ pools -> token_a p <> token_b p) ->
  get_pools (index_pools pools) k = List.filter (has_token k) pools.
Proof.
  intros Hwf. rewrite get_pools_index.
  induction pools as [|p pools IH]; simpl; [reflexivity|].
  rewrite IH by (intros q Hq; apply Hwf; now apply list_elem_of_further).
  assert (Hp := Hwf p (list_elem_of_here _ _)).
  unfold entries, has_token.
  destruct (decide (token_a p = k)) as [Ha|Ha];
    destruct (decide (token_b p = k)) as [Hb|Hb].
  - congruence.
  - rewrite (bool_decide_eq_true_2 _ Ha). reflexivity.
  - rewrite (bool_decide_eq_false_2 _ Ha), (bool_decide_eq_true_2 _ Hb).
    reflexivity.
  - rewrite (bool_decide_eq_false_2 _ Ha), (bool_decide_eq_false_2 _ Hb).
    reflexivity.
Qed.

(** X4. When every pool has two distinct assets, the list indexed under
    an asset is the input list filtered to the pools holding that asset:
    each such pool once, in input order. *)
Theorem index_pools_filter (pools : list Pool) (k : string) :
  (forall p, p ∈ pools -> token_a p <> token_b p) ->
  get_pools (index_pools pools) k = List.filter (has_token k) pools.
Proof. apply get_pools_filter. Qed.

(** X5. A pool whose two sides are the same asset is indexed twice under
    that asset, so the loops visit it twice. *)
Theorem index_pools_same_asset (pools : list Pool) (p : Pool) :
  token_a p = token_b p ->
  get_pools (index_pools (pools ++ [p])) (token_a p) =
  get_pools (index_pools pools) (token_a p) ++ [p; p].
Proof.
  intros Hsame. rewrite !get_pools_index, flat_map_app. simpl.
  unfold entries. rewrite <- Hsame, decide_True by reflexivity.
  now rewrite app_nil_r.
Qed.

(** ** Orientation of a pool *)

(** The same pool with its two sides exchanged. *)
Definition flip_pool (p : Pool) : Pool :=
  mkPool (token_b p) (token_a p) (reserve_b p) (reserve_a p) (fee p) (dex p).

Lemma reserves_flip_pool (p : Pool) (tok : string) :
  token_a p <> token_b p ->
  reserves (flip_pool p) tok = reserves p tok.
Proof.
  intros Hne. unfold reserves, flip_pool. simpl.
  destruct (decide (tok = token_b p)) as [Hb|Hb];
    destruct (decide (tok = token_a p)) as [Ha|Ha]; try reflexivity.
  congruence.
Qed.

Lemma simulate_swap_flip_pool (amount_in : Decimal) (p : Pool) (tok : string) :
  token_a p <> token_b p ->
  simulate_swap amount_in (flip_pool p) tok = simulate_swap amount_in p tok.
Proof.
  intros Hne. unfold simulate_swap. now rewrite reserves_flip_pool.
Qed.

Lemma other_token_flip_pool (p : Pool) (tok : string) :
  token_a p <> token_b p ->
  token_a p = tok \/ token_b p = tok ->
  other_token (flip_pool p) tok = other_token p tok.
Proof.
  intros Hne Hside. unfold other_token, flip_pool. simpl.
  destruct (decide (token_b p = tok)) as [Hb|Hb];
    destruct (decide (token_a p = tok)) as [Ha|Ha]; try reflexivity;
    [congruence | tauto].
Qed.

Lemma collect_map {A A' B : Type} (h : A -> A') (f : A' -> result (list B))
    (l : list A) :
  collect f (map h l) = collect (fun x => f (h x)) l.
Proof.
  induction l as [|x l IH]; simpl; [reflexivity|]. now rewrite IH.
Qed.

Section Orientation.
Variable pools : list Pool.
Variable flipped : Pool -> bool.
Variable base_token : string.
Variables amount_in min_profit : Decimal.
Hypothesis Hwf : forall p, p ∈ pools -> token_a p <> token_b p.

(** Some pools of the list are written the other way round. *)
Definition reorient (p : Pool) : Pool :=
  if flipped p then flip_pool p else p.

Lemma reorient_token_a_ne (p : Pool) :
  token_a p <> token_b p -> token_a (reorient p) <> token_b (reorient p).
Proof. unfold reorient. destruct (flipped p); simpl; congruence. Qed.

Lemma simulate_swap_reorient (x : Decimal) (p : Pool) (tok : string) :
  token_a p <> token_b p ->
  simulate_swap x (reorient p) tok = simulate_swap x p tok.
Proof.
  intros Hne. unfold reorient. destruct (flipped p); [|reflexivity].
  now apply simulate_swap_flip_pool.
Qed.

Lemma other_token_reorient (p : Pool) (tok : string) :
  token_a p <> token_b p ->
  token_a p = tok \/ token_b p = tok ->
  other_token (reorient p) tok = other_token p tok.
Proof.
  intros Hne Hside. unfold reorient. destruct (flipped p); [|reflexivity].
  now apply other_token_flip_pool.
Qed.

Lemma has_token_reorient (k : string) (p : Pool) :
  has_token k (reorient p) = has_token k p.
Proof.
  unfold reorient, has_token. destruct (flipped p); [|reflexivity].
  simpl. apply orb_comm.
Qed.

Lemma get_pools_reorient (k : string) :
  get_pools (index_pools (map reorient pools)) k =
  map reorient (get_pools (index_pools pools) k).
Proof.
  rewrite !get_pools_filter.
  - clear Hwf. induction pools as [|p l IH]; simpl; [reflexivity|].
    rewrite has_token_reorient. destruct (has_token k p); simpl; now rewrite IH.
  - exact Hwf.
  - intros q Hq. apply list_elem_of_fmap in Hq as (p & -> & Hp).
    apply reorient_token_a_ne. now apply Hwf.
Qed.

Lemma third_hop_reorient (tok1 tok2 : string) (amt2 : Decimal) (p3 : Pool) :
  p3 ∈ pools ->
  third_hop base_token amount_in min_profit tok1 tok2 amt2 [] (reorient p3) =
  third_hop base_token amount_in min_profit tok1 tok2 amt2 [] p3.
Proof.
  intros Hp3. unfold third_hop.
  rewrite simulate_swap_reorient by now apply Hwf.
  replace (bool_decide (base_token = token_a (reorient p3))
           || bool_decide (base_token = token_b (reorient p3)))
    with (bool_decide (base_token = token_a p3)
          || bool_decide (base_token = token_b p3)); [reflexivity|].
  unfold reorient. destruct (flipped p3); [|reflexivity].
  simpl. apply orb_comm.
Qed.

Lemma second_hop_reorient (tok1 : string) (amt1 : Decimal) (p2 : Pool) :
  p2 ∈ get_pools (index_pools pools) tok1 ->
  second_hop (index_pools (map reorient pools)) base_token amount_in
    min_profit tok1 amt1 [] (reorient p2) =
  second_hop (index_pools pools) base_token amount_in min_profit
    tok1 amt1 [] p2.
Proof.
  intros Hp2. apply elem_of_get_pools_index in Hp2 as [Hp2 Hside].
  rewrite !second_hop_nil. cbv zeta.
  rewrite other_token_reorient by (auto using Hwf).
  rewrite simulate_swap_reorient by now apply Hwf.
  destruct (bool_decide _); [reflexivity|].
  destruct (simulate_swap amt1 p2 tok1) as [amt2|e]; simpl; [|reflexivity].
  destruct (Dec.le amt2 (Dec.of_int 0)); [reflexivity|].
  rewrite get_pools_reorient, collect_map.
  apply collect_ext. intros p3 Hp3.
  apply third_hop_reorient. now apply elem_of_get_pools_index in Hp3 as [? _].
Qed.

Lemma first_hop_reorient (p1 : Pool) :
  p1 ∈ get_pools (index_pools pools) base_token ->
  first_hop (index_pools (map reorient pools)) base_token amount_in
    min_profit [] (reorient p1) =
  first_hop (index_pools pools) base_token amount_in min_profit [] p1.
Proof.
  intros Hp1. apply elem_of_get_pools_index in Hp1 as [Hp1 Hside].
  rewrite !first_hop_nil. cbv zeta.
  rewrite other_token_reorient by (auto using Hwf).
  rewrite simulate_swap_reorient by now apply Hwf.
  destruct (simulate_swap amount_in p1 base_token) as [amt1|e]; simpl;
    [|reflexivity].
  destruct (Dec.le amt1 (Dec.of_int 0)); [reflexivity|].
  rewrite get_pools_reorient, collect_map.
  apply collect_ext. intros p2 Hp2. now apply second_hop_reorient.
Qed.

Lemma find_arbitrage_opportunities_reorient :
  find_arbitrage_opportunities (map reorient pools) base_token amount_in
    min_profit =
  find_arbitrage_opportunities pools base_token amount_in min_profit.
Proof.
  rewrite !find_arbitrage_opportunities_collect.
  rewrite get_pools_reorient, collect_map.
  apply collect_ext. intros p1 Hp1. now apply first_hop_reorient.
Qed.
End Orientation.

(** X6. Which asset of a pool is recorded as side a and which as side b
    does not matter: exchanging the two sides (assets together with their
    reserves) of any of the pools, all of which have two distinct assets,
    leaves the result of the search unchanged, order and exceptions
    included. *)
Theorem find_arbitrage_opportunities_orientation (pools : list Pool)
    (flipped : Pool -> bool) (base_token : string)
    (amount_in min_profit : Decimal) :
  (forall p, p ∈ pools -> token_a p <> token_b p) ->
  find_arbitrage_opportunities (map (reorient flipped) pools) base_token
    amount_in min_profit =
  find_arbitrage_opportunities pools base_token amount_in min_profit.
Proof. apply find_arbitrage_opportunities_reorient. Qed.

(** * Further properties of the swap simulator *)

Lemma fix_zero (d u : Decimal) :
  Dec.is_zero d = true -> Dec.fix_ d = Ok u -> Dec.is_zero u = true.
Proof.
  intros Hz Hfix. unfold Dec.fix_ in Hfix. rewrite Hz in Hfix.
  injection Hfix as <-. unfold Dec.is_zero.
  now rewrite coeff_from_triple by lia.
Qed.

Lemma is_zero_triple_0 (s : bool) (e : Z) :
  Dec.is_zero (Dec.dec_from_triple s 0 e) = true.
Proof. unfold Dec.is_zero. now rewrite coeff_from_triple by lia. Qed.

Lemma mul_zero (a b u : Decimal) :
  Dec.is_zero a || Dec.is_zero b = true ->
  Dec.mul a b = Ok u -> Dec.is_zero u = true.
Proof.
  intros Hz Hmul. unfold Dec.mul in Hmul. rewrite Hz in Hmul.
  eapply fix_zero; [|exact Hmul]. apply is_zero_triple_0.
Qed.

Lemma div_zero (a b u : Decimal) :
  Dec.is_zero a = true -> Dec.div a b = Ok u -> Dec.is_zero u = true.
Proof.
  intros Hz Hdiv. unfold Dec.div in Hdiv. rewrite Hz in Hdiv.
  destruct (Dec.is_zero b); [discriminate|].
  eapply fix_zero; [|exact Hdiv]. apply is_zero_triple_0.
Qed.

Lemma simulate_swap_zero (amount_in : Decimal) (pool : Pool)
    (input_token : string) (u : Decimal) :
  Dec.is_zero amount_in = true \/
  (exists reserve_in reserve_out,
     reserves pool input_token = Some (reserve_in, reserve_out) /\
     Dec.is_zero reserve_out = true) ->
  simulate_swap amount_in pool input_token = Ok u ->
  Dec.is_zero u = true.
Proof.
  intros Hzero Hrun. unfold simulate_swap in Hrun.
  destruct (reserves pool input_token) as [[rin rout]|] eqn:Hres.
  - apply bind_Ok in Hrun as (g & Hg & Hrun).
    apply bind_Ok in Hrun as (aaf & Haaf & Hrun).
    apply bind_Ok in Hrun as (n & Hn & Hrun).
    apply bind_Ok in Hrun as (d & Hd & Hrun).
    apply (div_zero n d); [|exact Hrun].
    apply (mul_zero aaf rout); [|exact Hn].
    destruct Hzero as [Hx|(rin' & rout' & Hres' & Hout)].
    + rewrite (mul_zero amount_in g aaf); [reflexivity| |exact Haaf].
      now rewrite Hx.
    + injection Hres' as <- <-. rewrite Hout. apply orb_true_r.
  - injection Hrun as <-. reflexivity.
Qed.

(** X7. Nothing in, nothing out, and nothing out of an empty side, for
    finite decimals (an amount, reserves and a fee rate that are neither
    Infinity nor NaN): when the amount is zero, or the reserve on the
    output side is zero, every value [simulate_swap] returns is zero (it
    may raise instead, when the divisor is zero too). *)
Theorem simulate_swap_inert (amount_in : Decimal) (pool : Pool)
    (input_token : string) (u : Decimal) :
  Dec.is_zero amount_in = true \/
  (exists reserve_in reserve_out,
     reserves pool input_token = Some (reserve_in, reserve_out) /\
     Dec.is_zero reserve_out = true) ->
  simulate_swap amount_in pool input_token = Ok u ->
  Dec.is_zero u = true.
Proof. apply simulate_swap_zero. Qed.

(** X8. A swap never pays out more than the pool holds: for a
    non-negative amount, a fee rate of at most 1, non-negative reserves
    and an output reserve that the context represents (a coefficient of
    at most 28 digits and an exponent of at least Etiny = -1000026),
    whenever no step before the final division is rounded, the value
    returned is [<=] the output reserve. *)
Theorem simulate_swap_at_most_reserve_out (amount_in : Decimal) (pool : Pool)
    (input_token : string) (reserve_in reserve_out u : Decimal) :
  reserves pool input_token = Some (reserve_in, reserve_out) ->
  (0 <= Dec.value reserve_in)%Q ->
  (0 <= Dec.value reserve_out)%Q ->
  representable reserve_out ->
  (0 <= Dec.value amount_in)%Q ->
  (Dec.value (fee_rate pool) <= 1)%Q ->
  exact_steps amount_in (fee_rate pool) reserve_in reserve_out ->
  simulate_swap amount_in pool input_token = Ok u ->
  Dec.le u reserve_out = true.
Proof.
  intros Hres Hrin Hrout Hrep Hx Hfee Hex Hrun.
  destruct (simulate_swap_exact _ _ _ _ _ _ Hres Hex Hrun)
    as (aaf & n & d & Va & Vn & Vd & _ & Hdiv).
  assert (Ha0 : (0 <= Dec.value aaf)%Q) by (rewrite Va; nra).
  assert (Hn0 : (0 <= Dec.value n)%Q) by (rewrite Vn; nra).
  assert (Hd0 : (0 <= Dec.value d)%Q) by (rewrite Vd; lra).
  destruct (div_nonneg n d u Hn0 Hd0 Hdiv) as [Hdpos Hu].
  apply le_spec.
  destruct Hu as [[_ ->]|(Hnpos & c & k & Hr & ->)]; [exact Hrout|].
  assert (Hrpos : (0 < Dec.value reserve_out)%Q).
  { destruct (Qlt_le_dec 0 (Dec.value reserve_out)) as [H|H]; [exact H|].
    exfalso. rewrite Vn in Hnpos. nra. }
  destruct (value_representable reserve_out Hrpos Hrep)
    as (cf & kf & Hcf & Hkf & Ecf).
  rewrite Ecf. apply (is_rounding_below _ _ _ _ _ Hr Hcf Hkf). rewrite <- Ecf.
  apply Qle_shift_div_r; [exact Hdpos|]. rewrite Vn, Vd. nra.
Qed.

(** * Decimal arithmetic: when a division returns, and when it is exact *)

Lemma scale_up_ge (x t : Q) (k : Z) :
  (t * pow10 (- k) <= x <-> t <= x * pow10 k)%Q.
Proof.
  rewrite <- (Qmult_le_r (t * pow10 (- k)) x (pow10 k)) by apply pow10_pos.
  now rewrite unscale.
Qed.

(** Rounding does not step below a value that the context can represent. *)
Lemma is_rounding_above (t : Q) (c k cf kf : Z) :
  is_rounding t c k ->
  0 <= cf < 10 ^ Dec.prec -> Dec.Etiny <= kf ->
  (mag cf kf <= t)%Q -> (mag cf kf <= mag c k)%Q.
Proof.
  intros Hr [Hcf0 Hcf] Hkf Hle.
  destruct (Z.le_gt_cases k kf) as [Hk|Hk].
  - replace kf with (k + (kf - k)) in * by lia.
    rewrite <- mag_shift in * by lia.
    apply mag_le. destruct Hr as (_ & Hr & _).
    apply (rounds_half_even_ge _ _ _ Hr). now apply scale_up_le.
  - pose proof (is_rounding_lower _ _ _ Hr) as Hlow.
    destruct Hr as (Hk0 & _). specialize (Hlow ltac:(lia)).
    eapply Qle_trans; [|apply mag_le, Hlow].
    rewrite mag_pow10 by discriminate.
    eapply Qle_trans; [apply mag_le; apply Z.lt_le_incl, Hcf|].
    rewrite mag_pow10 by discriminate. apply pow10_le. lia.
Qed.

(** A value that fits the context is its own rounding. *)
Lemma is_rounding_exact (t : Q) (c k cf kf : Z) :
  is_rounding t c k ->
  0 <= cf < 10 ^ Dec.prec -> Dec.Etiny <= kf ->
  (t == mag cf kf)%Q -> (mag c k == t)%Q.
Proof.
  intros Hr Hcf Hkf Ht.
  pose proof (is_rounding_below t c k cf kf Hr Hcf Hkf) as H1.
  pose proof (is_rounding_above t c k cf kf Hr Hcf Hkf) as H2.
  rewrite Ht in *. apply Qle_antisym; [apply H1 | apply H2]; apply Qle_refl.
Qed.

(** [fix_] returns when the most significant digit is not above [Emax]. *)
Lemma fix_ok (s : bool) (c0 e0 : Z) :
  0 < c0 -> Dec.len c0 + e0 <= Dec.Emax ->
  exists u, Dec.fix_ (Dec.dec_from_triple s c0 e0) = Ok u.
Proof.
  intros Hc Hadj. unfold Dec.fix_.
  rewrite is_zero_from_triple by exact Hc.
  rewrite coeff_from_triple by lia.
  cbn [Dec.d_exp Dec.d_sign Dec.dec_from_triple].
  set (L := Dec.len c0) in *.
  assert (Htop : Dec.Etop = Dec.Emax - Dec.prec + 1) by reflexivity.
  assert (Htiny : Dec.Etiny < Dec.Etop) by reflexivity.
  destruct (Z.ltb_spec Dec.Etop (L + e0 - Dec.prec)) as [H|_]; [lia|].
  set (k := if L + e0 - Dec.prec <? Dec.Etiny then Dec.Etiny
            else L + e0 - Dec.prec).
  assert (Hk : k < Dec.Etop).
  { unfold k. destruct (Z.ltb_spec (L + e0 - Dec.prec) Dec.Etiny); lia. }
  destruct (e0 <? k); [|eauto]. cbv zeta.
  match goal with
  | |- exists u, (if Dec.Etop <? ?x then _ else _) = _ =>
      destruct (Z.ltb_spec Dec.Etop x) as [H|_]; [exfalso|eauto]
  end.
  destruct (_ && _); lia.
Qed.

(** The operand [__truediv__] hands to [fix_], for positive operands. *)
Lemma div_fix_form (a b : Decimal) :
  Dec.d_sign a = false -> Dec.d_sign b = false ->
  0 < Dec.coeff a -> 0 < Dec.coeff b ->
  exists c0 e0,
    Dec.div a b = Dec.fix_ (Dec.dec_from_triple false c0 e0) /\
    0 < c0 /\
    sticky (Dec.value a / Dec.value b * pow10 (- e0)) c0 /\
    ((Dec.value a / Dec.value b == mag c0 e0)%Q \/ Dec.prec < Dec.len c0).
Proof.
  intros Hsa Hsb Ha Hb.
  set (t := (Dec.value a / Dec.value b)%Q).
  assert (Hbq : (0 < mag (Dec.coeff b) (Dec.d_exp b))%Q) by now apply mag_pos.
  assert (Ht : (t * mag (Dec.coeff b) (Dec.d_exp b)
                == mag (Dec.coeff a) (Dec.d_exp a))%Q).
  { unfold t. rewrite (value_mag a Hsa), (value_mag b Hsb). field. lra. }
  pose proof (div_scaled_bound _ _ Ha Hb) as Hbound.
  pose proof (div_scaled_value _ (Dec.d_exp a) _ (Dec.d_exp b) t Ha Hb Ht) as Hval.
  cbv zeta in Hbound, Hval.
  unfold Dec.div. rewrite Hsa, Hsb. unfold Dec.is_zero.
  rewrite (proj2 (Z.eqb_neq (Dec.coeff b) 0)) by lia.
  rewrite (proj2 (Z.eqb_neq (Dec.coeff a) 0)) by lia.
  cbv zeta. cbn [xorb].
  set (shift := Dec.len (Dec.coeff b) - Dec.len (Dec.coeff a) + Dec.prec + 1) in *.
  set (e := Dec.d_exp a - Dec.d_exp b - shift) in *.
  set (n := if 0 <=? shift then Dec.coeff a * 10 ^ shift else Dec.coeff a) in *.
  set (m := if 0 <=? shift then Dec.coeff b
            else Dec.coeff b * 10 ^ (- shift)) in *.
  destruct Hbound as [Hm Hnm].
  assert (Hq : 10 ^ Dec.prec <= n / m).
  { apply Z.div_le_lower_bound; [exact Hm|]. lia. }
  assert (Hp : 0 < 10 ^ Dec.prec) by reflexivity.
  assert (Hmq : (0 < inject_Z m)%Q).
  { change 0%Q with (inject_Z 0). rewrite <- Zlt_Qlt. exact Hm. }
  destruct (Z.eqb_spec (n mod m) 0) as [Hr|Hr].
  - destruct (Dec.strip_to_ideal _ _ _ _) as [q' e'] eqn:Hstrip.
    assert (Hq0 : 0 < n / m) by lia.
    destruct (strip_to_ideal_value _ _ _ _ _ _ Hq0 Hstrip) as [Hq' Hmag].
    assert (Hn : n = m * (n / m)).
    { pose proof (Z.div_mod n m ltac:(lia)). lia. }
    assert (Hy : (t * pow10 (- e) == inject_Z (n / m))%Q).
    { apply (Qmult_inj_l _ _ (inject_Z m)); [lra|].
      rewrite Hval, Hn at 1. now rewrite inject_Z_mult. }
    assert (Hexact : (t == mag q' e')%Q).
    { rewrite Hmag. unfold mag. rewrite <- Hy. now rewrite unscale. }
    exists q', e'. split; [reflexivity|]. split; [exact Hq'|].
    split; [|left; exact Hexact].
    apply sticky_exact. rewrite Hexact. unfold mag.
    rewrite <- Qmult_assoc, pow10_cancel. ring.
  - set (c0 := if (n / m) mod 5 =? 0 then n / m + 1 else n / m).
    assert (Hc0 : n / m <= c0) by (unfold c0; destruct (_ =? 0); lia).
    exists c0, e. split; [reflexivity|]. split; [lia|].
    split; [now apply sticky_truncation|].
    right. apply len_lower; [discriminate | lia].
Qed.

(** The operand of [fix_] is not smaller than one unit of its leading
    digit. *)
Lemma approx_lower (t : Q) (c0 e0 : Z) :
  0 < c0 ->
  sticky (t * pow10 (- e0)) c0 ->
  (t == mag c0 e0)%Q \/ Dec.prec < Dec.len c0 ->
  (pow10 (Dec.len c0 - 1 + e0) <= t)%Q.
Proof.
  intros Hc Hst Hex.
  destruct (len_spec c0 Hc) as (HL1 & HLlo & _).
  rewrite <- mag_pow10 by lia. destruct Hex as [Hex|Hex].
  - rewrite Hex. now apply mag_le.
  - unfold mag. apply scale_up_le.
    apply (sticky_le_iff _ c0 (10 ^ (Dec.len c0 - 1)) Hst);
      [apply pow10_mod5; unfold Dec.prec in Hex; lia | exact HLlo].
Qed.

(** A quotient below [10^Emax] does not overflow. *)
Lemma div_ok (a b : Decimal) (E : Z) :
  (0 < Dec.value a)%Q -> (0 < Dec.value b)%Q ->
  (Dec.value a / Dec.value b < pow10 E)%Q -> E <= Dec.Emax ->
  exists u, Dec.div a b = Ok u.
Proof.
  intros Ha Hb Hlt HE.
  destruct (value_pos_inv a Ha) as [Hsa Hca].
  destruct (value_pos_inv b Hb) as [Hsb Hcb].
  destruct (div_fix_form a b Hsa Hsb Hca Hcb) as (c0 & e0 & -> & Hc0 & Hst & Hex).
  apply fix_ok; [exact Hc0|].
  pose proof (approx_lower _ _ _ Hc0 Hst Hex) as Hlow.
  assert (Hpow : (pow10 (Dec.len c0 - 1 + e0) < pow10 E)%Q) by lra.
  apply pow10_lt_inv in Hpow. lia.
Qed.

(** A quotient that fits the context is returned exactly. *)
Lemma div_exact (a b u : Decimal) (cf kf : Z) :
  (0 < Dec.value a)%Q -> (0 < Dec.value b)%Q ->
  0 <= cf < 10 ^ Dec.prec -> Dec.Etiny <= kf ->
  (Dec.value a / Dec.value b == mag cf kf)%Q ->
  Dec.div a b = Ok u ->
  (Dec.value u == Dec.value a / Dec.value b)%Q.
Proof.
  intros Ha Hb Hcf Hkf Hq Hdiv.
  destruct (value_pos_inv a Ha) as [Hsa Hca].
  destruct (value_pos_inv b Hb) as [Hsb Hcb].
  destruct (div_spec a b u Hsa Hsb Hca Hcb Hdiv) as (c & k & Hr & ->).
  now apply (is_rounding_exact _ c k cf kf).
Qed.

(** * Decoding a Lifinity pool account *)

(** ** [bytes.hex()] and [struct.unpack_from("<Q", ...)] *)

(** The lower-case hexadecimal digit of a nibble. *)
Definition hex_digit (n : N) : Ascii.ascii :=
  Ascii.ascii_of_N (if (n <? 10)%N then 48 + n else 87 + n)%N.

(** [data.hex()] *)
Fixpoint hex (data : list Byte.byte) : string :=
  match data with
  | [] => EmptyString
  | b :: rest =>
      let n := Strings.Byte.to_N b in
      String (hex_digit (n / 16)) (String (hex_digit (n mod 16)) (hex rest))
  end.

(** The unsigned integer a byte string spells, least significant byte
    first. *)
Fixpoint little_endian (data : list Byte.byte) : Z :=
  match data with
  | [] => 0
  | b :: rest => Z.of_N (Strings.Byte.to_N b) + 256 * little_endian rest
  end.

(** [struct.unpack_from("<Q", data, offset)[0]]; [None] stands for
    [struct.error], raised when fewer than 8 bytes follow the offset. *)
Definition unpack_from_Q (data : list Byte.byte) (offset : nat) : option Z :=
  if decide (offset + 8 <= length data)%nat
  then Some (little_endian (take 8 (drop offset data)))
  else None.

(** ** [parse_lifinity_pool_data] *)

Inductive parse_exn : Type :=
| BinasciiError
| StructError
| DecimalException (e : exn).

Inductive parsed (A : Type) : Type :=
| Parsed (a : A)
| ParseRaises (e : parse_exn).
Arguments Parsed {A} a.
Arguments ParseRaises {A} e.

(** The body of [parse_lifinity_pool_data] after the base64 decoding. *)
Definition parse_lifinity_pool_bytes (data : list Byte.byte) : parsed Pool :=
  let mint_a := hex (take 32 data) in
  let mint_b := hex (take 32 (drop 32 data)) in
  match unpack_from_Q data 64 with
  | None => ParseRaises StructError
  | Some reserve_a =>
      match unpack_from_Q data 72 with
      | None => ParseRaises StructError
      | Some reserve_b =>
          match unpack_from_Q data 80 with
          | None => ParseRaises StructError
          | Some fee =>
              match Dec.div (Dec.of_int fee) (Dec.of_int 1000000) with
              | Err e => ParseRaises (DecimalException e)
              | Ok fee_rate =>
                  Parsed (mkPool mint_a mint_b (Dec.of_int reserve_a)
                            (Dec.of_int reserve_b) (Some fee_rate) "lifinity")
              end
          end
      end
  end.

Section Lifinity.
(** [base64.b64decode], with [None] for [binascii.Error]. *)
Variable b64decode : string -> option (list Byte.byte).

Definition parse_lifinity_pool_data (data_b64 : string) : parsed Pool :=
  match b64decode data_b64 with
  | None => ParseRaises BinasciiError
  | Some data => parse_lifinity_pool_bytes data
  end.
End Lifinity.

(** ** Bytes *)

Lemma little_endian_bounds (data : list Byte.byte) :
  0 <= little_endian data < 256 ^ Z.of_nat (length data).
Proof.
  induction data as [|b rest IH]; [simpl; lia|].
  cbn [little_endian length]. rewrite Nat2Z.inj_succ, Z.pow_succ_r by lia.
  pose proof (Strings.Byte.to_N_bounded b) as Hb.
  lia.
Qed.

Lemma unpack_from_Q_Some (data : list Byte.byte) (offset : nat) (n : Z) :
  unpack_from_Q data offset = Some n -> 0 <= n < 2 ^ 64.
Proof.
  unfold unpack_from_Q. destruct (decide _) as [Hlen|]; [|discriminate].
  intros [= <-].
  pose proof (little_endian_bounds (take 8 (drop offset data))) as Hb.
  rewrite length_take, length_drop in Hb.
  replace (Nat.min 8 (length data - offset)) with 8%nat in Hb by lia.
  exact Hb.
Qed.

Lemma unpack_from_Q_is_Some (data : list Byte.byte) (offset : nat) :
  (offset + 8 <= length data)%nat ->
  unpack_from_Q data offset = Some (little_endian (take 8 (drop offset data))).
Proof. intros H. unfold unpack_from_Q. now rewrite decide_True. Qed.

Lemma unpack_from_Q_None (data : list Byte.byte) (offset : nat) :
  (length data < offset + 8)%nat -> unpack_from_Q data offset = None.
Proof. intros H. unfold unpack_from_Q. rewrite decide_False; [reflexivity|lia]. Qed.

(** The nibble a hexadecimal digit stands for. *)
Definition unhex_digit (c : Ascii.ascii) : N :=
  let n := Ascii.N_of_ascii c in
  if (n <? 58)%N then (n - 48)%N else (n - 87)%N.

Lemma unhex_hex_digit (n : N) : (n < 16)%N -> unhex_digit (hex_digit n) = n.
Proof.
  intros Hn. unfold unhex_digit, hex_digit.
  destruct (N.ltb_spec n 10) as [H|H];
    rewrite Ascii.N_ascii_embedding by lia;
    [rewrite (proj2 (N.ltb_lt _ _)) by lia | rewrite (proj2 (N.ltb_ge _ _)) by lia];
    lia.
Qed.

Lemma hex_injective (l1 l2 : list Byte.byte) : hex l1 = hex l2 -> l1 = l2.
Proof.
  revert l2. induction l1 as [|b1 l1 IH]; intros [|b2 l2] H; simpl in H;
    try discriminate; [reflexivity|].
  injection H as Hhi Hlo Hrest.
  pose proof (Strings.Byte.to_N_bounded b1) as B1.
  pose proof (Strings.Byte.to_N_bounded b2) as B2.
  set (n1 := Strings.Byte.to_N b1) in *. set (n2 := Strings.Byte.to_N b2) in *.
  assert (H1 : (n1 / 16 < 16)%N) by (apply N.Div0.div_lt_upper_bound; lia).
  assert (H2 : (n2 / 16 < 16)%N) by (apply N.Div0.div_lt_upper_bound; lia).
  assert (H3 : (n1 mod 16 < 16)%N) by (apply N.mod_lt; lia).
  assert (H4 : (n2 mod 16 < 16)%N) by (apply N.mod_lt; lia).
  apply (f_equal unhex_digit) in Hhi, Hlo.
  rewrite !unhex_hex_digit in Hhi, Hlo by assumption.
  assert (Hn : n1 = n2).
  { rewrite (N.div_mod n1 16), (N.div_mod n2 16) by lia. now rewrite Hhi, Hlo. }
  assert (Hb : b1 = b2).
  { pose proof (Strings.Byte.of_to_N b1) as E1.
    pose proof (Strings.Byte.of_to_N b2) as E2.
    fold n1 in E1. fold n2 in E2. rewrite Hn in E1. congruence. }
  subst b2. f_equal. now apply IH.
Qed.

Lemma hex_length (data : list Byte.byte) :
  String.length (hex data) = (2 * length data)%nat.
Proof. induction data as [|b rest IH]; simpl; [reflexivity|]. rewrite IH. lia. Qed.

(** ** The decoded fields *)

Lemma value_of_int (n : Z) : 0 <= n -> (Dec.value (Dec.of_int n) == inject_Z n)%Q.
Proof.
  intros Hn. rewrite value_unfold. unfold Dec.of_int.
  rewrite (proj2 (Z.ltb_ge n 0)) by lia.
  rewrite coeff_from_triple by lia. cbn [Dec.d_sign Dec.d_exp Dec.dec_from_triple].
  unfold Dec.signed. rewrite Z.abs_eq by lia. rewrite pow10_0. ring.
Qed.


(** Dividing a 64-bit unsigned integer by 10^6 returns the exact
    quotient. *)
Lemma div_micro (n : Z) :
  0 <= n < 2 ^ 64 ->
  exists f,
    Dec.div (Dec.of_int n) (Dec.of_int 1000000) = Ok f /\
    (Dec.value f == inject_Z n / 1000000)%Q.
Proof.
  intros [Hn0 Hn].
  destruct (Z.eq_dec n 0) as [->|Hnz].
  - exists (dec 0 0). split; reflexivity.
  - assert (Va : (Dec.value (Dec.of_int n) == inject_Z n)%Q)
      by (apply value_of_int; lia).
    assert (Vb : (Dec.value (Dec.of_int 1000000) == 1000000)%Q) by reflexivity.
    assert (Hnq : (0 < inject_Z n)%Q).
    { change 0%Q with (inject_Z 0). rewrite <- Zlt_Qlt. lia. }
    assert (Ha : (0 < Dec.value (Dec.of_int n))%Q) by (rewrite Va; exact Hnq).
    assert (Hb : (0 < Dec.value (Dec.of_int 1000000))%Q) by reflexivity.
    assert (Hq : (Dec.value (Dec.of_int n) / Dec.value (Dec.of_int 1000000)
                  == mag n (-6))%Q).
    { rewrite Va, Vb. unfold mag.
      assert (E : (pow10 (-6) == 1 / 1000000)%Q) by reflexivity.
      rewrite E. field. }
    assert (Hcf : 0 <= n < 10 ^ Dec.prec).
    { assert (2 ^ 64 < 10 ^ Dec.prec) by reflexivity. lia. }
    destruct (div_ok (Dec.of_int n) (Dec.of_int 1000000) 14 Ha Hb) as [f Hf].
    + rewrite Hq. replace 14 with (20 + -6) by lia.
      rewrite <- mag_pow10 by lia. apply mag_lt.
      assert (2 ^ 64 < 10 ^ 20) by reflexivity. lia.
    + discriminate.
    + exists f. split; [exact Hf|].
      rewrite (div_exact _ _ f n (-6) Ha Hb Hcf ltac:(discriminate) Hq Hf).
      now rewrite Va, Vb.
Qed.

Lemma parse_lifinity_pool_bytes_long (data : list Byte.byte) :
  (88 <= length data)%nat ->
  exists fee_rate,
    Dec.div (Dec.of_int (little_endian (take 8 (drop 80 data))))
            (Dec.of_int 1000000) = Ok fee_rate /\
    (Dec.value fee_rate
     == inject_Z (little_endian (take 8 (drop 80 data))) / 1000000)%Q /\
    parse_lifinity_pool_bytes data =
    Parsed (mkPool (hex (take 32 data)) (hex (take 32 (drop 32 data)))
              (Dec.of_int (little_endian (take 8 (drop 64 data))))
              (Dec.of_int (little_endian (take 8 (drop 72 data))))
              (Some fee_rate) "lifinity").
Proof.
  intros Hlen. unfold parse_lifinity_pool_bytes.
  rewrite !unpack_from_Q_is_Some by lia.
  destruct (div_micro (little_endian (take 8 (drop 80 data)))) as (f & Hf & Vf).
  - apply (unpack_from_Q_Some data 80). apply unpack_from_Q_is_Some. lia.
  - exists f. split; [exact Hf|]. split; [exact Vf|]. now rewrite Hf.
Qed.

Lemma parse_lifinity_pool_bytes_short (data : list Byte.byte) :
  (length data < 88)%nat ->
  parse_lifinity_pool_bytes data = ParseRaises StructError.
Proof.
  intros Hlen. unfold parse_lifinity_pool_bytes.
  destruct (unpack_from_Q data 64); [|reflexivity].
  destruct (unpack_from_Q data 72); [|reflexivity].
  now rewrite (unpack_from_Q_None data 80) by lia.
Qed.

(** X9. An account is decoded exactly when its data has at least 88
    bytes: then a pool is returned, and no Decimal exception can occur;
    on shorter data [struct.error] is raised. *)
Theorem parse_lifinity_pool_data_length
    (b64decode : string -> option (list Byte.byte)) (data_b64 : string)
    (data : list Byte.byte) :
  b64decode data_b64 = Some data ->
  ((88 <= length data)%nat ->
   exists pool, parse_lifinity_pool_data b64decode data_b64 = Parsed pool) /\
  ((length data < 88)%nat ->
   parse_lifinity_pool_data b64decode data_b64 = ParseRaises StructError).
Proof.
  intros Hdec. unfold parse_lifinity_pool_data. rewrite Hdec. split.
  - intros Hlen.
    destruct (parse_lifinity_pool_bytes_long data Hlen) as (f & _ & _ & ->).
    eauto.
  - apply parse_lifinity_pool_bytes_short.
Qed.

(** X10. Only the first 88 bytes of the account data are read: two
    accounts that agree on them decode to the same pool. *)
Theorem parse_lifinity_pool_data_prefix
    (b64decode : string -> option (list Byte.byte)) (s1 s2 : string)
    (data1 data2 : list Byte.byte) :
  b64decode s1 = Some data1 ->
  b64decode s2 = Some data2 ->
  (88 <= length data1)%nat ->
  take 88 data1 = take 88 data2 ->
  parse_lifinity_pool_data b64decode s1 = parse_lifinity_pool_data b64decode s2.
Proof.
  intros H1 H2 Hlen Hpre. unfold parse_lifinity_pool_data. rewrite H1, H2.
  assert (Hlen2 : (88 <= length data2)%nat).
  { apply (f_equal length) in Hpre. rewrite !length_take in Hpre. lia. }
  assert (Hfield : forall off n, (off + n <= 88)%nat ->
            take n (drop off data1) = take n (drop off data2)).
  { intros off n Hoff.
    rewrite !take_drop_commute.
    replace (take (off + n) data1) with (take (off + n) (take 88 data1))
      by (rewrite take_take; f_equal; lia).
    replace (take (off + n) data2) with (take (off + n) (take 88 data2))
      by (rewrite take_take; f_equal; lia).
    now rewrite Hpre. }
  destruct (parse_lifinity_pool_bytes_long data1 Hlen) as (f1 & Hf1 & _ & ->).
  destruct (parse_lifinity_pool_bytes_long data2 Hlen2) as (f2 & Hf2 & _ & ->).
  rewrite (Hfield 80 8)%nat in Hf1 by lia.
  assert (f1 = f2) by congruence. subst f2.
  rewrite <- (Hfield 0 32 ltac:(lia))%nat at 1.
  rewrite (Hfield 32 32)%nat, (Hfield 64 8)%nat, (Hfield 72 8)%nat by lia.
  reflexivity.
Qed.


(** X12. Asset identifiers of decoded pools: each is the 64-character
    hexadecimal spelling of a 32-byte mint, and two identifiers are equal
    exactly when the mints are.  In particular the decoded pool has two
    distinct assets exactly when its two mints differ. *)
Theorem parse_lifinity_pool_data_mints
    (b64decode : string -> option (list Byte.byte)) (s1 s2 : string)
    (data1 data2 : list Byte.byte) (pool1 pool2 : Pool) :
  b64decode s1 = Some data1 ->
  b64decode s2 = Some data2 ->
  parse_lifinity_pool_data b64decode s1 = Parsed pool1 ->
  parse_lifinity_pool_data b64decode s2 = Parsed pool2 ->
  String.length (token_a pool1) = 64%nat /\
  String.length (token_b pool1) = 64%nat /\
  (token_a pool1 = token_a pool2 <-> take 32 data1 = take 32 data2) /\
  (token_b pool1 = token_b pool2 <->
   take 32 (drop 32 data1) = take 32 (drop 32 data2)) /\
  (token_a pool1 = token_b pool1 <-> take 32 data1 = take 32 (drop 32 data1)).
Proof.
  intros H1 H2. unfold parse_lifinity_pool_data. rewrite H1, H2.
  intros P1 P2.
  assert (L1 : (88 <= length data1)%nat).
  { destruct (Nat.le_gt_cases 88 (length data1)) as [H|H]; [exact H|].
    rewrite parse_lifinity_pool_bytes_short in P1 by exact H. discriminate. }
  assert (L2 : (88 <= length data2)%nat).
  { destruct (Nat.le_gt_cases 88 (length data2)) as [H|H]; [exact H|].
    rewrite parse_lifinity_pool_bytes_short in P2 by exact H. discriminate. }
  destruct (parse_lifinity_pool_bytes_long data1 L1) as (f1 & _ & _ & E1).
  destruct (parse_lifinity_pool_bytes_long data2 L2) as (f2 & _ & _ & E2).
  rewrite E1 in P1. rewrite E2 in P2.
  injection P1 as <-. injection P2 as <-. cbn [token_a token_b].
  rewrite !hex_length, !length_take, !length_drop.
  repeat split; try lia;
    first [ apply hex_injective | intros ->; reflexivity ].
Qed.

(** * Signs *)

Local Open Scope Z_scope.

Lemma fix_sign (d u : Decimal) : Dec.fix_ d = Ok u -> Dec.d_sign u = Dec.d_sign d.
Proof.
  unfold Dec.fix_. intros H. cbv zeta in H.
  repeat match type of H with
         | (if ?b then _ else _) = _ => destruct b
         end; try discriminate; injection H as <-; reflexivity.
Qed.

Lemma value_nonneg_of_sign (u : Decimal) :
  Dec.d_sign u = false -> (0 <= Dec.value u)%Q.
Proof.
  intros Hs. rewrite (value_mag u Hs). unfold mag.
  apply Qmult_le_0_compat; [|apply Qlt_le_weak, pow10_pos].
  change 0%Q with (inject_Z 0). rewrite <- Zle_Qle. apply coeff_nonneg.
Qed.

Lemma value_nonneg_cases (d : Decimal) :
  (0 <= Dec.value d)%Q ->
  Dec.is_zero d = true \/ (Dec.is_zero d = false /\ Dec.d_sign d = false).
Proof.
  intros Hd. destruct (Dec.is_zero d) eqn:Hz; [now left|right].
  split; [reflexivity|].
  destruct (Qlt_le_dec 0 (Dec.value d)) as [Hpos|Hle].
  - now destruct (value_pos_inv d Hpos).
  - assert (E : (Dec.value d == 0)%Q) by lra.
    apply value_zero_inv in E. congruence.
Qed.

Lemma fix_nonneg (s : bool) (c e : Z) (u : Decimal) :
  s = false -> Dec.fix_ (Dec.dec_from_triple s c e) = Ok u ->
  (0 <= Dec.value u)%Q.
Proof.
  intros -> H. apply fix_sign in H. now apply value_nonneg_of_sign.
Qed.

Lemma mul_nonneg (a b u : Decimal) :
  (0 <= Dec.value a)%Q -> (0 <= Dec.value b)%Q ->
  Dec.mul a b = Ok u -> (0 <= Dec.value u)%Q.
Proof.
  intros Ha Hb Hmul.
  destruct (value_nonneg_cases a Ha) as [Hza|[Hza Hsa]].
  - rewrite (value_zero u); [apply Qle_refl|].
    apply (mul_zero a b); [now rewrite Hza | exact Hmul].
  - destruct (value_nonneg_cases b Hb) as [Hzb|[Hzb Hsb]].
    + rewrite (value_zero u); [apply Qle_refl|].
      apply (mul_zero a b); [rewrite Hzb; apply orb_true_r | exact Hmul].
    + unfold Dec.mul in Hmul. rewrite Hza, Hzb, Hsa, Hsb in Hmul.
      cbn [orb xorb] in Hmul.
      repeat match type of Hmul with
             | (if ?c then _ else _) = _ => destruct c
             end; now apply fix_nonneg in Hmul.
Qed.

Lemma rescale_pad_sign (d : Decimal) (e : Z) :
  Dec.d_sign (Dec.rescale_pad d e) = Dec.d_sign d.
Proof. unfold Dec.rescale_pad. now destruct (Dec.is_zero d). Qed.

Lemma add_nonneg (a b u : Decimal) :
  (0 <= Dec.value a)%Q -> (0 <= Dec.value b)%Q ->
  Dec.add a b = Ok u -> (0 <= Dec.value u)%Q.
Proof.
  intros Ha Hb Hadd. unfold Dec.add in Hadd.
  destruct (value_nonneg_cases a Ha) as [Hza|[Hza Hsa]];
    destruct (value_nonneg_cases b Hb) as [Hzb|[Hzb Hsb]];
    rewrite Hza, Hzb in Hadd; cbn [andb] in Hadd.
  - rewrite (value_zero u); [apply Qle_refl|].
    eapply fix_zero; [|exact Hadd]. apply is_zero_triple_0.
  - apply fix_sign in Hadd. rewrite rescale_pad_sign in Hadd.
    apply value_nonneg_of_sign. congruence.
  - apply fix_sign in Hadd. rewrite rescale_pad_sign in Hadd.
    apply value_nonneg_of_sign. congruence.
  - destruct (Dec.normalize _ _ _ _) as [[c1 c2] ne].
    rewrite Hsa, Hsb in Hadd. cbn [Bool.eqb] in Hadd.
    now apply fix_nonneg in Hadd.
Qed.

(** [1 - fee] is not negative when [fee <= 1]. *)
Lemma sub_one_nonneg (fee_rate g : Decimal) :
  (Dec.value fee_rate <= 1)%Q ->
  Dec.sub (Dec.of_int 1) fee_rate = Ok g -> (0 <= Dec.value g)%Q.
Proof.
  intros Hfee Hsub. unfold Dec.sub, Dec.add in Hsub.
  change (Dec.is_zero (Dec.of_int 1)) with false in Hsub.
  change (Dec.d_sign (Dec.of_int 1)) with false in Hsub.
  change (Dec.coeff (Dec.of_int 1)) with 1 in Hsub.
  change (Dec.d_exp (Dec.of_int 1)) with 0 in Hsub.
  cbn [andb] in Hsub.
  assert (Hz : Dec.is_zero (Dec.copy_negate fee_rate) = Dec.is_zero fee_rate)
    by reflexivity.
  assert (Hc : Dec.coeff (Dec.copy_negate fee_rate) = Dec.coeff fee_rate)
    by reflexivity.
  rewrite Hz, Hc in Hsub. cbn [Dec.d_sign Dec.d_exp Dec.copy_negate] in Hsub.
  destruct (Dec.is_zero fee_rate) eqn:Hzf.
  - apply fix_sign in Hsub. rewrite rescale_pad_sign in Hsub.
    now apply value_nonneg_of_sign.
  - destruct (Dec.normalize 1 0 (Dec.coeff fee_rate) (Dec.d_exp fee_rate))
      as [[c1 c2] ne] eqn:Hnorm.
    destruct (Dec.d_sign fee_rate) eqn:Hsf; cbn [negb Bool.eqb] in Hsub.
    + now apply fix_nonneg in Hsub.
    + assert (Hle : c2 <= c1).
      { unfold Dec.is_zero in Hzf. apply Z.eqb_neq in Hzf.
        pose proof (coeff_nonneg fee_rate) as Hnn.
        assert (Hv : (mag (Dec.coeff fee_rate) (Dec.d_exp fee_rate) <= 1)%Q)
          by (rewrite <- (value_mag _ Hsf); exact Hfee).
        set (cf := Dec.coeff fee_rate) in *. set (ef := Dec.d_exp fee_rate) in *.
        assert (Hef : ef <= 0 /\ cf <= 10 ^ (- ef)).
        { destruct (Z.lt_ge_cases 0 ef) as [Hpos|Hneg].
          - exfalso.
            assert (H10 : (mag 1 1 <= mag cf ef)%Q).
            { eapply Qle_trans; [|apply (mag_le 1 cf); lia].
              replace ef with (1 + (ef - 1)) by lia.
              rewrite <- (mag_shift 1 1 (ef - 1)) by lia.
              apply mag_le. pose proof (Z.pow_pos_nonneg 10 (ef - 1)). lia. }
            assert (E : (mag 1 1 == 10)%Q) by reflexivity. lra.
          - split; [exact Hneg|].
            rewrite Zle_Qle, <- pow10_Z by lia.
            assert (E : (inject_Z cf == mag cf ef * pow10 (- ef))%Q).
            { unfold mag. rewrite <- Qmult_assoc, pow10_cancel. ring. }
            rewrite E. rewrite <- (Qmult_1_l (pow10 (- ef))) at 2.
            apply Qmult_le_compat_r; [exact Hv | apply Qlt_le_weak, pow10_pos]. }
        destruct Hef as [Hef Hcf].
        unfold Dec.normalize in Hnorm.
        rewrite (proj2 (Z.ltb_ge 0 ef)) in Hnorm by exact Hef.
        change (Dec.len 1) with 1 in Hnorm.
        change (0 + Z.min (-1) (1 - Dec.prec - 2)) with (-29) in Hnorm.
        destruct (Dec.len cf + ef - 1 <? -29); injection Hnorm as <- <- _.
        - vm_compute. discriminate.
        - rewrite Z.mul_1_l, Z.sub_0_l. exact Hcf. }
      destruct (c1 =? c2); [now apply fix_nonneg in Hsub|].
      destruct (Z.ltb_spec c1 c2); [lia|]. now apply fix_nonneg in Hsub.
Qed.

Lemma simulate_swap_value_nonneg (amount_in : Decimal) (pool : Pool)
    (input_token : string) (u : Decimal) :
  (0 <= Dec.value amount_in)%Q ->
  (0 <= Dec.value (reserve_a pool))%Q ->
  (0 <= Dec.value (reserve_b pool))%Q ->
  (Dec.value (fee_rate pool) <= 1)%Q ->
  simulate_swap amount_in pool input_token = Ok u ->
  (0 <= Dec.value u)%Q.
Proof.
  intros Hx Hra Hrb Hfee Hrun.
  unfold simulate_swap in Hrun.
  destruct (reserves pool input_token) as [[rin rout]|] eqn:Hres.
  - assert (Hrr : (0 <= Dec.value rin)%Q /\ (0 <= Dec.value rout)%Q).
    { unfold reserves in Hres.
      destruct (decide _); [injection Hres as <- <-; auto|].
      destruct (decide _); [injection Hres as <- <-; auto|discriminate]. }
    destruct Hrr as [Hrin Hrout].
    apply bind_Ok in Hrun as (g & Hg & Hrun).
    apply bind_Ok in Hrun as (aaf & Haaf & Hrun).
    apply bind_Ok in Hrun as (n & Hn & Hrun).
    apply bind_Ok in Hrun as (d & Hd & Hrun).
    assert (Hg0 : (0 <= Dec.value g)%Q) by now apply (sub_one_nonneg _ g Hfee).
    assert (Ha0 : (0 <= Dec.value aaf)%Q) by now apply (mul_nonneg amount_in g).
    assert (Hn0 : (0 <= Dec.value n)%Q) by now apply (mul_nonneg aaf rout).
    assert (Hd0 : (0 <= Dec.value d)%Q) by now apply (add_nonneg rin aaf).
    destruct (div_nonneg n d u Hn0 Hd0 Hrun) as [Hdpos Hu].
    destruct Hu as [[_ ->]|(Hnpos & c & k & Hr & ->)]; [apply Qle_refl|].
    assert (0 <= c).
    { eapply is_rounding_nonneg; [|exact Hr].
      apply Qlt_shift_div_l; [exact Hdpos | lra]. }
    unfold mag. apply Qmult_le_0_compat; [|apply Qlt_le_weak, pow10_pos].
    change 0%Q with (inject_Z 0). now rewrite <- Zle_Qle.
  - injection Hrun as <-. vm_compute. discriminate.
Qed.

(** X13. A swap never returns a negative amount: for a non-negative
    amount, non-negative reserves on both sides and a fee rate of at most
    1, every value [simulate_swap] returns is [>= 0], whatever rounding
    occurred on the way. *)
Theorem simulate_swap_nonneg (amount_in : Decimal) (pool : Pool)
    (input_token : string) (u : Decimal) :
  (0 <= Dec.value amount_in)%Q ->
  (0 <= Dec.value (reserve_a pool))%Q ->
  (0 <= Dec.value (reserve_b pool))%Q ->
  (Dec.value (fee_rate pool) <= 1)%Q ->
  simulate_swap amount_in pool input_token = Ok u ->
  Dec.le (Dec.of_int 0) u = true.
Proof.
  intros Hx Hra Hrb Hfee Hrun. apply le_spec.
  change (Dec.value (Dec.of_int 0)) with (0 * pow10 0)%Q.
  assert (E0 : (0 * pow10 0 == 0)%Q) by ring. rewrite E0.
  now apply (simulate_swap_value_nonneg amount_in pool input_token).
Qed.

Lemma le_zero_of_is_zero (a : Decimal) :
  Dec.is_zero a = true -> Dec.le a (Dec.of_int 0) = true.
Proof. intros Hz. unfold Dec.le, Dec.cmp. now rewrite Hz. Qed.

(** X14. A zero amount finds nothing: with [amount_in] zero the search
    returns the empty list whenever it returns, because every first hop
    prices to zero and is skipped. *)
Theorem find_arbitrage_opportunities_zero_amount (pools : list Pool)
    (base_token : string) (amount_in min_profit : Decimal)
    (opps : list Opportunity) :
  Dec.is_zero amount_in = true ->
  find_arbitrage_opportunities pools base_token amount_in min_profit = Ok opps ->
  opps = [].
Proof.
  intros Hz Hrun. apply find_arbitrage_opportunities_sound in Hrun.
  destruct opps as [|o opps]; [reflexivity|exfalso].
  apply Forall_cons in Hrun as [Ho _]. destruct Ho.
  assert (Hzero : Dec.is_zero amt1 = true).
  { apply (simulate_swap_zero amount_in p1 base_token); [now left|assumption]. }
  apply le_zero_of_is_zero in Hzero. congruence.
Qed.

(** * Exponent ranges: when the simulator cannot overflow *)

(** One more than [d.adjusted()]: the position just above the leading
    digit. *)
Definition top (d : Decimal) : Z := Dec.len (Dec.coeff d) + Dec.d_exp d.

Lemma len_pos (n : Z) : 0 <= n -> 1 <= Dec.len n.
Proof.
  intros Hn. destruct (Z.eq_dec n 0) as [->|Hnz]; [reflexivity|].
  now destruct (len_spec n ltac:(lia)).
Qed.

Lemma len_mul (a b : Z) :
  0 < a -> 0 < b -> Dec.len (a * b) <= Dec.len a + Dec.len b.
Proof.
  intros Ha Hb.
  destruct (len_spec a Ha) as (Ha1 & _ & Hahi).
  destruct (len_spec b Hb) as (Hb1 & _ & Hbhi).
  apply len_upper; [nia|]. rewrite Z.pow_add_r by lia. nia.
Qed.

Lemma len_mul_pow10 (c k : Z) :
  0 < c -> 0 <= k -> Dec.len (c * 10 ^ k) = Dec.len c + k.
Proof.
  intros Hc Hk. destruct (len_spec c Hc) as (H1 & Hlo & Hhi).
  pose proof (Z.pow_pos_nonneg 10 k ltac:(lia) Hk) as Hp.
  assert (Hup : Dec.len (c * 10 ^ k) <= Dec.len c + k).
  { apply len_upper; [nia|]. rewrite Z.pow_add_r by lia. nia. }
  assert (Hlow : Dec.len c - 1 + k < Dec.len (c * 10 ^ k)).
  { apply len_lower; [lia|]. rewrite Z.pow_add_r by lia. nia. }
  lia.
Qed.

Lemma len_mono (a b : Z) : 0 < a <= b -> Dec.len a <= Dec.len b.
Proof.
  intros [Ha Hab]. destruct (len_spec b ltac:(lia)) as (_ & _ & Hhi).
  apply len_upper; lia.
Qed.

Lemma len_add (a b : Z) :
  0 < a -> 0 < b -> Dec.len (a + b) <= Z.max (Dec.len a) (Dec.len b) + 1.
Proof.
  intros Ha Hb.
  destruct (len_spec a Ha) as (Ha1 & _ & Hahi).
  destruct (len_spec b Hb) as (Hb1 & _ & Hbhi).
  set (m := Z.max (Dec.len a) (Dec.len b)).
  assert (Hpa : 10 ^ Dec.len a <= 10 ^ m) by (apply Z.pow_le_mono_r; lia).
  assert (Hpb : 10 ^ Dec.len b <= 10 ^ m) by (apply Z.pow_le_mono_r; lia).
  apply len_upper; [lia|]. rewrite Z.pow_add_r by lia. lia.
Qed.

Lemma round_int_lower (c M : Z) : 0 < M -> c / M <= round_int c M.
Proof.
  intros HM. unfold round_int.
  repeat match goal with |- context [if ?b then _ else _] => destruct b end; lia.
Qed.

(** [fix_] on an operand whose exponent and leading digit are in range:
    it returns, the exponent does not go down, the leading digit goes up
    by at most one place, and a non-zero operand stays non-zero. *)
Lemma fix_bounds (s : bool) (c e T : Z) :
  0 <= c -> Dec.Etiny <= e -> Dec.len c + e <= T -> T <= Dec.Emax ->
  exists u, Dec.fix_ (Dec.dec_from_triple s c e) = Ok u /\
            e <= Dec.d_exp u /\ top u <= T + 1 /\
            (0 < c -> Dec.is_zero u = false).
Proof.
  intros Hc He HT HE.
  assert (Htiny : Dec.Etiny = -1000026) by reflexivity.
  assert (Hmax : Dec.Emax = 999999) by reflexivity.
  assert (Hprec : Dec.prec = 28) by reflexivity.
  destruct (Z.eq_dec c 0) as [->|Hnz].
  - eexists. split; [reflexivity|].
    change (Dec.len 0) with 1 in HT.
    cbn [Dec.d_exp Dec.dec_from_triple Dec.d_sign]. unfold top.
    rewrite coeff_from_triple by lia. cbn [Dec.d_exp Dec.dec_from_triple].
    change (Dec.len 0) with 1. repeat split; lia.
  - assert (Hpos : 0 < c) by lia.
    destruct (fix_ok s c e Hpos ltac:(lia)) as [u Hu]. exists u.
    split; [exact Hu|].
    destruct (len_spec c Hpos) as (HL1 & HLlo & HLhi).
    pose proof (fix_nonzero_cases s c e u Hpos Hu) as Hcases. cbv zeta in Hcases.
    set (L := Dec.len c) in *.
    destruct Hcases as [(Hlt & Hneg & _)|[(Hlt & Hge & Hr)|(Hle & ->)]].
    + exfalso. lia.
    + assert (Hk : Z.max (L + e - Dec.prec) Dec.Etiny = L + e - Dec.prec) by lia.
      rewrite Hk in *. replace (L + e - Dec.prec - e) with (L - Dec.prec) in Hr by lia.
      destruct Hr as [[_ ->]|[Hr ->]].
      * unfold top.
        rewrite is_zero_from_triple by (apply Z.pow_pos_nonneg; lia).
        rewrite coeff_from_triple by (apply Z.pow_nonneg; lia).
        cbn [Dec.d_exp Dec.dec_from_triple].
        assert (E : Dec.len (10 ^ (Dec.prec - 1)) = 28) by reflexivity.
        rewrite E. repeat split; lia.
      * assert (Hlow : 10 ^ (Dec.prec - 1) <= round_int c (10 ^ (L - Dec.prec))).
        { eapply Z.le_trans; [|apply round_int_lower; apply Z.pow_pos_nonneg; lia].
          apply Z.div_le_lower_bound; [apply Z.pow_pos_nonneg; lia|].
          rewrite <- Z.pow_add_r by lia.
          replace (L - Dec.prec + (Dec.prec - 1)) with (L - 1) by lia.
          exact HLlo. }
        assert (Hrpos : 0 < round_int c (10 ^ (L - Dec.prec))).
        { pose proof (Z.pow_pos_nonneg 10 (Dec.prec - 1)). lia. }
        unfold top. rewrite is_zero_from_triple, coeff_from_triple by lia.
        cbn [Dec.d_exp Dec.dec_from_triple].
        pose proof (len_upper _ _ Hrpos Hr). repeat split; lia.
    + unfold top. rewrite is_zero_from_triple, coeff_from_triple by lia.
      cbn [Dec.d_exp Dec.dec_from_triple]. fold L. repeat split; lia.
Qed.

Lemma top_ge (d : Decimal) : Dec.d_exp d + 1 <= top d.
Proof. unfold top. pose proof (len_pos _ (coeff_nonneg d)). lia. Qed.

Lemma mul_bounds (a b : Decimal) :
  Dec.Etiny <= Dec.d_exp a + Dec.d_exp b -> top a + top b <= Dec.Emax ->
  exists u, Dec.mul a b = Ok u /\
            Dec.d_exp a + Dec.d_exp b <= Dec.d_exp u /\
            top u <= top a + top b + 1.
Proof.
  intros He HT. pose proof (top_ge a) as Ha. pose proof (top_ge b) as Hb.
  pose proof (coeff_nonneg a) as Hca. pose proof (coeff_nonneg b) as Hcb.
  pose proof (len_pos _ Hca) as Hla. pose proof (len_pos _ Hcb) as Hlb.
  unfold Dec.mul.
  destruct (Dec.is_zero a || Dec.is_zero b) eqn:Hz.
  - destruct (fix_bounds (xorb (Dec.d_sign a) (Dec.d_sign b)) 0
                (Dec.d_exp a + Dec.d_exp b) (top a + top b))
      as (u & Hu & H1 & H2 & _);
      [lia | exact He | change (Dec.len 0) with 1; lia | exact HT |].
    exists u. auto.
  - apply orb_false_iff in Hz as [Hza Hzb].
    unfold Dec.is_zero in Hza, Hzb. apply Z.eqb_neq in Hza, Hzb.
    assert (Hmul := len_mul (Dec.coeff a) (Dec.coeff b) ltac:(lia) ltac:(lia)).
    unfold top in *.
    destruct (Dec.coeff a =? 1); [|destruct (Dec.coeff b =? 1)];
      match goal with
      | |- exists u, Dec.fix_ (Dec.dec_from_triple ?s ?c ?e) = _ /\ _ =>
          destruct (fix_bounds s c e
                      (Dec.len (Dec.coeff a) + Dec.d_exp a +
                       (Dec.len (Dec.coeff b) + Dec.d_exp b)))
            as (u & Hu & H1 & H2 & _); [nia | exact He | lia | exact HT |];
          exists u; auto
      end.
Qed.

Lemma normalize_bounds (c1 e1 c2 e2 c1' c2' ne : Z) :
  0 < c1 -> 0 < c2 ->
  Dec.normalize c1 e1 c2 e2 = (c1', c2', ne) ->
  0 < c1' /\ 0 < c2' /\ Z.min e1 e2 <= ne /\
  Dec.len c1' + ne <= Z.max (Dec.len c1 + e1) (Dec.len c2 + e2) /\
  Dec.len c2' + ne <= Z.max (Dec.len c1 + e1) (Dec.len c2 + e2).
Proof.
  intros H1 H2 Hn.
  pose proof (len_pos c1 ltac:(lia)) as Hl1.
  pose proof (len_pos c2 ltac:(lia)) as Hl2.
  assert (Hprec : Dec.prec = 28) by reflexivity.
  assert (Hone : Dec.len 1 = 1) by reflexivity.
  unfold Dec.normalize in Hn. cbv zeta in Hn.
  destruct (Z.ltb_spec e1 e2) as [Hs|Hs];
    match type of Hn with
    | context [if ?l <? ?r then _ else _] =>
        destruct (Z.ltb_spec l r) as [Ht|Ht]
    end; injection Hn as <- <- <-;
    rewrite ?Hone, ?len_mul_pow10 by lia;
    repeat split; try lia;
    apply Z.mul_pos_pos; try lia; apply Z.pow_pos_nonneg; lia.
Qed.

Lemma add_bounds (a b : Decimal) :
  Dec.Etiny <= Z.min (Dec.d_exp a) (Dec.d_exp b) ->
  Z.max (top a) (top b) + 1 <= Dec.Emax ->
  exists u, Dec.add a b = Ok u /\
            Z.min (Dec.d_exp a) (Dec.d_exp b) <= Dec.d_exp u /\
            top u <= Z.max (top a) (top b) + 2 /\
            (Dec.is_zero a = false ->
             Dec.is_zero b = true \/ Dec.d_sign b = Dec.d_sign a ->
             Dec.is_zero u = false).
Proof.
  intros He HT. pose proof (top_ge a) as Ha. pose proof (top_ge b) as Hb.
  pose proof (coeff_nonneg a) as Hca. pose proof (coeff_nonneg b) as Hcb.
  assert (Hprec : Dec.prec = 28) by reflexivity.
  set (m := Z.min (Dec.d_exp a) (Dec.d_exp b)) in *.
  set (T := Z.max (top a) (top b)) in *.
  unfold Dec.add. fold m.
  destruct (Dec.is_zero a) eqn:Hza; destruct (Dec.is_zero b) eqn:Hzb;
    cbn [andb].
  - destruct (fix_bounds (Dec.d_sign a && Dec.d_sign b) 0 m (T + 1))
      as (u & Hu & H1 & H2 & _);
      [lia | exact He | change (Dec.len 0) with 1; lia | exact HT |].
    exists u. repeat split; auto; try lia; discriminate.
  - unfold Dec.rescale_pad. rewrite Hzb.
    unfold Dec.is_zero in Hzb. apply Z.eqb_neq in Hzb.
    set (e' := Z.max m (Dec.d_exp b - Dec.prec - 1)).
    destruct (fix_bounds (Dec.d_sign b)
                (Dec.coeff b * 10 ^ (Dec.d_exp b - e')) e' (T + 1))
      as (u & Hu & H1 & H2 & _);
      [ apply Z.mul_nonneg_nonneg; [lia | apply Z.pow_nonneg; lia]
      | lia
      | rewrite len_mul_pow10 by lia; unfold top in *; lia
      | exact HT |].
    exists u. repeat split; auto; try lia; discriminate.
  - unfold Dec.rescale_pad. rewrite Hza.
    unfold Dec.is_zero in Hza. apply Z.eqb_neq in Hza.
    set (e' := Z.max m (Dec.d_exp a - Dec.prec - 1)).
    destruct (fix_bounds (Dec.d_sign a)
                (Dec.coeff a * 10 ^ (Dec.d_exp a - e')) e' (T + 1))
      as (u & Hu & H1 & H2 & H3);
      [ apply Z.mul_nonneg_nonneg; [lia | apply Z.pow_nonneg; lia]
      | lia
      | rewrite len_mul_pow10 by lia; unfold top in *; lia
      | exact HT |].
    exists u. repeat split; auto; try lia. intros _ _. apply H3.
    apply Z.mul_pos_pos; [lia | apply Z.pow_pos_nonneg; lia].
  - unfold Dec.is_zero in Hza, Hzb. apply Z.eqb_neq in Hza, Hzb.
    destruct (Dec.normalize _ _ _ _) as [[c1 c2] ne] eqn:Hn.
    apply normalize_bounds in Hn as (Hc1 & Hc2 & Hne & Hl1 & Hl2); [|lia|lia].
    fold (top a) (top b) in Hl1, Hl2. fold m in Hne. fold T in Hl1, Hl2.
    destruct (Bool.eqb (Dec.d_sign a) (Dec.d_sign b)) eqn:Hs.
    + pose proof (len_add c1 c2 Hc1 Hc2) as Hadd.
      destruct (fix_bounds (Dec.d_sign a) (c1 + c2) ne (T + 1))
        as (u & Hu & H1 & H2 & H3); [lia | lia | lia | exact HT |].
      exists u. repeat split; auto; try lia. intros _ _. apply H3. lia.
    + destruct (Z.eqb_spec c1 c2) as [Heq|Hneq].
      * destruct (fix_bounds false 0 m (T + 1))
          as (u & Hu & H1 & H2 & _);
          [lia | exact He | change (Dec.len 0) with 1; lia | exact HT |].
        exists u. repeat split; auto; try lia.
        intros _ [H|H]; [discriminate|].
        rewrite H in Hs. now rewrite Bool.eqb_reflx in Hs.
      * destruct (Z.ltb_spec c1 c2) as [Hlt|Hge].
        -- pose proof (len_mono (c2 - c1) c2 ltac:(lia)) as Hm.
           destruct (fix_bounds (Dec.d_sign b) (c2 - c1) ne (T + 1))
             as (u & Hu & H1 & H2 & H3); [lia | lia | lia | exact HT |].
           exists u. repeat split; auto; try lia. intros _ _. apply H3. lia.
        -- pose proof (len_mono (c1 - c2) c1 ltac:(lia)) as Hm.
           destruct (fix_bounds (Dec.d_sign a) (c1 - c2) ne (T + 1))
             as (u & Hu & H1 & H2 & H3); [lia | lia | lia | exact HT |].
           exists u. repeat split; auto; try lia. intros _ _. apply H3. lia.
Qed.

Lemma strip_to_ideal_bounds (fuel : nat) (c e ideal c' e' : Z) :
  0 < c ->
  Dec.strip_to_ideal fuel c e ideal = (c', e') ->
  0 < c' /\ e <= e' /\ Dec.len c' + e' = Dec.len c + e.
Proof.
  revert c e. induction fuel as [|fuel IH]; intros c e Hc Hs; simpl in Hs.
  - injection Hs as <- <-. lia.
  - destruct ((e <? ideal) && (c mod 10 =? 0)) eqn:Hcond.
    + apply andb_true_iff in Hcond as [_ Hmod]. apply Z.eqb_eq in Hmod.
      assert (Hc10 : c = c / 10 * 10 ^ 1).
      { pose proof (Z.div_mod c 10 ltac:(lia)). change (10 ^ 1) with 10. lia. }
      assert (Hpos : 0 < c / 10) by (change (10 ^ 1) with 10 in Hc10; lia).
      destruct (IH (c / 10) (e + 1) Hpos Hs) as (Hc' & He' & Hlen).
      pose proof (len_mul_pow10 (c / 10) 1 Hpos ltac:(lia)) as Hl.
      rewrite <- Hc10 in Hl. lia.
    + injection Hs as <- <-. lia.
Qed.

Lemma div_scaled_upper (ca cb : Z) :
  0 < ca -> 0 < cb ->
  let shift := Dec.len cb - Dec.len ca + Dec.prec + 1 in
  let n := if 0 <=? shift then ca * 10 ^ shift else ca in
  let m := if 0 <=? shift then cb else cb * 10 ^ (- shift) in
  n < 10 ^ (Dec.prec + 2) * m.
Proof.
  intros Ha Hb shift n m.
  destruct (len_spec ca Ha) as (HLa & Halo & Hahi).
  destruct (len_spec cb Hb) as (HLb & Hblo & Hbhi).
  assert (Hprec : Dec.prec = 28) by reflexivity.
  set (La := Dec.len ca) in *. set (Lb := Dec.len cb) in *.
  subst n m. destruct (Z.leb_spec 0 shift) as [Hs|Hs].
  - assert (E : 10 ^ La * 10 ^ shift = 10 ^ (Dec.prec + 2) * 10 ^ (Lb - 1)).
    { rewrite <- !Z.pow_add_r by lia. f_equal. unfold shift. lia. }
    pose proof (Z.pow_pos_nonneg 10 shift ltac:(lia) Hs).
    pose proof (Z.pow_pos_nonneg 10 (Dec.prec + 2) ltac:(lia) ltac:(lia)).
    nia.
  - assert (E : 10 ^ La = 10 ^ (Dec.prec + 2) * (10 ^ (Lb - 1) * 10 ^ (- shift))).
    { rewrite <- !Z.pow_add_r by lia. f_equal. unfold shift. lia. }
    pose proof (Z.pow_pos_nonneg 10 (- shift) ltac:(lia) ltac:(lia)).
    pose proof (Z.pow_pos_nonneg 10 (Dec.prec + 2) ltac:(lia) ltac:(lia)).
    nia.
Qed.

Lemma div_bounds (a b : Decimal) :
  Dec.is_zero b = false ->
  Dec.Etiny <= Dec.d_exp a - top b - Dec.prec ->
  top a - Dec.d_exp b + 1 <= Dec.Emax ->
  exists u, Dec.div a b = Ok u /\
            Dec.d_exp a - top b - Dec.prec <= Dec.d_exp u /\
            top u <= top a - Dec.d_exp b + 2.
Proof.
  intros Hzb He HT. pose proof (top_ge a) as Ha. pose proof (top_ge b) as Hb.
  pose proof (coeff_nonneg a) as Hca. pose proof (coeff_nonneg b) as Hcb.
  assert (Hprec : Dec.prec = 28) by reflexivity.
  unfold Dec.div. rewrite Hzb.
  unfold Dec.is_zero in Hzb. apply Z.eqb_neq in Hzb.
  destruct (Dec.is_zero a) eqn:Hza.
  - destruct (fix_bounds (xorb (Dec.d_sign a) (Dec.d_sign b)) 0
                (Dec.d_exp a - Dec.d_exp b) (top a - Dec.d_exp b + 1))
      as (u & Hu & H1 & H2 & _);
      [lia | lia | change (Dec.len 0) with 1; lia | exact HT |].
    exists u. repeat split; auto; lia.
  - unfold Dec.is_zero in Hza. apply Z.eqb_neq in Hza.
    assert (Hapos : 0 < Dec.coeff a) by lia.
    assert (Hbpos : 0 < Dec.coeff b) by lia.
    pose proof (div_scaled_bound _ _ Hapos Hbpos) as Hlo.
    pose proof (div_scaled_upper _ _ Hapos Hbpos) as Hhi.
    pose proof (len_pos _ Hca) as Hla.
    cbv zeta in Hlo, Hhi |- *. unfold top in *.
    set (shift := Dec.len (Dec.coeff b) - Dec.len (Dec.coeff a) + Dec.prec + 1) in *.
    set (e := Dec.d_exp a - Dec.d_exp b - shift) in *.
    set (n := if 0 <=? shift then Dec.coeff a * 10 ^ shift else Dec.coeff a) in *.
    set (m := if 0 <=? shift then Dec.coeff b
              else Dec.coeff b * 10 ^ (- shift)) in *.
    destruct Hlo as [Hm Hnm].
    assert (Hp : 0 < 10 ^ Dec.prec) by reflexivity.
    assert (Hq : 10 ^ Dec.prec <= n / m).
    { apply Z.div_le_lower_bound; [exact Hm|]. lia. }
    assert (Hq' : n / m < 10 ^ (Dec.prec + 2)).
    { apply Z.div_lt_upper_bound; [exact Hm|]. lia. }
    assert (Hlq : Dec.len (n / m) <= Dec.prec + 2) by (apply len_upper; lia).
    assert (Hlq1 : Dec.len (n / m + 1) <= Dec.prec + 3).
    { apply len_upper; [lia|].
      replace (Dec.prec + 3) with (Dec.prec + 2 + 1) by lia.
      rewrite (Z.pow_add_r 10 (Dec.prec + 2) 1) by lia.
      change (10 ^ 1) with 10. lia. }
    assert (Hee : e = Dec.d_exp a - Dec.d_exp b - shift) by reflexivity.
    assert (Hsh : shift = Dec.len (Dec.coeff b) - Dec.len (Dec.coeff a)
                          + Dec.prec + 1) by reflexivity.
    destruct (n mod m =? 0).
    + destruct (Dec.strip_to_ideal _ _ _ _) as [q' e'] eqn:Hstrip.
      apply strip_to_ideal_bounds in Hstrip as (Hq'pos & He' & Hlen); [|lia].
      destruct (fix_bounds (xorb (Dec.d_sign a) (Dec.d_sign b)) q' e'
                  (Dec.len (Dec.coeff a) + Dec.d_exp a - Dec.d_exp b + 1))
        as (u & Hu & H1 & H2 & _); [lia | lia | lia | exact HT |].
      exists u. unfold top in *. repeat split; auto; lia.
    + destruct (fix_bounds (xorb (Dec.d_sign a) (Dec.d_sign b))
                  (if (n / m) mod 5 =? 0 then n / m + 1 else n / m) e
                  (Dec.len (Dec.coeff a) + Dec.d_exp a - Dec.d_exp b + 1))
        as (u & Hu & H1 & H2 & _);
        [ destruct (_ =? 0); lia | lia | destruct (_ =? 0); lia | exact HT |].
      exists u. unfold top in *. repeat split; auto; lia.
Qed.

(** [d.adjusted()] and the exponent of [d] lie within [B] places of the
    decimal point. *)
Definition within (B : Z) (d : Decimal) : Prop :=
  - B <= Dec.d_exp d /\ Dec.adjusted d < B.

Lemma within_top (B : Z) (d : Decimal) :
  within B d <-> - B <= Dec.d_exp d /\ top d <= B.
Proof. unfold within, top, Dec.adjusted. lia. Qed.

Lemma within_mono (B B' : Z) (d : Decimal) :
  B <= B' -> within B d -> within B' d.
Proof. unfold within. lia. Qed.

(** A pool whose reserves are positive, whose fee rate is at most 1 and
    whose three numbers lie within [B] places of the decimal point. *)
Definition pool_in_range (B : Z) (pool : Pool) : Prop :=
  within B (reserve_a pool) /\ within B (reserve_b pool) /\
  within B (fee_rate pool) /\
  (0 < Dec.value (reserve_a pool))%Q /\ (0 < Dec.value (reserve_b pool))%Q /\
  (Dec.value (fee_rate pool) <= 1)%Q.

Lemma pool_in_range_mono (B B' : Z) (pool : Pool) :
  B <= B' -> pool_in_range B pool -> pool_in_range B' pool.
Proof.
  intros HB (H1 & H2 & H3 & H4 & H5 & H6).
  unfold pool_in_range. eauto 10 using within_mono.
Qed.

(** On a pool in range, a non-negative amount in range is priced without
    an exception, and the price is in a range five times as wide. *)
Lemma simulate_swap_in_range (B : Z) (amount_in : Decimal) (pool : Pool)
    (input_token : string) :
  B <= 199998 ->
  pool_in_range B pool -> within B amount_in ->
  (0 <= Dec.value amount_in)%Q ->
  exists u, simulate_swap amount_in pool input_token = Ok u /\
            within (5 * B + 33) u /\ (0 <= Dec.value u)%Q.
Proof.
  intros HB (Hra & Hrb & Hfee & Hpa & Hpb & Hf1) Hx Hx0.
  assert (Htiny : Dec.Etiny = -1000026) by reflexivity.
  assert (Hmax : Dec.Emax = 999999) by reflexivity.
  assert (Hprec : Dec.prec = 28) by reflexivity.
  assert (HB1 : 1 <= B).
  { apply within_top in Hx. pose proof (top_ge amount_in). lia. }
  cut (exists u, simulate_swap amount_in pool input_token = Ok u /\
                 within (5 * B + 33) u).
  { intros (u & Hu & Hw). exists u. repeat split; [exact Hu|apply Hw|apply Hw|].
    apply (simulate_swap_value_nonneg amount_in pool input_token);
      auto using Qlt_le_weak. }
  unfold simulate_swap. fold (fee_rate pool).
  destruct (reserves pool input_token) as [[rin rout]|] eqn:Hres.
  - assert (Hrr : (within B rin /\ (0 < Dec.value rin)%Q) /\ within B rout).
    { unfold reserves in Hres.
      destruct (decide _); [injection Hres as <- <-; auto|].
      destruct (decide _); [injection Hres as <- <-; auto|discriminate]. }
    destruct Hrr as [[Hrin Hrin0] Hrout].
    apply within_top in Hrin, Hrout, Hfee, Hx.
    (* 1 - fee *)
    destruct (add_bounds (Dec.of_int 1) (Dec.copy_negate (fee_rate pool)))
      as (g & Hg & Hge & Hgt & _).
    { change (Dec.d_exp (Dec.of_int 1)) with 0.
      change (Dec.d_exp (Dec.copy_negate (fee_rate pool)))
        with (Dec.d_exp (fee_rate pool)). lia. }
    { change (top (Dec.of_int 1)) with 1.
      change (top (Dec.copy_negate (fee_rate pool))) with (top (fee_rate pool)).
      lia. }
    change (Dec.d_exp (Dec.of_int 1)) with 0 in Hge.
    change (top (Dec.of_int 1)) with 1 in Hgt.
    change (Dec.d_exp (Dec.copy_negate (fee_rate pool)))
      with (Dec.d_exp (fee_rate pool)) in Hge.
    change (top (Dec.copy_negate (fee_rate pool)))
      with (top (fee_rate pool)) in Hgt.
    unfold Dec.sub. rewrite Hg. cbn [bind].
    (* amount_in * (1 - fee) *)
    destruct (mul_bounds amount_in g) as (aaf & Haaf & Hae & Hat); [lia|lia|].
    rewrite Haaf. cbn [bind].
    (* amount_after_fee * reserve_out *)
    destruct (mul_bounds aaf rout) as (n & Hn & Hne & Hnt); [lia|lia|].
    rewrite Hn. cbn [bind].
    (* reserve_in + amount_after_fee *)
    destruct (value_pos_inv rin Hrin0) as [Hsr Hcr].
    assert (Hg0 : (0 <= Dec.value g)%Q)
      by now apply (sub_one_nonneg (fee_rate pool) g Hf1).
    assert (Ha0 : (0 <= Dec.value aaf)%Q) by now apply (mul_nonneg amount_in g).
    destruct (add_bounds rin aaf) as (d & Hd & Hde & Hdt & Hdz); [lia|lia|].
    rewrite Hd. cbn [bind].
    assert (Hdnz : Dec.is_zero d = false).
    { apply Hdz.
      - unfold Dec.is_zero. apply Z.eqb_neq. lia.
      - destruct (value_nonneg_cases aaf Ha0) as [Hz|[_ Hs]];
          [now left | right; congruence]. }
    (* the division *)
    destruct (div_bounds n d Hdnz) as (u & Hu & Hue & Hut); [lia|lia|].
    exists u. split; [exact Hu|]. apply within_top. lia.
  - exists (Dec.of_int 0). split; [reflexivity|]. apply within_top.
    change (Dec.d_exp (Dec.of_int 0)) with 0.
    change (top (Dec.of_int 0)) with 1. lia.
Qed.

(** X15. On well-formed data the simulator is total: for a pool with
    positive reserves, a fee rate of at most 1 and all three numbers
    within [B <= 199998] places of the decimal point, and a non-negative
    amount within [B] places, [simulate_swap] raises nothing (no
    overflow, no division by zero) and returns a value within
    [5 * B + 33] places. *)
Theorem simulate_swap_returns (B : Z) (amount_in : Decimal) (pool : Pool)
    (input_token : string) :
  B <= 199998 ->
  pool_in_range B pool -> within B amount_in ->
  (0 <= Dec.value amount_in)%Q ->
  exists u, simulate_swap amount_in pool input_token = Ok u /\
            within (5 * B + 33) u.
Proof.
  intros HB Hp Hx Hx0.
  destruct (simulate_swap_in_range B amount_in pool input_token HB Hp Hx Hx0)
    as (u & Hu & Hw & _).
  eauto.
Qed.

Lemma for_each_returns {A S : Type} (body : S -> A -> result S) (l : list A) :
  (forall s x, x ∈ l -> exists s', body s x = Ok s') ->
  forall s, exists s', for_each body l s = Ok s'.
Proof.
  induction l as [|x l IH]; intros Hbody s; simpl.
  - eauto.
  - destruct (Hbody s x (list_elem_of_here _ _)) as [s1 ->]. cbn [bind].
    apply IH. intros s0 y Hy. apply Hbody. now apply list_elem_of_further.
Qed.

Lemma sub_returns (B : Z) (a b : Decimal) :
  B < Dec.Emax -> within B a -> within B b ->
  exists u, Dec.sub a b = Ok u.
Proof.
  intros HB Ha Hb. apply within_top in Ha, Hb.
  assert (Htiny : Dec.Etiny = -1000026) by reflexivity.
  assert (Hmax : Dec.Emax = 999999) by reflexivity.
  destruct (add_bounds a (Dec.copy_negate b)) as (u & Hu & _).
  - change (Dec.d_exp (Dec.copy_negate b)) with (Dec.d_exp b). lia.
  - change (top (Dec.copy_negate b)) with (top b). lia.
  - exists u. exact Hu.
Qed.

Section Returns.
Variable pools : list Pool.
Variable base_token : string.
Variables amount_in min_profit : Decimal.
Variable B : Z.
Hypothesis B_small : B <= 7991.
Hypothesis pools_in_range : forall p, p ∈ pools -> pool_in_range B p.
Hypothesis amount_in_range : within B amount_in.
Hypothesis amount_nonneg : (0 <= Dec.value amount_in)%Q.

Lemma B_pos : 1 <= B.
Proof.
  apply within_top in amount_in_range. pose proof (top_ge amount_in). lia.
Qed.

Lemma indexed_in_range (B' : Z) (tok : string) (p : Pool) :
  B <= B' -> p ∈ get_pools (index_pools pools) tok -> pool_in_range B' p.
Proof.
  intros HB Hp. apply elem_of_get_pools_index in Hp as [Hp _].
  eapply pool_in_range_mono; [exact HB | now apply pools_in_range].
Qed.

Lemma third_hop_returns (tok1 tok2 : string) (amt2 : Decimal)
    (opportunities : list Opportunity) (p3 : Pool) :
  within (25 * B + 198) amt2 -> (0 <= Dec.value amt2)%Q ->
  p3 ∈ get_pools (index_pools pools) tok2 ->
  exists s', third_hop base_token amount_in min_profit tok1 tok2 amt2
               opportunities p3 = Ok s'.
Proof.
  intros Hw H0 Hp3. pose proof B_pos as HB1. unfold third_hop.
  destruct (negb _); [eauto|].
  destruct (simulate_swap_in_range (25 * B + 198) amt2 p3 tok2)
    as (amt3 & -> & Hw3 & _);
    [lia | apply (indexed_in_range _ tok2); [lia | exact Hp3] | exact Hw
    | exact H0 |].
  cbn [bind].
  destruct (sub_returns (5 * (25 * B + 198) + 33) amt3 amount_in)
    as (profit & ->);
    [ change Dec.Emax with 999999; lia | exact Hw3
    | eapply within_mono; [|exact amount_in_range]; lia |].
  cbn [bind]. destruct (Dec.ge profit min_profit); eauto.
Qed.

Lemma second_hop_returns (tok1 : string) (amt1 : Decimal)
    (opportunities : list Opportunity) (p2 : Pool) :
  within (5 * B + 33) amt1 -> (0 <= Dec.value amt1)%Q ->
  p2 ∈ get_pools (index_pools pools) tok1 ->
  exists s', second_hop (index_pools pools) base_token amount_in min_profit
               tok1 amt1 opportunities p2 = Ok s'.
Proof.
  intros Hw H0 Hp2. pose proof B_pos as HB1. unfold second_hop.
  destruct (bool_decide _); [eauto|].
  destruct (simulate_swap_in_range (5 * B + 33) amt1 p2 tok1)
    as (amt2 & -> & Hw2 & H2);
    [lia | apply (indexed_in_range _ tok1); [lia | exact Hp2] | exact Hw
    | exact H0 |].
  cbn [bind]. destruct (Dec.le amt2 (Dec.of_int 0)); [eauto|].
  apply for_each_returns. intros s p3 Hp3.
  apply third_hop_returns; [|exact H2|exact Hp3].
  eapply within_mono; [|exact Hw2]. lia.
Qed.

Lemma first_hop_returns (opportunities : list Opportunity) (p1 : Pool) :
  p1 ∈ get_pools (index_pools pools) base_token ->
  exists s', first_hop (index_pools pools) base_token amount_in min_profit
               opportunities p1 = Ok s'.
Proof.
  intros Hp1. pose proof B_pos as HB1. unfold first_hop.
  destruct (simulate_swap_in_range B amount_in p1 base_token)
    as (amt1 & -> & Hw1 & H1);
    [lia | apply (indexed_in_range _ base_token); [lia | exact Hp1]
    | exact amount_in_range | exact amount_nonneg |].
  cbn [bind]. destruct (Dec.le amt1 (Dec.of_int 0)); [eauto|].
  apply for_each_returns. intros s p2 Hp2.
  now apply second_hop_returns.
Qed.

Lemma find_arbitrage_opportunities_total :
  exists opps,
    find_arbitrage_opportunities pools base_token amount_in min_profit = Ok opps.
Proof.
  unfold find_arbitrage_opportunities. apply for_each_returns.
  intros s p1 Hp1. now apply first_hop_returns.
Qed.
End Returns.

(** X16. On well-formed data the search is total: when every pool has
    positive reserves, a fee rate of at most 1 and all three numbers within
    [B <= 7991] places of the decimal point, and the amount is non-negative
    and within [B] places, [find_arbitrage_opportunities] raises nothing
    and returns a list, whatever the base asset and whatever the
    threshold, as long as the threshold is a finite decimal (on a NaN
    threshold, which is outside the model, the comparison
    [profit >= min_profit] of the library raises). *)
Theorem find_arbitrage_opportunities_returns (B : Z) (pools : list Pool)
    (base_token : string) (amount_in min_profit : Decimal) :
  B <= 7991 ->
  (forall p, p ∈ pools -> pool_in_range B p) ->
  within B amount_in ->
  (0 <= Dec.value amount_in)%Q ->
  exists opps,
    find_arbitrage_opportunities pools base_token amount_in min_profit = Ok opps.
Proof. intros. now apply (find_arbitrage_opportunities_total pools _ _ _ B). Qed.

(** * Decoded pools can be priced *)

Lemma of_int_top (n : Z) : 0 <= n < 2 ^ 64 -> top (Dec.of_int n) <= 20.
Proof.
  intros [Hn0 Hn]. unfold top, Dec.of_int.
  rewrite coeff_from_triple by lia. cbn [Dec.d_exp Dec.dec_from_triple].
  rewrite Z.abs_eq by lia.
  destruct (Z.eq_dec n 0) as [->|Hnz]; [change (Dec.len 0) with 1; lia|].
  assert (H20 : 2 ^ 64 < 10 ^ 20) by reflexivity.
  pose proof (len_upper n 20 ltac:(lia) ltac:(lia)). lia.
Qed.

Lemma of_int_within (n : Z) : 0 <= n < 2 ^ 64 -> within 35 (Dec.of_int n).
Proof.
  intros Hn. apply within_top. pose proof (of_int_top n Hn).
  change (Dec.d_exp (Dec.of_int n)) with 0. lia.
Qed.

Lemma of_int_positive (n : Z) :
  0 <= n -> Dec.is_zero (Dec.of_int n) = false ->
  (0 < Dec.value (Dec.of_int n))%Q.
Proof.
  intros Hn Hz. rewrite value_of_int by exact Hn.
  unfold Dec.is_zero, Dec.of_int in Hz.
  rewrite coeff_from_triple, Z.abs_eq in Hz by lia. apply Z.eqb_neq in Hz.
  change 0%Q with (inject_Z 0). rewrite <- Zlt_Qlt. lia.
Qed.

Lemma div_micro_within (n : Z) (f : Decimal) :
  0 <= n < 2 ^ 64 ->
  Dec.div (Dec.of_int n) (Dec.of_int 1000000) = Ok f -> within 35 f.
Proof.
  intros Hn Hf. pose proof (of_int_top n Hn) as Hw. apply within_top.
  destruct (div_bounds (Dec.of_int n) (Dec.of_int 1000000))
    as (u & Hu & Hue & Hut).
  - reflexivity.
  - change (top (Dec.of_int 1000000)) with 7.
    change (Dec.d_exp (Dec.of_int n)) with 0. discriminate.
  - change (Dec.d_exp (Dec.of_int 1000000)) with 0.
    change Dec.Emax with 999999. lia.
  - rewrite Hf in Hu. injection Hu as <-.
    change (top (Dec.of_int 1000000)) with 7 in Hue.
    change (Dec.d_exp (Dec.of_int n)) with 0 in Hue.
    change (Dec.d_exp (Dec.of_int 1000000)) with 0 in Hut.
    change Dec.prec with 28 in Hue. lia.
Qed.

Lemma parsed_pool_in_range
    (b64decode : string -> option (list Byte.byte)) (data_b64 : string)
    (pool : Pool) :
  parse_lifinity_pool_data b64decode data_b64 = Parsed pool ->
  Dec.is_zero (reserve_a pool) = false ->
  Dec.is_zero (reserve_b pool) = false ->
  (Dec.value (fee_rate pool) <= 1)%Q ->
  pool_in_range 35 pool.
Proof.
  unfold parse_lifinity_pool_data.
  destruct (b64decode data_b64) as [data|]; [|discriminate].
  destruct (Nat.lt_ge_cases (length data) 88) as [Hshort|Hlong].
  - now rewrite parse_lifinity_pool_bytes_short.
  - destruct (parse_lifinity_pool_bytes_long data Hlong) as (f & Hf & _ & ->).
    intros [= <-]. unfold fee_rate. cbn [reserve_a reserve_b fee default].
    intros Hza Hzb Hfee.
    assert (Hb : forall off : nat,
               0 <= little_endian (take 8 (drop off data)) < 2 ^ 64).
    { intros off.
      pose proof (little_endian_bounds (take 8 (drop off data))) as H.
      rewrite length_take in H. split; [lia|].
      eapply Z.lt_le_trans; [apply H|].
      change (2 ^ 64) with (256 ^ 8).
      apply Z.pow_le_mono_r; lia. }
    unfold pool_in_range, fee_rate. cbn [reserve_a reserve_b fee default].
    repeat split;
      try (apply of_int_within, Hb);
      try (apply of_int_positive; [apply Hb | assumption]);
      try assumption.
    + apply (div_micro_within _ f (Hb 80%nat) Hf).
    + apply (div_micro_within _ f (Hb 80%nat) Hf).
Qed.

(** X17. A decoded pool can be priced: for a pool that
    [parse_lifinity_pool_data] returns, with both reserves non-zero and a
    fee rate of at most 1 (a raw fee of at most 1000000), [simulate_swap]
    raises nothing on any non-negative amount within 35 places of the
    decimal point. *)
Theorem parsed_pool_is_priced
    (b64decode : string -> option (list Byte.byte)) (data_b64 : string)
    (pool : Pool) (amount_in : Decimal) (input_token : string) :
  parse_lifinity_pool_data b64decode data_b64 = Parsed pool ->
  Dec.is_zero (reserve_a pool) = false ->
  Dec.is_zero (reserve_b pool) = false ->
  (Dec.value (fee_rate pool) <= 1)%Q ->
  (0 <= Dec.value amount_in)%Q ->
  within 35 amount_in ->
  exists u, simulate_swap amount_in pool input_token = Ok u.
Proof.
  intros Hparse Hza Hzb Hfee Hx0 Hw.
  destruct (simulate_swap_in_range 35 amount_in pool input_token)
    as (u & Hu & _); eauto.
  - lia.
  - eapply parsed_pool_in_range; eauto.
Qed.

(** * Further examples *)

Local Open Scope string_scope.
Local Open Scope list_scope.

Definition triangle_opportunity : Opportunity :=
  make_opportunity "SOL" "USDC" "RAY" triangle_amt3 triangle_profit.

Lemma find_arbitrage_opportunities_exact_witness :
  triangle_opportunity ∈ [triangle_opportunity] <->
  is_cycle (triangle "SOL" "USDC" "RAY") "SOL" (dec 10 0) (dec 0 0)
    triangle_opportunity.
Proof.
  apply (find_arbitrage_opportunities_exact (triangle "SOL" "USDC" "RAY") "SOL"
           (dec 10 0) (dec 0 0) _ _ triangle_run).
Defined.

Lemma ray_bonk_no_sol (p : Pool) :
  p ∈ [ray_bonk] -> token_a p <> "SOL" /\ token_b p <> "SOL".
Proof.
  rewrite list_elem_of_singleton. intros ->. split; discriminate.
Defined.

Lemma find_arbitrage_opportunities_no_base_witness :
  find_arbitrage_opportunities [ray_bonk] "SOL" (dec 10 0) (dec 0 0) = Ok [].
Proof.
  apply (find_arbitrage_opportunities_no_base [ray_bonk] "SOL" (dec 10 0)
           (dec 0 0) ray_bonk_no_sol).
Defined.

Lemma find_arbitrage_opportunities_threshold_witness :
  Dec.le (dec 0 0) (dec 100 0) = true /\
  find_arbitrage_opportunities (triangle "SOL" "USDC" "RAY") "SOL" (dec 10 0)
    (dec 100 0) =
  match find_arbitrage_opportunities (triangle "SOL" "USDC" "RAY") "SOL"
          (dec 10 0) (dec 0 0) with
  | Ok opps => Ok (List.filter (profit_reaches (dec 100 0)) opps)
  | Err e => Err e
  end.
Proof.
  split; [reflexivity|].
  apply (find_arbitrage_opportunities_threshold (triangle "SOL" "USDC" "RAY")
           "SOL" (dec 10 0) (dec 0 0) (dec 100 0)).
  reflexivity.
Defined.

Lemma index_pools_filter_witness :
  get_pools (index_pools (triangle "SOL" "USDC" "RAY")) "USDC" =
  List.filter (has_token "USDC") (triangle "SOL" "USDC" "RAY").
Proof.
  apply (index_pools_filter (triangle "SOL" "USDC" "RAY") "USDC"
           triangle_well_formed).
Defined.

(** A malformed pool: SOL on both sides. *)
Definition sol_sol : Pool :=
  mkPool "SOL" "SOL" (dec 1000 0) (dec 1000 0) None "raydium".

Lemma index_pools_same_asset_witness :
  get_pools (index_pools ([sol_usdc] ++ [sol_sol])) "SOL" =
  get_pools (index_pools [sol_usdc]) "SOL" ++ [sol_sol; sol_sol].
Proof. apply (index_pools_same_asset [sol_usdc] sol_sol). reflexivity. Defined.

Lemma find_arbitrage_opportunities_orientation_witness :
  find_arbitrage_opportunities
    (map (reorient (fun _ => true)) (triangle "SOL" "USDC" "RAY")) "SOL"
    (dec 10 0) (dec 0 0) =
  find_arbitrage_opportunities (triangle "SOL" "USDC" "RAY") "SOL"
    (dec 10 0) (dec 0 0).
Proof.
  apply (find_arbitrage_opportunities_orientation (triangle "SOL" "USDC" "RAY")
           (fun _ => true) "SOL" (dec 10 0) (dec 0 0) triangle_well_formed).
Defined.

Lemma simulate_swap_inert_witness :
  Dec.is_zero (dec 0 0) = true.
Proof.
  apply (simulate_swap_inert (dec 0 0) sol_usdc_fee "SOL" (dec 0 0)).
  - left. reflexivity.
  - vm_compute. reflexivity.
Defined.

Lemma representable_1000 : representable (dec 1000 0).
Proof. repeat split; vm_compute; congruence. Defined.

Lemma simulate_swap_at_most_reserve_out_witness :
  Dec.le (dec 9871580343970612988504609048 (-27)) (dec 1000 0) = true.
Proof.
  apply (simulate_swap_at_most_reserve_out (dec 10 0) sol_usdc_fee "SOL"
           (dec 1000 0) (dec 1000 0)).
  - reflexivity.
  - discriminate.
  - discriminate.
  - exact representable_1000.
  - discriminate.
  - discriminate.
  - exact exact_steps_sol_usdc_fee_10.
  - vm_compute. reflexivity.
Defined.

(** An account of 88 bytes: mints [01 .. 01] and [02 .. 02], reserves
    1000 and 2000, raw fee 3000; and the same followed by two more bytes. *)
Definition account_88 : list Byte.byte :=
  replicate 32 Byte.x01 ++ replicate 32 Byte.x02 ++
  [Byte.xe8; Byte.x03] ++ replicate 6 Byte.x00 ++
  [Byte.xd0; Byte.x07] ++ replicate 6 Byte.x00 ++
  [Byte.xb8; Byte.x0b] ++ replicate 6 Byte.x00.

Definition account_90 : list Byte.byte := account_88 ++ [Byte.xff; Byte.xff].

(** A decoder that knows two strings. *)
Definition toy_b64decode (s : string) : option (list Byte.byte) :=
  if decide (s = "short") then Some (take 87 account_88)
  else if decide (s = "long") then Some account_90
  else Some account_88.

Definition account_pool : Pool :=
  mkPool (hex (replicate 32 Byte.x01)) (hex (replicate 32 Byte.x02))
    (dec 1000 0) (dec 2000 0) (Some (dec 3 (-3))) "lifinity".

Lemma parse_account_88 :
  parse_lifinity_pool_data toy_b64decode "exact" = Parsed account_pool.
Proof. vm_compute. reflexivity. Defined.

Lemma parse_lifinity_pool_data_length_witness :
  (exists pool, parse_lifinity_pool_data toy_b64decode "exact" = Parsed pool) /\
  parse_lifinity_pool_data toy_b64decode "short" = ParseRaises StructError.
Proof.
  split.
  - apply (proj1 (parse_lifinity_pool_data_length toy_b64decode "exact"
                    account_88 eq_refl)).
    apply Nat.leb_le. reflexivity.
  - apply (proj2 (parse_lifinity_pool_data_length toy_b64decode "short"
                    (take 87 account_88) eq_refl)).
    apply Nat.ltb_lt. reflexivity.
Defined.

Lemma parse_lifinity_pool_data_prefix_witness :
  parse_lifinity_pool_data toy_b64decode "exact" =
  parse_lifinity_pool_data toy_b64decode "long".
Proof.
  apply (parse_lifinity_pool_data_prefix toy_b64decode "exact" "long"
           account_88 account_90 eq_refl eq_refl).
  - apply Nat.leb_le. reflexivity.
  - reflexivity.
Defined.


Lemma parse_lifinity_pool_data_mints_witness :
  String.length (token_a account_pool) = 64%nat /\
  String.length (token_b account_pool) = 64%nat /\
  (token_a account_pool = token_a account_pool <->
   take 32 account_88 = take 32 account_90) /\
  (token_b account_pool = token_b account_pool <->
   take 32 (drop 32 account_88) = take 32 (drop 32 account_90)) /\
  (token_a account_pool = token_b account_pool <->
   take 32 account_88 = take 32 (drop 32 account_88)).
Proof.
  apply (parse_lifinity_pool_data_mints toy_b64decode "exact" "long"
           account_88 account_90 account_pool account_pool eq_refl eq_refl
           parse_account_88).
  vm_compute. reflexivity.
Defined.

Lemma simulate_swap_nonneg_witness :
  Dec.le (Dec.of_int 0) (dec 9871580343970612988504609048 (-27)) = true.
Proof.
  apply (simulate_swap_nonneg (dec 10 0) sol_usdc_fee "SOL").
  - discriminate.
  - discriminate.
  - discriminate.
  - discriminate.
  - vm_compute. reflexivity.
Defined.

Lemma find_arbitrage_opportunities_zero_amount_witness :
  ([] : list Opportunity) = [].
Proof.
  apply (find_arbitrage_opportunities_zero_amount (triangle "SOL" "USDC" "RAY")
           "SOL" (dec 0 0) (dec 0 0) []).
  - reflexivity.
  - vm_compute. reflexivity.
Defined.

Lemma sol_usdc_fee_in_range : pool_in_range 100 sol_usdc_fee.
Proof.
  unfold pool_in_range, within.
  repeat split; first [reflexivity | discriminate].
Defined.

Lemma simulate_swap_returns_witness :
  exists u, simulate_swap (dec 10 0) sol_usdc_fee "SOL" = Ok u /\
            within (5 * 100 + 33) u.
Proof.
  apply (simulate_swap_returns 100 (dec 10 0) sol_usdc_fee "SOL").
  - discriminate.
  - exact sol_usdc_fee_in_range.
  - split; [discriminate | reflexivity].
  - discriminate.
Defined.

Lemma triangle_in_range (p : Pool) :
  p ∈ triangle "SOL" "USDC" "RAY" -> pool_in_range 100 p.
Proof.
  unfold triangle. rewrite !elem_of_cons, elem_of_nil.
  intros [->|[->|[->|[]]]]; unfold pool_in_range, within;
    repeat split; first [reflexivity | discriminate].
Defined.

Lemma find_arbitrage_opportunities_returns_witness :
  exists opps,
    find_arbitrage_opportunities (triangle "SOL" "USDC" "RAY") "SOL"
      (dec 10 0) (dec 0 0) = Ok opps.
Proof.
  apply (find_arbitrage_opportunities_returns 100
           (triangle "SOL" "USDC" "RAY") "SOL" (dec 10 0) (dec 0 0)).
  - discriminate.
  - exact triangle_in_range.
  - split; [discriminate | reflexivity].
  - discriminate.
Defined.

Lemma parsed_pool_is_priced_witness :
  exists u,
    simulate_swap (dec 10 0) account_pool (hex (replicate 32 Byte.x01)) = Ok u.
Proof.
  apply (parsed_pool_is_priced toy_b64decode "exact" account_pool (dec 10 0)
           (hex (replicate 32 Byte.x01)) parse_account_88).
  - reflexivity.
  - reflexivity.
  - discriminate.
  - discriminate.
  - split; [discriminate | reflexivity].
Defined.
